(** * studio19-ir/chat: retrieval, gating and index maintenance

    A shallow embedding of [server/app.js] and of the ingest script (which
    shares its chunker) together with the properties of the
    retrieval-and-gating pipeline and of the index maintenance.

    Conventions of the embedding.
    - A JavaScript string is the list of its UTF-16 code units, so that
      [length] is [.length] and [slice] cuts where JavaScript cuts.
    - A JavaScript number that is used as an index or a size is a [Z]; a
      number that is a similarity score is a binary64 [float], with the
      IEEE 754 operations of the kernel ([+], [*], [/], [sqrt], [<?]), which
      are the operations JavaScript performs.
    - The mutable globals ([INDEX], the persisted copy written by
      [saveIndex]) and the calls to the outside world are threaded through a
      state-and-exception monad; an outside service is an oracle that reads
      the history of calls and either returns or throws. *)

From Stdlib Require Import Ascii String.
From Stdlib Require Import ZArith List Bool Lia Arith.
From Stdlib Require Import Floats.
From Stdlib Require Uint63.
From Stdlib Require Import Sorted Permutation.
Import ListNotations.

Set Warnings "-inexact-float".

Local Open Scope Z_scope.

(** ** JavaScript strings *)

Module JS.

Definition code_unit := N.
Definition jsstring := list code_unit.

(** [s.length], of a string or of an array *)
Definition len {A : Type} (s : list A) : Z := Z.of_nat (length s).

(** Relative index of [slice]: a negative index counts
    from the end, and the result is clamped to [0, len]. *)
Definition rel_index (l k : Z) : Z :=
  if k <? 0 then Z.max (l + k) 0 else Z.min k l.

(** [s.slice(from, to)], of a string or of an array *)
Definition slice {A : Type} (s : list A) (from to : Z) : list A :=
  let a := rel_index (len s) from in
  let b := rel_index (len s) to in
  firstn (Z.to_nat (b - a)) (skipn (Z.to_nat a) s).

(** Decoding of a UTF-8 literal of this file into UTF-16 code units, so
    that the literals of the source can be written as they stand there. *)
Fixpoint utf16_of_bytes (fuel : nat) (bs : list N) : jsstring :=
  match fuel with
  | O => []
  | S fuel' =>
    match bs with
    | [] => []
    | b0 :: r0 =>
      if (b0 <? 128)%N then b0 :: utf16_of_bytes fuel' r0
      else if (b0 <? 224)%N then
        match r0 with
        | b1 :: r1 =>
          (N.land b0 31 * 64 + N.land b1 63)%N :: utf16_of_bytes fuel' r1
        | [] => [b0]
        end
      else if (b0 <? 240)%N then
        match r0 with
        | b1 :: b2 :: r2 =>
          (N.land b0 15 * 4096 + N.land b1 63 * 64 + N.land b2 63)%N
            :: utf16_of_bytes fuel' r2
        | _ => b0 :: r0
        end
      else
        match r0 with
        | b1 :: b2 :: b3 :: r3 =>
          let cp := (N.land b0 7 * 262144 + N.land b1 63 * 4096
                     + N.land b2 63 * 64 + N.land b3 63)%N in
          let v := (cp - 65536)%N in
          (55296 + N.shiftr v 10)%N :: (56320 + N.land v 1023)%N
            :: utf16_of_bytes fuel' r3
        | _ => b0 :: r0
        end
    end
  end.

Definition str (s : string) : jsstring :=
  let bs := map N_of_ascii (list_ascii_of_string s) in
  utf16_of_bytes (length bs) bs.

(** [s.startsWith(p)] *)
Fixpoint startsWith (s p : jsstring) : bool :=
  match p, s with
  | [], _ => true
  | _ :: _, [] => false
  | c :: p', d :: s' => (c =? d)%N && startsWith s' p'
  end.

(** [a === b] on strings *)
Fixpoint streq (a b : jsstring) : bool :=
  match a, b with
  | [], [] => true
  | c :: a', d :: b' => (c =? d)%N && streq a' b'
  | _, _ => false
  end.

(** [String(n)] for a non-negative integer [n]: its decimal digits. *)
Definition digit_unit (d : nat) : code_unit := (48 + N.of_nat d)%N.

Fixpoint digits_rev (fuel n : nat) : jsstring :=
  match fuel with
  | O => []
  | S fuel' =>
    if (n <? 10)%nat then [digit_unit n]
    else digit_unit (n mod 10) :: digits_rev fuel' (n / 10)
  end.

Definition string_of_nat (n : nat) : jsstring := rev (digits_rev (S n) n).

End JS.
Import JS.

(** ** The chunker ([chunkText], the same in the server and in the ingest script) *)

Module Chunker.

(** The [while] loop of [chunkText], with [i] and the chunks pushed so
    far as its state.  The loop has no bound of its own: [fuel] counts the
    tests of the loop condition that may still be made, and [None] says
    that they were all used up with the condition still true, so that the
    call has not returned.  Here [chunks] is a list that can always grow;
    [chunk_loop_limited] below is the same loop with the array that an
    engine gives it. *)
Fixpoint chunk_loop (fuel : nat) (text : jsstring) (size overlap : Z)
    (i : Z) (chunks : list jsstring) : option (list jsstring) :=
  match fuel with
  | O => None
  | S fuel' =>
    if i <? len text then
      let e := Z.min (len text) (i + size) in
      let chunk := slice text i e in
      chunk_loop fuel' text size overlap (i + (size - overlap)) (chunks ++ [chunk])
    else Some chunks
  end.

Definition chunkText_fuel (fuel : nat) (text : jsstring) (size overlap : Z)
  : option (list jsstring) :=
  chunk_loop fuel text size overlap 0 [].

(** [chunkText(text, size, overlap)] returns [chunks]. *)
Definition chunkText_returns (text : jsstring) (size overlap : Z)
    (chunks : list jsstring) : Prop :=
  exists fuel, chunkText_fuel fuel text size overlap = Some chunks.

(** How a call of [chunkText] ends: it returns its chunks, or
    [chunks.push(chunk)] throws a [RangeError] because the array cannot
    grow. *)
Inductive chunk_result :=
| Returns (chunks : list jsstring)
| RangeError.

(** The loop with an array of bounded length: [max_length] is the number
    of elements that the engine lets an array hold (at most [2^32 - 1] by
    the language, less in practice), and a [push] on an array that holds
    as many throws.  [None] is as for [chunk_loop]. *)
Fixpoint chunk_loop_limited (max_length fuel : nat) (text : jsstring)
    (size overlap : Z) (i : Z) (chunks : list jsstring)
  : option chunk_result :=
  match fuel with
  | O => None
  | S fuel' =>
    if i <? len text then
      let e := Z.min (len text) (i + size) in
      let chunk := slice text i e in
      if (length chunks <? max_length)%nat then
        chunk_loop_limited max_length fuel' text size overlap
          (i + (size - overlap)) (chunks ++ [chunk])
      else Some RangeError
    else Some (Returns chunks)
  end.


(** [chunkText(text)], as every caller writes it: the defaults
    [size = 800] and [overlap = 200].  The window start grows by 600 at
    each turn, so [length text + 1] tests are enough. *)
Definition chunkText (text : jsstring) : list jsstring :=
  match chunkText_fuel (S (length text)) text 800 200 with
  | Some chunks => chunks
  | None => []
  end.

End Chunker.
Import Chunker.

(** ** Scores: [cosine] *)

Module Cosine.

Local Open Scope float_scope.

Definition vector := list float.

(** The loop of [cosine(a, b)]: [i] runs over the indices of [a]; the
    accumulators are [dot], [na] and [nb].  Where [b] is shorter than [a],
    [b[i]] is [undefined] and its products are [NaN]. *)
Fixpoint cosine_loop (a b : vector) (dot na nb : float) : float * float * float :=
  match a with
  | [] => (dot, na, nb)
  | ai :: a' =>
    let bi := match b with [] => nan | y :: _ => y end in
    cosine_loop a' (tl b) (dot + ai * bi) (na + ai * ai) (nb + bi * bi)
  end.

Definition cosine (a b : vector) : float :=
  let '(dot, na, nb) := cosine_loop a b 0 0 0 in
  dot / (PrimFloat.sqrt na * PrimFloat.sqrt nb + 1e-9).

End Cosine.
Import Cosine.

(** ** The vector store *)

Module Store.

(** [type: 'file' | 'url'] *)
Inductive SourceKind := file | url.

Record IndexRecord := {
  id : jsstring;
  source : jsstring;
  type : SourceKind;
  text : jsstring;
  embedding : vector
}.

(** [INDEX = { items: [...] }] *)
Record Index := { items : list IndexRecord }.

(** The [meta] argument of [embedAndAppend]. *)
Record Meta := {
  idPrefix : jsstring;
  meta_source : jsstring;
  meta_type : SourceKind
}.

(** The template literal [`${prefix}::${i}`]. *)
Definition record_id (prefix : jsstring) (i : nat) : jsstring :=
  prefix ++ str "::" ++ string_of_nat i.

(** The records that one [for] loop pushes: the [i]-th has [chunks[i]] as
    text and [embs[i]] as embedding.  The embedding service answers with
    one vector per input, and then this is the list that the code
    pushes.  For an answer with fewer vectors the code stores
    [undefined], a value that a [vector] does not have: the empty vector
    stands in its place here, and nothing is proved of the embedding of
    such a record. *)
Definition new_records (prefix src : jsstring) (k : SourceKind)
    (chunks : list jsstring) (embs : list vector) : list IndexRecord :=
  map (fun i => {| id := record_id prefix i;
                   source := src;
                   type := k;
                   text := nth i chunks [];
                   embedding := nth i embs [] |})
      (seq 0 (length chunks)).

(** [INDEX.items.filter(it => it.source !== source)] *)
Definition without_source (src : jsstring) (its : list IndexRecord)
  : list IndexRecord :=
  filter (fun it => negb (streq (source it) src)) its.

End Store.
Import Store.

(** ** The retriever *)

Module Retriever.

Local Open Scope float_scope.

(** [{ ...it, score }] *)
Record Scored := { item : IndexRecord; score : float }.

(** [Array.prototype.sort(comparefn)].  ECMAScript asks for a stable sort
    and reads the comparator's result [v] as: [NaN] counts as [0]; [v > 0]
    puts the second argument first.  Insertion from the right is the
    stable sort written out: [x] stood before every element of [l] and
    moves behind [y] only when [comparefn(x, y) > 0].  For a comparator
    that orders its arguments consistently every stable sort gives this
    list, and so does the engine.  For one that does not (here: when some
    scores are [NaN] and others are not) the language leaves the order to
    the engine, and this list need not be the engine's; what is proved of
    the order of the results is proved under the condition that no score
    is [NaN], or that all are. *)
Section Sort.
Context {A : Type} (comparefn : A -> A -> float).

Fixpoint insert (x : A) (l : list A) : list A :=
  match l with
  | [] => [x]
  | y :: l' => if 0 <? comparefn x y then y :: insert x l' else x :: l
  end.

Definition sort (l : list A) : list A := fold_right insert [] l.

End Sort.

(** [topKByCosine(qEmb, k)] over the items of the index. *)
Definition topKByCosine (its : list IndexRecord) (qEmb : vector) (k : Z)
  : list Scored :=
  let scored := map (fun it => {| item := it;
                                  score := cosine qEmb (embedding it) |}) its in
  let scored := sort (fun a b => score b - score a) scored in
  slice scored 0 (Z.min k (len scored)).

End Retriever.
Import Retriever.

(** ** The server *)

Module Server.

Local Open Scope float_scope.

(** *** Values of a request *)

(** The values a field of a JSON body or of a query string can hold. *)
Inductive jsval :=
| VUndefined
| VNull
| VBool (b : bool)
| VNumber (x : float)
| VString (s : jsstring)
| VObject.

(** [!!v] *)
Definition truthy (v : jsval) : bool :=
  match v with
  | VUndefined | VNull => false
  | VBool b => b
  | VNumber x => negb (PrimFloat.is_zero x || PrimFloat.is_nan x)
  | VString s => match s with [] => false | _ :: _ => true end
  | VObject => true
  end.

(** [typeof v === 'string'] *)
Definition is_string (v : jsval) : bool :=
  match v with VString _ => true | _ => false end.

(** [s.trim()]: white space and line terminators of ECMAScript. *)
Definition is_space (c : code_unit) : bool :=
  ((9 <=? c) && (c <=? 13) || (c =? 32) || (c =? 160) || (c =? 5760)
   || (8192 <=? c) && (c <=? 8202) || (c =? 8232) || (c =? 8233)
   || (c =? 8239) || (c =? 8287) || (c =? 12288) || (c =? 65279))%N.

Fixpoint trimStart (s : jsstring) : jsstring :=
  match s with
  | c :: s' => if is_space c then trimStart s' else s
  | [] => []
  end.

Definition trim (s : jsstring) : jsstring :=
  rev (trimStart (rev (trimStart s))).

(** [parts.join(sep)] *)
Fixpoint join (sep : jsstring) (parts : list jsstring) : jsstring :=
  match parts with
  | [] => []
  | [p] => p
  | p :: rest => p ++ sep ++ join sep rest
  end.

(** *** Configuration, read from the environment at start *)

Record Config := {
  MIN_TOP_SIM : float;
  MIN_AVG_TOP3 : float;
  ADMIN_TOKEN : jsstring
}.

(** With no variable set: [parseFloat('0.78')], [parseFloat('0.72')], ['']. *)
Definition default_config : Config :=
  {| MIN_TOP_SIM := 0.78; MIN_AVG_TOP3 := 0.72; ADMIN_TOKEN := [] |}.

(** *** Responses *)

(** An entry of [sources] in an answer. *)
Record SourceRef := {
  ref_id : Z;
  ref_source : jsstring;
  ref_score : float
}.

Inductive Body :=
| Error (error : jsstring)
| Answer (answer : jsstring) (sources : list SourceRef)
| Removed (removed : Z)
| Indexed (indexed : Z)
| Rebuilt (n : Z).

Record Response := { status : Z; body : Body }.

(** [res.status(code).json(body)] and [res.json(body)] *)
Definition status_json (code : Z) (b : Body) : Response :=
  {| status := code; body := b |}.
Definition json (b : Body) : Response := status_json 200 b.

(** *** The world: the globals and the history of outside calls *)

(** A file received by the upload route. *)
Record Upload := { originalname : jsstring; buffer : list N }.

Inductive Call :=
| CallEmbed (texts : list jsstring)
| CallEmbedQuery (q : jsstring)
| CallCompletion (system user : jsstring)
| CallFetchHtmlText (u : jsstring)
| CallFetchPdfText (u : jsstring)
| CallReadTextFromBuffer (buf : list N) (name : jsstring)
| CallNow.

Record World := {
  INDEX : Index;
  (** what [saveIndex] wrote last *)
  saved : Index;
  (** the outside calls made so far, the latest first *)
  calls : list Call
}.

(** A computation returns or throws ([Throw] carries [e.message]). *)
Inductive outcome (A : Type) :=
| Return (a : A)
| Throw (message : jsstring).
Arguments Return {A} a.
Arguments Throw {A} message.

Definition M (A : Type) : Type := World -> outcome A * World.

Definition ret {A} (a : A) : M A := fun w => (Return a, w).

Definition bind {A B} (m : M A) (k : A -> M B) : M B :=
  fun w => match m w with
           | (Return a, w') => k a w'
           | (Throw e, w') => (Throw e, w')
           end.

Notation "x <- m ;; k" := (bind m (fun x => k))
  (at level 61, m at next level, right associativity).
Notation "m ;;; k" := (bind m (fun _ => k))
  (at level 61, right associativity).

(** [try { m } catch (e) { h(e.message) }] *)
Definition try_catch {A} (m : M A) (h : jsstring -> M A) : M A :=
  fun w => match m w with
           | (Return a, w') => (Return a, w')
           | (Throw e, w') => h e w'
           end.

Definition get_items : M (list IndexRecord) :=
  fun w => (Return (items (INDEX w)), w).

Definition set_items (its : list IndexRecord) : M unit :=
  fun w => (Return tt, {| INDEX := {| items := its |};
                          saved := saved w; calls := calls w |}).

(** [saveIndex()], on a disk that takes the write.  In the code
    [fs.writeFileSync] can throw (into the [catch] of the upload, add-url
    and rebuild routes, and out of the handler of the delete route, which
    has none), with [INDEX] ahead of the file; these runs are not in the
    model, and what is proved of [saved] is proved of the runs in which
    the writes go through. *)
Definition saveIndex : M unit :=
  fun w => (Return tt, {| INDEX := INDEX w; saved := INDEX w; calls := calls w |}).

(** An outside call: it is written to the history, and its answer may
    depend on everything that was called before. *)
Definition call {A} (c : Call) (answer : list Call -> outcome A) : M A :=
  fun w => (answer (calls w),
            {| INDEX := INDEX w; saved := saved w; calls := c :: calls w |}).

(** The outside world: the embedding and completion services, the
    network, the text extractors and the clock, and three built-ins that
    are taken as they come: [toLowerCase s] is [s.toLowerCase()],
    [toFixed3 x] is [Number(x.toFixed(3))], and [typeError] is the message
    of the TypeError thrown when a method is called on a value that has
    none of that name. *)
Record Services := {
  embed_service : list Call -> list jsstring -> outcome (list vector);
  embedQuery_service : list Call -> jsstring -> outcome vector;
  completion_service : list Call -> jsstring -> jsstring -> outcome jsstring;
  fetchHtmlText_service : list Call -> jsstring -> outcome jsstring;
  fetchPdfText_service : list Call -> jsstring -> outcome jsstring;
  readTextFromBuffer_service : list Call -> list N -> jsstring -> outcome jsstring;
  now_service : list Call -> nat;
  toLowerCase : jsstring -> jsstring;
  toFixed3 : float -> float;
  typeError : jsstring
}.

Section Handlers.

Variable cfg : Config.
Variable svc : Services.

Definition embed (texts : list jsstring) : M (list vector) :=
  call (CallEmbed texts) (fun h => embed_service svc h texts).

Definition embedQuery (q : jsstring) : M vector :=
  call (CallEmbedQuery q) (fun h => embedQuery_service svc h q).

Definition fetchHtmlText (u : jsstring) : M jsstring :=
  call (CallFetchHtmlText u) (fun h => fetchHtmlText_service svc h u).

Definition fetchPdfText (u : jsstring) : M jsstring :=
  call (CallFetchPdfText u) (fun h => fetchPdfText_service svc h u).

Definition readTextFromBuffer (buf : list N) (name : jsstring) : M jsstring :=
  call (CallReadTextFromBuffer buf name)
       (fun h => readTextFromBuffer_service svc h buf name).

(** [Date.now()] *)
Definition now : M nat :=
  call CallNow (fun h => Return (now_service svc h)).

(** [embedAndAppend(chunks, meta)] *)
Definition embedAndAppend (chunks : list jsstring) (meta : Meta) : M Z :=
  match chunks with
  | [] => ret 0%Z
  | _ :: _ =>
    embs <- embed chunks ;;
    its <- get_items ;;
    set_items (its ++ new_records (idPrefix meta) (meta_source meta)
                        (meta_type meta) chunks embs) ;;;
    saveIndex ;;;
    ret (len chunks)
  end.

(** [s.endsWith(suffix)] *)
Definition endsWith (s suffix : jsstring) : bool :=
  startsWith (rev s) (rev suffix).

(** The text of a URL: [fetchPdfText] when its lower-cased form ends in
    [.pdf], [fetchHtmlText] otherwise. *)
Definition fetchText (u : jsstring) : M jsstring :=
  if endsWith (toLowerCase svc u) (str ".pdf") then fetchPdfText u
  else fetchHtmlText u.

(** One turn of the first loop of [rebuildFromDisk]: a URL that fails is
    logged and skipped. *)
Definition rebuild_url (items_so_far : list IndexRecord) (u : jsstring)
  : M (list IndexRecord) :=
  try_catch
    (text <- fetchText u ;;
     let chunks := chunkText text in
     embs <- embed chunks ;;
     ret (items_so_far ++ new_records (str "url:" ++ u) u url chunks embs))
    (fun _ => ret items_so_far).

(** One turn of its second loop, for a regular file [name] of the files
    directory whose content is [buf]. *)
Definition rebuild_file (items_so_far : list IndexRecord)
    (f : jsstring * list N) : M (list IndexRecord) :=
  let '(name, buf) := f in
  try_catch
    (text <- readTextFromBuffer buf name ;;
     let chunks := chunkText text in
     embs <- embed chunks ;;
     ret (items_so_far ++ new_records (str "file:" ++ name) name file chunks embs))
    (fun _ => ret items_so_far).

Fixpoint for_each {A B} (step : B -> A -> M B) (l : list A) (acc : B) : M B :=
  match l with
  | [] => ret acc
  | x :: l' => acc' <- step acc x ;; for_each step l' acc'
  end.

(** [rebuildFromDisk()].  What it reads from the disk is given: [lines],
    the lines of the URL list that are neither blank nor comments, and
    [files], the regular files of the files directory with their content.
    So the reads of the disk that stand outside the [try] blocks of the
    two loops (the URL list, the directory, the kind of each entry) have
    gone through, as has the write of [saveIndex]: a run in which one of
    them throws is not in the model. *)
Definition rebuildFromDisk (lines : list jsstring)
    (files : list (jsstring * list N)) : M Z :=
  its <- for_each rebuild_url lines [] ;;
  its <- for_each rebuild_file files its ;;
  set_items its ;;;
  saveIndex ;;;
  ret (len its).

(** *** Authentication *)

Inductive Middleware :=
| Next
| Respond (r : Response).

(** [requireAdmin(req, res, next)]; [authorization] is
    [req.headers['authorization']], [None] when the header is absent. *)
Definition requireAdmin (authorization : option jsstring) : Middleware :=
  match ADMIN_TOKEN cfg with
  | [] => Respond (status_json 500 (Error (str "ADMIN_TOKEN not set on server")))
  | _ :: _ =>
    let auth := match authorization with
                | Some (c :: a) => c :: a
                | _ => []
                end in
    let token := if startsWith auth (str "Bearer ")
                 then slice auth 7 (len auth) else [] in
    if negb (streq token (ADMIN_TOKEN cfg))
    then Respond (status_json 401 (Error (str "unauthorized")))
    else Next
  end.

(** A route declared as [app.METHOD(path, requireAdmin, handler)]. *)
Definition admin_route (authorization : option jsstring)
    (handler : M Response) : M Response :=
  match requireAdmin authorization with
  | Next => handler
  | Respond r => ret r
  end.

(** *** The chat route *)

Definition buildSystemPrompt : jsstring :=
  join (str "
")
    [ str "شما یک دستیار پرسش‌و‌پاسخ هستید که **فقط** از روی «کانتکست» ارائه‌شده پاسخ می‌دهد.";
      str "قواعد سخت‌گیرانه:";
      str "1) اگر پاسخ در کانتکست نبود یا اطمینان ندارید، صریح بگویید: «برای این موضوع آموزش ندیده‌ام و نمی‌توانم پاسخ بدهم.»";
      str "2) از دانسته‌های عمومی یا حدس استفاده نکنید. هرگز اطلاعات تازه تولید نکنید.";
      str "3) اگر کانتکست کافی بود، پاسخ را کوتاه و دقیق بدهید و در صورت امکان در پایان منابع را با شماره‌گذاری [[1]]، [[2]] ذکر کنید." ].

(** [i + 1] rendered in a template literal *)
Definition label (i : nat) : jsstring := string_of_nat (i + 1).

Definition formatContext (chunks : list Scored) : jsstring :=
  join (str "

---

")
    (map (fun '(i, c) =>
            str "[[" ++ label i ++ str "]] ("
            ++ (match type (item c) with
                | url => source (item c)
                | file => str "file: " ++ source (item c)
                end)
            ++ str ")
" ++ text (item c))
         (combine (seq 0 (length chunks)) chunks)).

Definition refusalMessage : Body :=
  Answer (str "برای این موضوع آموزش ندیده‌ام و نمی‌توانم پاسخ بدهم.") [].

(** The two figures of the gate: [top[0]?.score ?? 0] and the mean of the
    first three scores. *)
Definition number_of_nat (n : nat) : float :=
  PrimFloat.of_uint63 (Uint63.of_Z (Z.of_nat n)).

Definition gate_topSim (top : list Scored) : float :=
  match top with
  | [] => 0
  | t :: _ => score t
  end.

Definition gate_avgTop3 (top : list Scored) : float :=
  fold_left (fun s x => s + score x) (slice top 0 3) 0
  / number_of_nat (Nat.max 1 (Nat.min 3 (length top))).

(** [topSim < MIN_TOP_SIM || avgTop3 < MIN_AVG_TOP3] *)
Definition gate_refuses (top : list Scored) : bool :=
  (gate_topSim top <? MIN_TOP_SIM cfg) || (gate_avgTop3 top <? MIN_AVG_TOP3 cfg).

(** [app.post('/api/chat', ...)]; [message] is the field of that name of
    the body ([VUndefined] when the body or the field is missing). *)
Definition chat (message : jsval) : M Response :=
  try_catch
    (if negb (truthy message) || negb (is_string message)
     then ret (status_json 400 (Error (str "message is required")))
     else
       let message := match message with VString m => m | _ => [] end in
       its <- get_items ;;
       match its with
       | [] => ret (status_json 400
                 (Error (str "No index found. Use admin panel to add resources.")))
       | _ :: _ =>
         qEmb <- embedQuery message ;;
         its <- get_items ;;
         let top := topKByCosine its qEmb 5 in
         if gate_refuses top then ret (json refusalMessage)
         else
           let ctx := formatContext top in
           let sys := buildSystemPrompt in
           let user := join (str "
") [str "پرسش کاربر:"; message; str ""; str "کانتکست:"; ctx] in
           answer <- call (CallCompletion sys user)
                          (fun h => completion_service svc h sys user) ;;
           let sources :=
             map (fun '(i, t) => {| ref_id := Z.of_nat i + 1;
                                    ref_source := source (item t);
                                    ref_score := toFixed3 svc (score t) |})
                 (combine (seq 0 (length top)) top) in
           ret (json (Answer answer sources))
       end)
    (fun e => ret (status_json 500
                     (Error (match e with [] => str "server error" | _ => e end)))).

(** *** The administration routes *)

(** [app.delete('/api/admin/source', requireAdmin, ...)], after
    [requireAdmin]; [source] is [req.query.source]. *)
Definition delete_source (source : option jsstring) : M Response :=
  match source with
  | Some (c :: s) =>
    let source := c :: s in
    its <- get_items ;;
    let before := len its in
    set_items (without_source source its) ;;;
    saveIndex ;;;
    its' <- get_items ;;
    ret (json (Removed (before - len its')))
  | _ => ret (status_json 400 (Error (str "source query required")))
  end.

(** [f.originalname.replace(re, '_')], where [re] matches every code unit
    but the letters, digits and underscore of [\w], the dot, the hyphen
    and the Arabic block U+0600 to U+06FF. *)
Definition safe_char (c : code_unit) : bool :=
  ((48 <=? c) && (c <=? 57) || (65 <=? c) && (c <=? 90)
   || (97 <=? c) && (c <=? 122) || (c =? 95) || (c =? 46) || (c =? 45)
   || (1536 <=? c) && (c <=? 1791))%N.

Definition sanitize (name : jsstring) : jsstring :=
  map (fun c => if safe_char c then c else 95%N) name.

(** One turn of the loop of the upload route (the backup copy of the
    file goes to the files directory, which is not part of [World]). *)
Definition upload_one (total : Z) (f : Upload) : M Z :=
  t <- now ;;
  let safeName := string_of_nat t ++ str "-" ++ sanitize (originalname f) in
  text <- readTextFromBuffer (buffer f) (originalname f) ;;
  let chunks := chunkText text in
  added <- embedAndAppend chunks
             {| idPrefix := str "file:" ++ safeName;
                meta_source := safeName; meta_type := file |} ;;
  ret (total + added)%Z.

(** [app.post('/api/admin/upload', requireAdmin, upload.array('files', 10), ...)],
    after the two middlewares; [files] is [req.files]. *)
Definition upload (files : list Upload) : M Response :=
  try_catch
    (match files with
     | [] => ret (status_json 400 (Error (str "no files")))
     | _ :: _ =>
       total <- for_each upload_one files 0%Z ;;
       ret (json (Indexed total))
     end)
    (fun e => ret (status_json 500 (Error e))).

(** [app.post('/api/admin/add-url', requireAdmin, ...)], after
    [requireAdmin]; [u] is the field [url] of the body.  (The route also
    notes the URL in the URL list, a file that is not part of [World].) *)
Definition add_url (u : jsval) : M Response :=
  try_catch
    (u <- (match u with
           | VString s => ret (trim s)
           | _ => if truthy u then (fun w => (Throw (typeError svc), w))
                  else ret (trim [])
           end) ;;
     match u with
     | [] => ret (status_json 400 (Error (str "url required")))
     | _ :: _ =>
       text <- fetchText u ;;
       let chunks := chunkText text in
       added <- embedAndAppend chunks
                  {| idPrefix := str "url:" ++ u;
                     meta_source := u; meta_type := url |} ;;
       ret (json (Indexed added))
     end)
    (fun e => ret (status_json 500 (Error e))).

(** [app.post('/api/admin/rebuild', requireAdmin, ...)], after
    [requireAdmin].  The [catch] answers 500 when a read of the disk or
    the write of the index throws, which [rebuildFromDisk] as modelled
    here does not do. *)
Definition rebuild (lines : list jsstring) (files : list (jsstring * list N))
  : M Response :=
  try_catch
    (n <- rebuildFromDisk lines files ;;
     ret (json (Rebuilt n)))
    (fun e => ret (status_json 500 (Error e))).

End Handlers.

End Server.
Import Server.

(** ** The routes as one server *)

(** A request to one of the routes that read or change the store, with
    what the route reads of it: the [Authorization] header, the fields of
    the body or of the query, the files as the upload middleware leaves
    them, and for a rebuild what is on the disk (the URL lines and the
    files of the files directory). *)
Inductive Request :=
| PostChat (message : jsval)
| DeleteSource (authorization : option jsstring) (source : option jsstring)
| PostUpload (authorization : option jsstring) (files : list Upload)
| PostAddUrl (authorization : option jsstring) (u : jsval)
| PostRebuild (authorization : option jsstring) (lines : list jsstring)
    (files : list (jsstring * list N)).

(** [app.post('/api/chat', ...)], [app.delete('/api/admin/source',
    requireAdmin, ...)], [app.post('/api/admin/upload', requireAdmin, ...)],
    [app.post('/api/admin/add-url', requireAdmin, ...)] and
    [app.post('/api/admin/rebuild', requireAdmin, ...)]. *)
Definition handle (cfg : Config) (svc : Services) (r : Request) : M Response :=
  match r with
  | PostChat message => chat cfg svc message
  | DeleteSource a source => admin_route cfg a (delete_source source)
  | PostUpload a files => admin_route cfg a (upload svc files)
  | PostAddUrl a u => admin_route cfg a (add_url svc u)
  | PostRebuild a lines files => admin_route cfg a (rebuild svc lines files)
  end.

(** The requests of a session, served one after the other. *)
Fixpoint serve (cfg : Config) (svc : Services) (rs : list Request) (w : World)
  : World :=
  match rs with
  | [] => w
  | r :: rs' => serve cfg svc rs' (snd (handle cfg svc r w))
  end.

(** ** The names of uploaded files *)

(** The name under which the upload route stores a file received at time
    [t] (in milliseconds) under the name [name]. *)
Definition safeName (t : nat) (name : jsstring) : jsstring :=
  string_of_nat t ++ str "-" ++ sanitize name.

(** ** The list of the sources *)

Module Listing.

(** [{ source: key, type: it.type, count }] *)
Record Group := { g_source : jsstring; g_type : SourceKind; count : Z }.

(** [{ total, groups }], the body that the route sends. *)
Record Items := { total : Z; groups : list Group }.

(** A [Map] with strings as keys, as the list of its entries in the order
    of their insertion. *)
Definition GroupsMap := list (jsstring * Group).

(** [groupsMap.get(key)] *)
Fixpoint map_get (key : jsstring) (m : GroupsMap) : option Group :=
  match m with
  | [] => None
  | (k, g) :: m' => if streq k key then Some g else map_get key m'
  end.

(** [groupsMap.set(key, g)]: the entry of a key that is there keeps its
    place. *)
Fixpoint map_set (key : jsstring) (g : Group) (m : GroupsMap) : GroupsMap :=
  match m with
  | [] => [(key, g)]
  | (k, g0) :: m' =>
    if streq k key then (k, g) :: m' else (k, g0) :: map_set key g m'
  end.

(** One turn of the loop over the items. *)
Definition group_step (groupsMap : GroupsMap) (it : IndexRecord) : GroupsMap :=
  let key := source it in
  let g := match map_get key groupsMap with
           | Some g => g
           | None => {| g_source := key; g_type := type it; count := 0 |}
           end in
  map_set key {| g_source := g_source g; g_type := g_type g;
                 count := count g + 1 |} groupsMap.

(** The handler of [app.get('/api/admin/items', requireAdmin, ...)];
    [localeCompare a b] is [a.localeCompare(b)], taken as it comes. *)
Definition list_items (localeCompare : jsstring -> jsstring -> float)
    (its : list IndexRecord) : Items :=
  let groupsMap := fold_left group_step its [] in
  let groups := sort (fun a b => localeCompare (g_source a) (g_source b))
                     (map snd groupsMap) in
  {| total := len its; groups := groups |}.

End Listing.

(** ** The ingest script ([main]) *)

Module Ingest.

(** [const BATCH = 64] *)
Definition BATCH : Z := 64.

Section Script.

Variable svc : Services.

(** The records of one source as [main] pushes them, before they have an
    embedding ([chunks.forEach((c, idx) => items.push(...))]). *)
Definition pending_records (prefix src : jsstring) (k : SourceKind)
    (chunks : list jsstring) : list IndexRecord :=
  new_records prefix src k chunks [].

(** One turn of the loop over the URLs: a URL that fails is logged and
    skipped. *)
Definition ingest_url (items_so_far : list IndexRecord) (u : jsstring)
  : M (list IndexRecord) :=
  try_catch
    (text <- fetchText svc u ;;
     ret (items_so_far ++ pending_records (str "url:" ++ u) u url (chunkText text)))
    (fun _ => ret items_so_far).

(** One turn of the loop over the local files. *)
Definition ingest_file (items_so_far : list IndexRecord)
    (f : jsstring * list N) : M (list IndexRecord) :=
  let '(name, buf) := f in
  try_catch
    (text <- readTextFromBuffer svc buf name ;;
     ret (items_so_far
          ++ pending_records (str "file:" ++ name) name file (chunkText text)))
    (fun _ => ret items_so_far).

(** [slice[j].embedding = embeddings[j]], for the records of a batch.  As
    in [new_records], the empty vector stands for the [undefined] of an
    answer that has fewer vectors than the batch has records. *)
Definition assign (slice : list IndexRecord) (embeddings : list vector)
  : list IndexRecord :=
  map (fun '(j, s) => {| id := id s; source := source s; type := type s;
                         text := text s; embedding := nth j embeddings [] |})
      (combine (seq 0 (length slice)) slice).

(** The loop [for (let i = 0; i < items.length; i += BATCH)]: the records
    of the batch are records of [items], which the assignment changes in
    place. *)
Fixpoint batch_loop (fuel : nat) (items : list IndexRecord) (i : Z)
  : M (list IndexRecord) :=
  match fuel with
  | O => ret items
  | S fuel' =>
    if i <? len items then
      let slice := JS.slice items i (i + BATCH) in
      embeddings <- embed svc (map text slice) ;;
      batch_loop fuel'
        (JS.slice items 0 i ++ assign slice embeddings
         ++ JS.slice items (i + BATCH) (len items))
        (i + BATCH)
    else ret items
  end.

(** [fs.writeFileSync(INDEX_PATH, JSON.stringify(index, null, 2))]: the
    file is the one that the server loads and saves. *)
Definition writeIndex (its : list IndexRecord) : M unit :=
  fun w => (Return tt, {| INDEX := INDEX w;
                          saved := {| items := its |};
                          calls := calls w |}).

(** [main()]: what it reads from the disk is given, as for a rebuild.  The
    loop over the batches ends within [items.length] turns. *)
Definition main (urls : list jsstring) (files : list (jsstring * list N))
  : M unit :=
  items <- for_each ingest_url urls [] ;;
  items <- for_each ingest_file files items ;;
  match items with
  | [] => ret tt
  | _ :: _ =>
    items <- batch_loop (S (length items)) items 0 ;;
    writeIndex items
  end.

End Script.

End Ingest.

(** * Properties of the chunker *)

Local Open Scope Z_scope.

Section ChunkerFacts.

(** [ceil (a / b)] for a positive [b]. *)
Definition ceil_div (a b : Z) : Z := (a + b - 1) / b.

Lemma ceil_div_bounds a b :
  0 < b -> (ceil_div a b - 1) * b < a <= ceil_div a b * b.
Proof.
  intros Hb. unfold ceil_div.
  pose proof (Z.div_mod (a + b - 1) b ltac:(lia)) as E.
  pose proof (Z.mod_pos_bound (a + b - 1) b Hb) as B.
  nia.
Qed.

Lemma ceil_div_unique a b q :
  0 < b -> (q - 1) * b < a <= q * b -> q = ceil_div a b.
Proof.
  intros Hb Hq. pose proof (ceil_div_bounds a b Hb). nia.
Qed.

Lemma ceil_div_nonpos a b : 0 < b -> a <= 0 -> ceil_div a b <= 0.
Proof.
  intros Hb Ha. pose proof (ceil_div_bounds a b Hb). nia.
Qed.

Lemma ceil_div_pos a b : 0 < b -> 0 < a -> 0 < ceil_div a b.
Proof.
  intros Hb Ha. pose proof (ceil_div_bounds a b Hb). nia.
Qed.

Lemma ceil_div_step a b : 0 < b -> ceil_div (a - b) b = ceil_div a b - 1.
Proof.
  intros Hb. symmetry. apply ceil_div_unique; [lia|].
  pose proof (ceil_div_bounds a b Hb). nia.
Qed.

(** The chunks pushed by [n] turns of the loop that start at [i]. *)
Fixpoint windows (n : nat) (text : jsstring) (size overlap i : Z) : list jsstring :=
  match n with
  | O => []
  | S n' => slice text i (Z.min (len text) (i + size))
              :: windows n' text size overlap (i + (size - overlap))
  end.

Lemma length_windows n text size overlap i :
  length (windows n text size overlap i) = n.
Proof.
  revert i. induction n as [|n IH]; intros i; simpl; [reflexivity|].
  now rewrite IH.
Qed.

(** With a positive step the loop makes [ceil ((L - i) / step)] turns and
    returns; any fuel above that number will do. *)
Lemma chunk_loop_windows n : forall fuel text size overlap i acc,
  0 < size - overlap ->
  Z.of_nat n = Z.max 0 (ceil_div (len text - i) (size - overlap)) ->
  (n < fuel)%nat ->
  chunk_loop fuel text size overlap i acc
  = Some (acc ++ windows n text size overlap i).
Proof.
  induction n as [|n IH]; intros fuel text size overlap i acc Hstep Hn Hfuel.
  - destruct fuel as [|fuel]; [lia|]. simpl.
    assert (len text - i <= 0) as Hle.
    { destruct (Z_le_gt_dec (len text - i) 0) as [|Hgt]; [assumption|].
      pose proof (ceil_div_pos (len text - i) _ Hstep ltac:(lia)). lia. }
    replace (i <? len text) with false by (symmetry; apply Z.ltb_ge; lia).
    now rewrite app_nil_r.
  - destruct fuel as [|fuel]; [lia|]. simpl.
    assert (0 < len text - i) as Hlt.
    { destruct (Z_le_gt_dec (len text - i) 0) as [Hle|]; [|lia].
      pose proof (ceil_div_nonpos (len text - i) _ Hstep Hle). lia. }
    replace (i <? len text) with true by (symmetry; apply Z.ltb_lt; lia).
    rewrite (IH fuel text size overlap _ _ Hstep).
    + now rewrite <- app_assoc.
    + replace (len text - (i + (size - overlap)))
        with ((len text - i) - (size - overlap)) by lia.
      rewrite ceil_div_step by assumption. lia.
    + lia.
Qed.


Lemma chunk_loop_fuel_mono fuel : forall fuel' text size overlap i acc r,
  chunk_loop fuel text size overlap i acc = Some r ->
  (fuel <= fuel')%nat ->
  chunk_loop fuel' text size overlap i acc = Some r.
Proof.
  induction fuel as [|fuel IH]; intros fuel' text size overlap i acc r H Hle;
    simpl in H; [discriminate|].
  destruct fuel' as [|fuel']; [lia|]. simpl.
  destruct (i <? len text); [|assumption].
  apply IH; [assumption|lia].
Qed.

(** [chunkText] returns at most one result. *)
Lemma chunkText_returns_fun text size overlap c1 c2 :
  chunkText_returns text size overlap c1 ->
  chunkText_returns text size overlap c2 -> c1 = c2.
Proof.
  intros [f1 H1] [f2 H2]. unfold chunkText_fuel in *.
  apply (chunk_loop_fuel_mono _ (Nat.max f1 f2)) in H1; [|lia].
  apply (chunk_loop_fuel_mono _ (Nat.max f1 f2)) in H2; [|lia].
  congruence.
Qed.

(** The number of chunks for a text of length [L] and a step [size - overlap]. *)
Definition chunk_count (L size overlap : Z) : nat :=
  Z.to_nat (ceil_div L (size - overlap)).

Lemma chunkText_fuel_windows text size overlap fuel :
  overlap < size ->
  (chunk_count (len text) size overlap < fuel)%nat ->
  chunkText_fuel fuel text size overlap
  = Some (windows (chunk_count (len text) size overlap) text size overlap 0).
Proof.
  intros Hlt Hfuel. unfold chunkText_fuel.
  rewrite (chunk_loop_windows (chunk_count (len text) size overlap));
    [reflexivity|lia| |assumption].
  unfold chunk_count. rewrite Z.sub_0_r. lia.
Qed.

Lemma chunkText_returns_windows text size overlap :
  overlap < size ->
  chunkText_returns text size overlap
    (windows (chunk_count (len text) size overlap) text size overlap 0).
Proof.
  intros Hlt. exists (S (chunk_count (len text) size overlap)).
  apply chunkText_fuel_windows; [assumption|lia].
Qed.

End ChunkerFacts.

Section WindowFacts.

Variable text : jsstring.
Variables size overlap : nat.
Hypothesis overlap_lt_size : (overlap < size)%nat.

Let step := (size - overlap)%nat.

(** The window of [size] code units that starts at position [a]. *)
Definition window_at (a : nat) : jsstring := firstn size (skipn a text).

Lemma slice_window (a : nat) :
  (a <= length text)%nat ->
  slice text (Z.of_nat a) (Z.min (len text) (Z.of_nat a + Z.of_nat size))
  = window_at a.
Proof.
  intros Ha. unfold slice, rel_index, window_at, len.
  replace (Z.of_nat a <? 0) with false by (symmetry; apply Z.ltb_ge; lia).
  replace (Z.min (Z.of_nat (length text)) (Z.of_nat a + Z.of_nat size) <? 0)
    with false by (symmetry; apply Z.ltb_ge; lia).
  replace (Z.to_nat (Z.min (Z.of_nat a) (Z.of_nat (length text)))) with a by lia.
  set (n := Z.to_nat _).
  assert (n = Nat.min size (length (skipn a text))) as ->.
  { subst n. rewrite length_skipn. lia. }
  rewrite Nat.min_comm. 
  destruct (Nat.le_ge_cases size (length (skipn a text))) as [H|H].
  - now rewrite Nat.min_r.
  - rewrite Nat.min_l by assumption.
    rewrite !firstn_all2; [reflexivity|lia|lia].
Qed.

Lemma windows_window_at n : forall a,
  (forall j, (j < n)%nat -> (a + j * step <= length text)%nat) ->
  windows n text (Z.of_nat size) (Z.of_nat overlap) (Z.of_nat a)
  = map (fun j => window_at (a + j * step)) (seq 0 n).
Proof.
  induction n as [|n IH]; intros a Hin; [reflexivity|].
  cbn [windows seq map]. f_equal.
  - rewrite slice_window; [|specialize (Hin O); lia].
    f_equal. lia.
  - replace (Z.of_nat a + (Z.of_nat size - Z.of_nat overlap))
      with (Z.of_nat (a + step)) by (subst step; lia).
    rewrite IH.
    + rewrite <- seq_shift, map_map. apply map_ext. intros j. f_equal. lia.
    + intros j Hj. specialize (Hin (S j)). lia.
Qed.

(** The number of chunks, as a natural number. *)
Definition count : nat :=
  chunk_count (len text) (Z.of_nat size) (Z.of_nat overlap).

Lemma count_bounds :
  (forall j, (j < count)%nat -> (j * step < length text)%nat)
  /\ (length text <= count * step)%nat.
Proof.
  unfold count, chunk_count.
  assert (0 < Z.of_nat size - Z.of_nat overlap) as Hs by lia.
  pose proof (ceil_div_bounds (len text) _ Hs) as B.
  set (q := ceil_div _ _) in *.
  assert (Z.of_nat size - Z.of_nat overlap = Z.of_nat step) as E by (subst step; lia).
  rewrite E in B. unfold len in B.
  split.
  - intros j Hj. apply Nat2Z.inj_lt. nia.
  - apply Nat2Z.inj_le. destruct (Z_le_gt_dec q 0); nia.
Qed.

Definition chunks : list jsstring :=
  map (fun j => window_at (j * step)) (seq 0 count).

Lemma windows_chunks :
  windows count text (Z.of_nat size) (Z.of_nat overlap) 0 = chunks.
Proof.
  change 0 with (Z.of_nat 0).
  rewrite windows_window_at; [reflexivity|].
  intros j Hj. apply Nat.lt_le_incl, count_bounds. assumption.
Qed.

Lemma chunkText_returns_chunks :
  chunkText_returns text (Z.of_nat size) (Z.of_nat overlap) chunks.
Proof.
  rewrite <- windows_chunks.
  apply chunkText_returns_windows. lia.
Qed.

Lemma length_chunks : length chunks = count.
Proof. unfold chunks. now rewrite length_map, length_seq. Qed.

Lemma nth_error_chunks j :
  (j < count)%nat -> nth_error chunks j = Some (window_at (j * step)).
Proof.
  intros Hj. unfold chunks.
  rewrite nth_error_map, nth_error_seq.
  destruct (Nat.ltb_spec j count); [reflexivity|lia].
Qed.

Lemma length_window_at a :
  length (window_at a) = Nat.min size (length text - a).
Proof. unfold window_at. now rewrite length_firstn, length_skipn. Qed.

End WindowFacts.

Local Open Scope nat_scope.

Section Overlaps.

Variable text : jsstring.
Variables size overlap : nat.
Hypothesis overlap_lt_size : overlap < size.

Let step := size - overlap.

(** A full window and the chunk after it: the last [overlap] code units of
    the first are the first [overlap] code units of the second. *)
Lemma window_overlap a :
  a + size <= length text ->
  skipn step (window_at text size a)
  = firstn overlap (window_at text size (a + step))
  /\ length (firstn overlap (window_at text size (a + step))) = overlap.
Proof.
  intros Hfull. unfold window_at. split.
  - rewrite skipn_firstn_comm, skipn_skipn, firstn_firstn.
    replace (size - step) with overlap by (subst step; lia).
    replace (Nat.min overlap size) with overlap by lia.
    now rewrite (Nat.add_comm step a).
  - rewrite firstn_firstn, length_firstn, length_skipn. subst step. lia.
Qed.

(** Pieces of [step] code units laid end to end. *)
Lemma concat_pieces n : forall a,
  concat (map (fun j => firstn step (skipn (a + j * step) text)) (seq 0 n))
  = firstn (n * step) (skipn a text).
Proof.
  induction n as [|n IH]; intros a; [reflexivity|].
  cbn [seq map concat].
  rewrite <- seq_shift, map_map.
  rewrite (map_ext _ (fun j => firstn step (skipn ((a + step) + j * step) text))).
  2:{ intros j. do 2 f_equal. lia. }
  rewrite IH. replace (a + 0 * step) with a by lia.
  replace (S n * step) with (step + n * step) by lia.
  rewrite <- (firstn_skipn step (firstn (step + n * step) (skipn a text))).
  rewrite firstn_firstn. replace (Nat.min step (step + n * step)) with step by lia.
  f_equal.
  rewrite skipn_firstn_comm, skipn_skipn.
  f_equal; [lia|]. f_equal. lia.
Qed.

Lemma chunks_reconstruct :
  hd [] (chunks text size overlap)
  ++ concat (map (skipn overlap) (tl (chunks text size overlap))) = text.
Proof.
  pose proof (count_bounds text size overlap overlap_lt_size) as [_ Hcover].
  unfold chunks. fold step in Hcover |- *.
  destruct (count text size overlap) as [|n]; cbn [seq map hd tl].
  - destruct text; [reflexivity|simpl in Hcover; lia].
  - rewrite <- seq_shift, !map_map.
    rewrite (map_ext _ (fun j => firstn step (skipn (size + j * step) text))).
    2:{ intros j. unfold window_at. rewrite skipn_firstn_comm, skipn_skipn.
        f_equal. f_equal. subst step. lia. }
    rewrite concat_pieces. unfold window_at. simpl skipn.
    rewrite <- (firstn_skipn size text) at 3.
    f_equal. apply firstn_all2. rewrite length_skipn.
    assert (step <= size) by (subst step; lia). lia.
Qed.

Lemma chunks_cover p :
  p < length text ->
  exists j c, nth_error (chunks text size overlap) j = Some c
    /\ j * step <= p < j * step + length c
    /\ nth_error c (p - j * step) = nth_error text p.
Proof.
  intros Hp.
  pose proof (count_bounds text size overlap overlap_lt_size) as [_ Hcover].
  fold step in Hcover.
  assert (0 < step) as Hstep by (subst step; lia).
  set (j := p / step).
  assert (j * step <= p < j * step + step) as Hj.
  { subst j. pose proof (Nat.div_mod_eq p step).
    pose proof (Nat.mod_upper_bound p step ltac:(lia)). lia. }
  assert (j < count text size overlap) as Hjn.
  { destruct (Nat.lt_ge_cases j (count text size overlap)); [assumption|]. nia. }
  exists j, (window_at text size (j * step)). split; [|split].
  - apply nth_error_chunks; assumption.
  - rewrite length_window_at. subst step. lia.
  - unfold window_at. rewrite nth_error_firstn.
    destruct (Nat.ltb_spec (p - j * step) size); [|subst step; lia].
    rewrite nth_error_skipn. f_equal. lia.
Qed.

(** With [2 * overlap <= size + 1] a chunk that has two chunks after it
    is a full window. *)
Lemma chunks_full j :
  2 * overlap <= size + 1 ->
  S (S j) < count text size overlap ->
  j * step + size <= length text.
Proof.
  intros Hmod Hj.
  pose proof (count_bounds text size overlap overlap_lt_size) as [Hlt _].
  specialize (Hlt (S (S j)) Hj). fold step in Hlt.
  assert (size <= 2 * step + 1) by (subst step; lia). lia.
Qed.

End Overlaps.

Local Close Scope nat_scope.
Local Open Scope Z_scope.

(** [chunkText(text)] with the defaults is the list of windows of 800 code
    units taken every 600. *)
Lemma chunkText_default text :
  chunkText text = chunks text 800 200.
Proof.
  unfold chunkText.
  rewrite chunkText_fuel_windows; [|lia|].
  - apply (windows_chunks text 800 200). lia.
  - unfold chunk_count.
    pose proof (ceil_div_bounds (len text) (800 - 200) ltac:(lia)) as B.
    unfold len in *. lia.
Qed.

(** The count that the specification's formula gives. *)
Definition spec_chunk_count (L S O : Z) : Z :=
  if L =? 0 then 0
  else if L <=? O then 1
  else ceil_div (L - O) (S - O).

(** C2, as stated, fails: with the defaults a text of 700 code units is cut
    into two chunks (the windows at 0 and at 600), where the formula
    [ceil ((L - O) / (S - O))] gives one. *)
Lemma chunkText_count_not_spec :
  exists chunks,
    chunkText_returns (repeat 97%N 700) 800 200 chunks
    /\ len chunks = 2
    /\ spec_chunk_count 700 800 200 = 1.
Proof.
  eexists. split; [|split].
  - exists 3%nat. vm_compute. reflexivity.
  - reflexivity.
  - reflexivity.
Qed.

(** C2, amended: for a text of length [L] and [overlap < size],
    [chunkText] returns [ceil (L / (size - overlap))] chunks, which is 0
    for the empty text. *)
Theorem chunkText_count (text : jsstring) (size overlap : Z) :
  overlap < size ->
  exists chunks,
    chunkText_returns text size overlap chunks
    /\ len chunks = ceil_div (len text) (size - overlap)
    /\ (len chunks - 1) * (size - overlap) < len text
                                            <= len chunks * (size - overlap).
Proof.
  intros Hlt.
  exists (windows (chunk_count (len text) size overlap) text size overlap 0).
  split; [now apply chunkText_returns_windows|].
  assert (len (windows (chunk_count (len text) size overlap) text size overlap 0)
          = ceil_div (len text) (size - overlap)) as E.
  { unfold len at 1. rewrite length_windows. unfold chunk_count.
    pose proof (ceil_div_bounds (len text) (size - overlap) ltac:(lia)) as B.
    unfold len in *. nia. }
  split; [exact E|]. rewrite E. apply ceil_div_bounds. lia.
Qed.

Lemma chunkText_count_witness :
  exists chunks,
    chunkText_returns [97; 98; 99]%N 3 1 chunks
    /\ len chunks = ceil_div (len [97; 98; 99]%N) (3 - 1)
    /\ (len chunks - 1) * (3 - 1) < len [97; 98; 99]%N <= len chunks * (3 - 1).
Proof. apply (chunkText_count [97; 98; 99]%N 3 1). lia. Defined.


Lemma chunk_loop_extends fuel : forall text size overlap i acc chunks,
  chunk_loop fuel text size overlap i acc = Some chunks ->
  exists rest, chunks = acc ++ rest.
Proof.
  induction fuel as [|fuel IH]; intros text size overlap i acc chunks H;
    cbn [chunk_loop] in H; [discriminate|].
  destruct (i <? len text).
  - destruct (IH _ _ _ _ _ _ H) as [rest ->].
    rewrite <- app_assoc. now eexists.
  - exists []. rewrite app_nil_r. congruence.
Qed.

(** As long as the array has room, the loop with a bounded array is the
    loop: what one returns, the other returns. *)
Lemma chunk_loop_limited_agrees max_length fuel :
  forall text size overlap i acc chunks,
    chunk_loop fuel text size overlap i acc = Some chunks ->
    (length chunks <= max_length)%nat ->
    chunk_loop_limited max_length fuel text size overlap i acc
    = Some (Returns chunks).
Proof.
  induction fuel as [|fuel IH]; intros text size overlap i acc chunks H Hl;
    cbn [chunk_loop chunk_loop_limited] in *; [discriminate|].
  destruct (i <? len text) eqn:Ei; [|congruence].
  assert (length acc < length chunks)%nat as Hacc.
  { destruct (chunk_loop_extends _ _ _ _ _ _ _ H) as [rest ->].
    rewrite !length_app. cbn [length]. lia. }
  replace (length acc <? max_length)%nat with true
    by (symmetry; apply Nat.ltb_lt; lia).
  now apply IH.
Qed.




(** The reading of C8's middle clause: two consecutive chunks of which the
    second is not the last one share [overlap] code units, the end of the
    first being the start of the second. *)
Definition overlap_except_last (overlap : nat) (chunks : list jsstring) : Prop :=
  forall j c c',
    (S (S j) < length chunks)%nat ->
    nth_error chunks j = Some c ->
    nth_error chunks (S j) = Some c' ->
    (overlap <= length c)%nat /\ (overlap <= length c')%nat
    /\ skipn (length c - overlap) c = firstn overlap c'.

(** C8, as stated, fails: with [size = 4] and [overlap = 3] the text
    [abcd] gives [abcd], [bcd], [cd], [d]; the second and the third chunk,
    neither of which is the last, share two code units, not three. *)
Lemma chunkText_overlap_not_exact :
  exists chunks,
    chunkText_returns [97; 98; 99; 100]%N 4 3 chunks
    /\ chunks = [[97; 98; 99; 100]; [98; 99; 100]; [99; 100]; [100]]%N
    /\ ~ overlap_except_last 3 chunks.
Proof.
  eexists. split; [|split].
  - exists 5%nat. vm_compute. reflexivity.
  - reflexivity.
  - intros H. specialize (H 1%nat _ _ ltac:(simpl; lia) eq_refl eq_refl).
    simpl in H. lia.
Qed.

(** C8, amended: for [0 <= overlap < size], [chunkText] returns chunks
    such that
    - the [j]-th chunk is the window of [size] code units that starts at
      [j * (size - overlap)], so each chunk starts [size - overlap] after
      the previous one;
    - a chunk that is a full window shares exactly [overlap] code units
      with the next one: its last [overlap] code units are the first
      [overlap] of the next, and it ends [overlap] positions after the
      next one starts;
    - when [2 * overlap <= size + 1] (so with the defaults 800 and 200)
      every chunk that has two chunks after it is a full window;
    - every position of the text lies in some chunk;
    - the first chunk followed by the other chunks without their first
      [overlap] code units is the text. *)
Theorem chunkText_windows (text : jsstring) (size overlap : nat) :
  (overlap < size)%nat ->
  exists chunks,
    chunkText_returns text (Z.of_nat size) (Z.of_nat overlap) chunks
    /\ (forall j, (j < length chunks)%nat ->
          nth_error chunks j
          = Some (firstn size (skipn (j * (size - overlap)) text)))
    /\ (forall j c c',
          nth_error chunks j = Some c ->
          nth_error chunks (S j) = Some c' ->
          length c = size ->
          skipn (size - overlap) c = firstn overlap c'
          /\ length (firstn overlap c') = overlap
          /\ (j * (size - overlap) + length c
              = S j * (size - overlap) + overlap)%nat)
    /\ ((2 * overlap <= size + 1)%nat ->
        forall j c,
          (S (S j) < length chunks)%nat ->
          nth_error chunks j = Some c -> length c = size)
    /\ (forall p, (p < length text)%nat ->
          exists j c,
            nth_error chunks j = Some c
            /\ (j * (size - overlap) <= p < j * (size - overlap) + length c)%nat
            /\ nth_error c (p - j * (size - overlap)) = nth_error text p)
    /\ hd [] chunks ++ concat (map (skipn overlap) (tl chunks)) = text.
Proof.
  intros Hlt. exists (chunks text size overlap).
  pose proof (length_chunks text size overlap) as Hlen.
  assert (forall j c, nth_error (chunks text size overlap) j = Some c ->
            (j < count text size overlap)%nat
            /\ c = window_at text size (j * (size - overlap))) as Hnth.
  { intros j c Hj.
    assert (j < count text size overlap)%nat as Hjn.
    { rewrite <- Hlen. apply nth_error_Some. congruence. }
    split; [assumption|].
    rewrite nth_error_chunks in Hj by assumption. congruence. }
  split; [now apply chunkText_returns_chunks|].
  split; [|split; [|split; [|split]]].
  - intros j Hj. rewrite Hlen in Hj. now apply nth_error_chunks.
  - intros j c c' Hc Hc' Hfull.
    apply Hnth in Hc as [Hj ->]. apply Hnth in Hc' as [Hj' ->].
    rewrite length_window_at in Hfull.
    pose proof (proj1 (count_bounds text size overlap Hlt) _ Hj').
    assert (j * (size - overlap) + size <= length text)%nat as Hin by lia.
    replace (S j * (size - overlap))%nat
      with (j * (size - overlap) + (size - overlap))%nat by lia.
    pose proof (window_overlap text size overlap Hlt _ Hin) as [E1 E2].
    rewrite length_window_at. repeat split; [assumption|assumption|lia].
  - intros Hmod j c Hj Hc. apply Hnth in Hc as [_ ->].
    rewrite Hlen in Hj.
    pose proof (chunks_full text size overlap Hlt j Hmod Hj).
    rewrite length_window_at. lia.
  - intros p Hp. now apply chunks_cover.
  - now apply chunks_reconstruct.
Qed.

Lemma chunkText_windows_witness :
  exists chunks,
    chunkText_returns [97; 98; 99; 100; 101]%N 3 1 chunks
    /\ (forall j, (j < length chunks)%nat ->
          nth_error chunks j
          = Some (firstn 3 (skipn (j * 2) [97; 98; 99; 100; 101]%N)))
    /\ (forall j c c',
          nth_error chunks j = Some c ->
          nth_error chunks (S j) = Some c' ->
          length c = 3%nat ->
          skipn 2 c = firstn 1 c'
          /\ length (firstn 1 c') = 1%nat
          /\ (j * 2 + length c = S j * 2 + 1)%nat)
    /\ ((2 * 1 <= 3 + 1)%nat ->
        forall j c,
          (S (S j) < length chunks)%nat ->
          nth_error chunks j = Some c -> length c = 3%nat)
    /\ (forall p, (p < 5)%nat ->
          exists j c,
            nth_error chunks j = Some c
            /\ (j * 2 <= p < j * 2 + length c)%nat
            /\ nth_error c (p - j * 2) = nth_error [97; 98; 99; 100; 101]%N p)
    /\ hd [] chunks ++ concat (map (skipn 1) (tl chunks))
       = [97; 98; 99; 100; 101]%N.
Proof. apply (chunkText_windows [97; 98; 99; 100; 101]%N 3 1). lia. Defined.

Local Open Scope Z_scope.

(** * Properties of strings *)

Lemma streq_true_iff (a b : jsstring) : streq a b = true <-> a = b.
Proof.
  revert b. induction a as [|c a IH]; intros [|d b]; simpl;
    try (split; [discriminate|congruence]); [tauto|].
  rewrite andb_true_iff, N.eqb_eq, IH. split.
  - now intros [-> ->].
  - intros E. now inversion E.
Qed.

Lemma streq_false_iff (a b : jsstring) : streq a b = false <-> a <> b.
Proof.
  rewrite <- streq_true_iff. destruct (streq a b); split; congruence.
Qed.

Lemma startsWith_true_iff (s p : jsstring) :
  startsWith s p = true <-> exists r, s = p ++ r.
Proof.
  revert s. induction p as [|c p IH]; intros s; simpl.
  - destruct s; (split; [intros _; eexists; reflexivity|reflexivity]).
  - destruct s as [|d s]; simpl.
    + split; [discriminate|]. intros [r E]. discriminate.
    + rewrite andb_true_iff, N.eqb_eq, IH. split.
      * intros [-> [r ->]]. now exists r.
      * intros [r E]. inversion E. split; [reflexivity|]. now exists r.
Qed.

(** [s.slice(n)] of a string that has at least [n] code units. *)
Lemma slice_from_app (p r : jsstring) :
  slice (p ++ r) (len p) (len (p ++ r)) = r.
Proof.
  unfold slice, rel_index, len.
  replace (Z.of_nat (length p) <? 0) with false by (symmetry; apply Z.ltb_ge; lia).
  replace (Z.of_nat (length (p ++ r)) <? 0) with false
    by (symmetry; apply Z.ltb_ge; lia).
  rewrite length_app.
  replace (Z.to_nat (Z.min (Z.of_nat (length p)) (Z.of_nat (length p + length r))))
    with (length p) by lia.
  rewrite skipn_app, skipn_all, Nat.sub_diag. simpl.
  apply firstn_all2. lia.
Qed.

(** * Authentication *)

(** The header carries the configured token: it is [Bearer ] followed by
    the token. *)
Definition carries_token (cfg : Config) (authorization : option jsstring) : Prop :=
  authorization = Some (str "Bearer " ++ ADMIN_TOKEN cfg).

Lemma requireAdmin_next cfg authorization :
  ADMIN_TOKEN cfg <> [] ->
  requireAdmin cfg authorization = Next -> carries_token cfg authorization.
Proof.
  intros Htok. unfold requireAdmin, carries_token.
  destruct (ADMIN_TOKEN cfg) as [|t0 tok] eqn:Etok; [congruence|].
  set (auth := match authorization with Some (c :: a) => c :: a | _ => [] end).
  destruct (startsWith auth (str "Bearer ")) eqn:Esw.
  - apply startsWith_true_iff in Esw as [r Er].
    destruct (negb (streq _ _)) eqn:Eeq; [discriminate|]. intros _.
    apply negb_false_iff, streq_true_iff in Eeq.
    rewrite Er in Eeq.
    change 7 with (len (str "Bearer ")) in Eeq.
    rewrite slice_from_app in Eeq. subst r.
    subst auth. destruct authorization as [[|c a]|]; try discriminate.
    now rewrite Er.
  - simpl. discriminate.
Qed.

(** X1: with a token configured, a request to an administration route
    whose [Authorization] header is not [Bearer ] followed by that token
    is answered 401 [unauthorized]; the handler of the route is not run,
    whatever it is, and the world is left as it was. *)
Theorem requireAdmin_unauthorized (cfg : Config)
    (authorization : option jsstring) (handler : M Response) (w : World) :
  ADMIN_TOKEN cfg <> [] ->
  ~ carries_token cfg authorization ->
  requireAdmin cfg authorization
  = Respond (status_json 401 (Error (str "unauthorized")))
  /\ admin_route cfg authorization handler w
     = (Return (status_json 401 (Error (str "unauthorized"))), w).
Proof.
  intros Htok Hno.
  assert (requireAdmin cfg authorization
          = Respond (status_json 401 (Error (str "unauthorized")))) as E.
  { pose proof (requireAdmin_next cfg authorization Htok) as Hnext.
    unfold requireAdmin in *.
    destruct (ADMIN_TOKEN cfg) as [|t0 tok]; [congruence|].
    destruct (negb (streq _ _)); [reflexivity|]. tauto. }
  split; [exact E|]. unfold admin_route. now rewrite E.
Qed.

Definition sample_world : World :=
  {| INDEX := {| items := [] |}; saved := {| items := [] |}; calls := [] |}.

Definition sample_config : Config :=
  {| MIN_TOP_SIM := 0.78; MIN_AVG_TOP3 := 0.72; ADMIN_TOKEN := str "s3cret" |}.

Lemma requireAdmin_unauthorized_witness :
  requireAdmin sample_config (Some (str "Bearer guess"))
  = Respond (status_json 401 (Error (str "unauthorized")))
  /\ admin_route sample_config (Some (str "Bearer guess"))
       (fun w => (Throw (str "reached"), w)) sample_world
     = (Return (status_json 401 (Error (str "unauthorized"))), sample_world).
Proof.
  apply (requireAdmin_unauthorized sample_config (Some (str "Bearer guess"))).
  - discriminate.
  - unfold carries_token. vm_compute. discriminate.
Defined.

(** The converse, for completeness: the right header lets the request through. *)
Lemma requireAdmin_authorized cfg :
  ADMIN_TOKEN cfg <> [] ->
  requireAdmin cfg (Some (str "Bearer " ++ ADMIN_TOKEN cfg)) = Next.
Proof.
  intros Htok. unfold requireAdmin.
  destruct (ADMIN_TOKEN cfg) as [|t0 tok] eqn:E; [congruence|].
  change (str "Bearer " ++ t0 :: tok) with (66%N :: skipn 1 (str "Bearer ") ++ t0 :: tok).
  cbv match beta.
  change (66%N :: skipn 1 (str "Bearer ") ++ t0 :: tok) with (str "Bearer " ++ t0 :: tok).
  assert (startsWith (str "Bearer " ++ t0 :: tok) (str "Bearer ") = true) as ->.
  { apply startsWith_true_iff. now eexists. }
  change 7 with (len (str "Bearer ")).
  rewrite slice_from_app.
  assert (streq (t0 :: tok) (t0 :: tok) = true) as ->; [|reflexivity].
  now apply streq_true_iff.
Qed.

Local Open Scope Z_scope.

(** * The sort and the top K *)

Section SortFacts.
Context {A : Type} (comparefn : A -> A -> float).

Lemma insert_perm x l : Permutation (x :: l) (insert comparefn x l).
Proof.
  induction l as [|y l IH]; simpl; [reflexivity|].
  destruct (0 <? comparefn x y)%float; [|reflexivity].
  rewrite perm_swap. now apply perm_skip.
Qed.

Lemma sort_perm l : Permutation l (sort comparefn l).
Proof.
  induction l as [|x l IH]; simpl; [reflexivity|].
  rewrite <- insert_perm. now apply perm_skip.
Qed.

Lemma length_sort l : length (sort comparefn l) = length l.
Proof. symmetry. apply Permutation_length, sort_perm. Qed.

End SortFacts.

(** [a.slice(0, n)] keeps the first [n] elements. *)
Lemma slice_0 {A} (l : list A) (n : Z) :
  0 <= n -> slice l 0 n = firstn (Z.to_nat n) l.
Proof.
  intros Hn. unfold slice, rel_index, len. simpl (0 <? 0).
  replace (n <? 0) with false by (symmetry; apply Z.ltb_ge; lia).
  replace (Z.min 0 (Z.of_nat (length l))) with 0 by lia.
  simpl skipn. rewrite Z.sub_0_r.
  destruct (Z_le_gt_dec n (Z.of_nat (length l))).
  - now rewrite Z.min_l.
  - rewrite Z.min_r by lia. rewrite Nat2Z.id.
    rewrite !firstn_all2; [reflexivity|lia|lia].
Qed.

(** The scored items, before the sort. *)
Definition scored_items (its : list IndexRecord) (qEmb : vector) : list Scored :=
  map (fun it => {| item := it; score := cosine qEmb (embedding it) |}) its.

Lemma topKByCosine_firstn its qEmb k :
  0 <= k ->
  topKByCosine its qEmb k
  = firstn (Z.to_nat k)
      (sort (fun a b => (score b - score a)%float) (scored_items its qEmb)).
Proof.
  intros Hk. unfold topKByCosine. fold (scored_items its qEmb).
  rewrite slice_0 by (unfold len; lia).
  set (l := sort _ _).
  destruct (Z_le_gt_dec k (len l)).
  - now rewrite Z.min_l.
  - rewrite Z.min_r by lia. unfold len in *.
    rewrite !firstn_all2; [reflexivity|lia|lia].
Qed.

Lemma length_topKByCosine its qEmb k :
  0 <= k ->
  length (topKByCosine its qEmb k) = Nat.min (Z.to_nat k) (length its).
Proof.
  intros Hk. rewrite topKByCosine_firstn by assumption.
  rewrite length_firstn, length_sort. unfold scored_items.
  now rewrite length_map.
Qed.

(** * The chat route *)

Lemma chat_eq_no_index cfg svc message w :
  message <> [] ->
  items (INDEX w) = [] ->
  chat cfg svc (VString message) w
  = (Return (status_json 400
       (Error (str "No index found. Use admin panel to add resources."))), w).
Proof.
  intros Hm Hi. unfold chat, try_catch, bind, get_items.
  destruct message as [|c m]; [congruence|].
  cbn [truthy is_string negb orb]. now rewrite Hi.
Qed.

(** X2: While the index holds no item, a request with a valid message (a
    string that is not empty) is answered 400 with an error message; the
    world it leaves is the world it found: no item, nothing saved and no
    outside call, that to the embedding service included. *)
Theorem chat_empty_index (cfg : Config) (svc : Services)
    (message : jsstring) (w : World) :
  message <> [] ->
  items (INDEX w) = [] ->
  let result := chat cfg svc (VString message) w in
  fst result
  = Return (status_json 400
      (Error (str "No index found. Use admin panel to add resources.")))
  /\ snd result = w
  /\ calls (snd result) = calls w.
Proof.
  intros Hm Hi result. subst result.
  rewrite chat_eq_no_index by assumption. repeat split.
Qed.

Definition silent_services : Services :=
  {| embed_service := fun _ _ => Throw (str "unreachable");
     embedQuery_service := fun _ _ => Throw (str "unreachable");
     completion_service := fun _ _ _ => Throw (str "unreachable");
     fetchHtmlText_service := fun _ _ => Throw (str "unreachable");
     fetchPdfText_service := fun _ _ => Throw (str "unreachable");
     readTextFromBuffer_service := fun _ _ _ => Throw (str "unreachable");
     now_service := fun _ => O;
     toLowerCase := fun s => s;
     toFixed3 := fun x => x;
     typeError := str "not a function" |}.

Lemma chat_empty_index_witness :
  let result := chat default_config silent_services (VString (str "hello"))
                  sample_world in
  fst result
  = Return (status_json 400
      (Error (str "No index found. Use admin panel to add resources.")))
  /\ snd result = sample_world
  /\ calls (snd result) = calls sample_world.
Proof.
  apply (chat_empty_index default_config silent_services (str "hello") sample_world).
  - discriminate.
  - reflexivity.
Defined.

Local Open Scope Z_scope.

(** The mean of a list of scores, summed from the left as [reduce] does. *)
Definition mean (l : list float) : float :=
  (fold_left PrimFloat.add l 0 / number_of_nat (length l))%float.

(** Scored items that carry given scores, to try the gate on. *)
Definition with_scores (scores : list float) : list Scored :=
  map (fun s => {| item := {| id := []; source := []; type := file;
                               text := []; embedding := [] |};
                   score := s |}) scores.

(** The world after the query has been embedded. *)
Definition after_embedQuery (message : jsstring) (w : World) : World :=
  {| INDEX := INDEX w; saved := saved w;
     calls := CallEmbedQuery message :: calls w |}.

(** The user message of the completion request. *)
Definition user_message (message : jsstring) (top : list Scored) : jsstring :=
  join (str "
") [str "پرسش کاربر:"; message; str ""; str "کانتکست:"; formatContext top].

Lemma fold_left_scores (l : list Scored) (a : float) :
  fold_left (fun s x => (s + score x)%float) l a
  = fold_left PrimFloat.add (map score l) a.
Proof.
  revert a. induction l as [|x l IH]; intros a; simpl; [reflexivity|].
  apply IH.
Qed.

Lemma gate_avgTop3_mean (top : list Scored) :
  top <> [] ->
  gate_avgTop3 top = mean (map score (firstn (Nat.min 3 (length top)) top)).
Proof.
  intros Hne. unfold gate_avgTop3, mean.
  rewrite slice_0 by lia. change (Z.to_nat 3) with 3%nat.
  rewrite fold_left_scores.
  assert (firstn (Nat.min 3 (length top)) top = firstn 3 top) as ->.
  { destruct (Nat.le_ge_cases 3 (length top)).
    - now rewrite Nat.min_l.
    - rewrite Nat.min_r by assumption.
      rewrite !firstn_all2; [reflexivity|lia|lia]. }
  rewrite length_map, length_firstn.
  assert (Nat.max 1 (Nat.min 3 (length top)) = Nat.min 3 (length top)) as ->;
    [|reflexivity].
  destruct top as [|t top]; [congruence|]. simpl length. lia.
Qed.

Lemma gate_refuses_iff cfg top :
  gate_refuses cfg top = true
  <-> (gate_topSim top <? MIN_TOP_SIM cfg)%float = true
      \/ (gate_avgTop3 top <? MIN_AVG_TOP3 cfg)%float = true.
Proof. unfold gate_refuses. apply orb_true_iff. Qed.

(** What the chat route does once the query is embedded. *)
Lemma chat_after_embedQuery cfg svc message w qEmb :
  message <> [] ->
  items (INDEX w) <> [] ->
  embedQuery_service svc (calls w) message = Return qEmb ->
  let top := topKByCosine (items (INDEX w)) qEmb 5 in
  let w1 := after_embedQuery message w in
  let user := user_message message top in
  chat cfg svc (VString message) w
  = if gate_refuses cfg top then (Return (json refusalMessage), w1)
    else
      match completion_service svc (calls w1) buildSystemPrompt user with
      | Return answer =>
        (Return (json (Answer answer
           (map (fun '(i, t) => {| ref_id := Z.of_nat i + 1;
                                   ref_source := source (item t);
                                   ref_score := toFixed3 svc (score t) |})
                (combine (seq 0 (length top)) top)))),
         {| INDEX := INDEX w; saved := saved w;
            calls := CallCompletion buildSystemPrompt user :: calls w1 |})
      | Throw e =>
        (Return (status_json 500
           (Error (match e with [] => str "server error" | _ => e end))),
         {| INDEX := INDEX w; saved := saved w;
            calls := CallCompletion buildSystemPrompt user :: calls w1 |})
      end.
Proof.
  intros Hm Hi Hq top w1 user.
  destruct message as [|c m]; [congruence|].
  unfold chat. cbn [truthy is_string negb orb].
  unfold try_catch at 1. unfold bind at 1. unfold get_items at 1.
  destruct (items (INDEX w)) as [|it its] eqn:Eits; [congruence|].
  unfold bind at 1. unfold embedQuery, call at 1. rewrite Hq.
  unfold bind at 1. unfold get_items. cbn [INDEX]. rewrite Eits.
  fold top.
  destruct (gate_refuses cfg top); [reflexivity|].
  unfold bind, call, ret. cbn [calls INDEX saved].
  fold w1. fold (user_message (c :: m) top). fold user.
  change (calls w1) with (CallEmbedQuery (c :: m) :: calls w).
  destruct (completion_service svc _ _ _); reflexivity.
Qed.

Local Open Scope Z_scope.

(** A similarity that is a number: not [NaN]. *)
Definition is_number (x : float) : Prop := PrimFloat.is_nan x = false.

(** A store of two chunks and services that answer, to run the routes on. *)
Definition sample_items : list IndexRecord :=
  [ {| id := str "file:a.txt::0"; source := str "a.txt"; type := file;
       text := str "first"; embedding := [1; 0]%float |};
    {| id := str "file:a.txt::1"; source := str "a.txt"; type := file;
       text := str "second"; embedding := [0; 1]%float |} ].

Definition sample_store : World :=
  {| INDEX := {| items := sample_items |};
     saved := {| items := sample_items |};
     calls := [] |}.

Definition sample_services : Services :=
  {| embed_service := fun _ texts => Return (map (fun _ => [1; 0]%float) texts);
     embedQuery_service := fun _ _ => Return [1; 0]%float;
     completion_service := fun _ _ _ => Return (str "ok [[1]]");
     fetchHtmlText_service := fun _ _ => Return (str "page");
     fetchPdfText_service := fun _ _ => Return (str "pdf");
     readTextFromBuffer_service := fun _ _ _ => Return (str "file");
     now_service := fun h => length h;
     toLowerCase := fun s => s;
     toFixed3 := fun x => x;
     typeError := str "not a function" |}.


Local Open Scope Z_scope.

Lemma chat_eq_invalid cfg svc message w :
  truthy message && is_string message = false ->
  chat cfg svc message w
  = (Return (status_json 400 (Error (str "message is required"))), w).
Proof.
  intros H. unfold chat, try_catch.
  assert (negb (truthy message) || negb (is_string message) = true) as ->.
  { destruct (truthy message), (is_string message); try reflexivity.
    discriminate. }
  reflexivity.
Qed.

(** A message that is no string, or the empty string, is turned down
    before anything else is looked at: 400 [message is required], and the
    world stays as it was, whatever the index holds. *)
Theorem chat_invalid_message (cfg : Config) (svc : Services)
    (message : jsval) (w : World) :
  (forall m, message = VString m -> m = []) ->
  chat cfg svc message w
  = (Return (status_json 400 (Error (str "message is required"))), w).
Proof.
  intros H. apply chat_eq_invalid.
  destruct message as [| |b|x|m|]; try reflexivity;
    try (now rewrite andb_false_r).
  now rewrite (H m eq_refl).
Qed.

Lemma chat_invalid_message_witness :
  chat default_config sample_services (VNumber 42%float) sample_store
  = (Return (status_json 400 (Error (str "message is required"))), sample_store).
Proof.
  apply (chat_invalid_message default_config sample_services
           (VNumber 42%float) sample_store).
  discriminate.
Defined.

(** What the chat route does when the embedding of the query fails. *)
Lemma chat_embedQuery_throws cfg svc message w e :
  message <> [] ->
  items (INDEX w) <> [] ->
  embedQuery_service svc (calls w) message = Throw e ->
  chat cfg svc (VString message) w
  = (Return (status_json 500
       (Error (match e with [] => str "server error" | _ => e end))),
     after_embedQuery message w).
Proof.
  intros Hm Hi Hq.
  destruct message as [|c m]; [congruence|].
  unfold chat. cbn [truthy is_string negb orb].
  unfold try_catch at 1. unfold bind at 1. unfold get_items at 1.
  destruct (items (INDEX w)) as [|it its] eqn:Eits; [congruence|].
  unfold bind at 1. unfold embedQuery, call at 1. rewrite Hq.
  reflexivity.
Qed.

(** X4: When the embedding service throws, the route answers 500 with the
    message of the error ([server error] when it has none); the index is
    untouched and the completion service is not called. *)
Theorem chat_embedding_failure (cfg : Config) (svc : Services)
    (message e : jsstring) (w : World) :
  message <> [] ->
  items (INDEX w) <> [] ->
  embedQuery_service svc (calls w) message = Throw e ->
  let result := chat cfg svc (VString message) w in
  fst result
  = Return (status_json 500
      (Error (match e with [] => str "server error" | _ => e end)))
  /\ INDEX (snd result) = INDEX w
  /\ saved (snd result) = saved w
  /\ calls (snd result) = CallEmbedQuery message :: calls w.
Proof.
  intros Hm Hi Hq result. subst result.
  rewrite (chat_embedQuery_throws cfg svc message w e Hm Hi Hq).
  repeat split.
Qed.

Definition failing_services : Services :=
  {| embed_service := fun _ _ => Throw (str "quota");
     embedQuery_service := fun _ _ => Throw (str "quota");
     completion_service := fun _ _ _ => Throw (str "quota");
     fetchHtmlText_service := fun _ _ => Throw (str "Fetch failed");
     fetchPdfText_service := fun _ _ => Throw (str "Fetch failed");
     readTextFromBuffer_service := fun _ _ _ => Throw (str "bad file");
     now_service := fun h => length h;
     toLowerCase := fun s => s;
     toFixed3 := fun x => x;
     typeError := str "not a function" |}.

Lemma chat_embedding_failure_witness :
  let result := chat default_config failing_services (VString (str "q"))
                  sample_store in
  fst result = Return (status_json 500 (Error (str "quota")))
  /\ INDEX (snd result) = INDEX sample_store
  /\ saved (snd result) = saved sample_store
  /\ calls (snd result) = CallEmbedQuery (str "q") :: calls sample_store.
Proof.
  apply (chat_embedding_failure default_config failing_services (str "q")
           (str "quota") sample_store).
  - discriminate.
  - discriminate.
  - reflexivity.
Defined.

(** Whatever the request, the chat route returns a response and leaves a
    world that differs by its history of calls only. *)
Lemma chat_reads_only_eq cfg svc message w :
  exists r c,
    fst (chat cfg svc message w) = Return r
    /\ snd (chat cfg svc message w)
       = {| INDEX := INDEX w; saved := saved w; calls := c |}
    /\ (status r = 200 \/ status r = 400 \/ status r = 500)
    /\ exists new, c = new ++ calls w /\ (length new <= 2)%nat.
Proof.
  destruct w as [idx sv cl]. cbn [INDEX saved calls].
  set (w := {| INDEX := idx; saved := sv; calls := cl |}).
  assert (forall r new,
            status r = 200 \/ status r = 400 \/ status r = 500 ->
            (length new <= 2)%nat ->
            chat cfg svc message w
            = (Return r, {| INDEX := idx; saved := sv; calls := new ++ cl |}) ->
            exists r c,
              fst (chat cfg svc message w) = Return r
              /\ snd (chat cfg svc message w)
                 = {| INDEX := idx; saved := sv; calls := c |}
              /\ (status r = 200 \/ status r = 400 \/ status r = 500)
              /\ exists new, c = new ++ cl /\ (length new <= 2)%nat) as K.
  { intros r new Hs Hn E. exists r, (new ++ cl). rewrite E.
    repeat split; [assumption|]. now exists new. }
  destruct (truthy message && is_string message) eqn:Hv.
  2:{ eapply (K _ []); [ | cbn; lia | now rewrite chat_eq_invalid by assumption].
      cbn; tauto. }
  apply andb_true_iff in Hv as [Ht Hs].
  destruct message as [| |b|x|m|]; try discriminate.
  assert (m <> []) as Hm by (destruct m; [discriminate|congruence]).
  destruct (items idx) as [|it its] eqn:Hi.
  { eapply (K _ []); [ | cbn; lia | now rewrite chat_eq_no_index by assumption].
    cbn; tauto. }
  assert (items (INDEX w) <> []) as Hne by (cbn; rewrite Hi; discriminate).
  destruct (embedQuery_service svc (calls w) m) as [q|e] eqn:Hq.
  - rewrite (chat_after_embedQuery cfg svc m w q Hm Hne Hq) in *. cbv zeta in *.
    destruct (gate_refuses cfg _).
    + eapply (K _ [CallEmbedQuery m]); [ | cbn; lia | reflexivity]; cbn; tauto.
    + destruct (completion_service svc _ _ _).
      * eapply (K _ [_; CallEmbedQuery m]); [ | cbn; lia | reflexivity];
          cbn; tauto.
      * eapply (K _ [_; CallEmbedQuery m]); [ | cbn; lia | reflexivity];
          cbn; tauto.
  - rewrite (chat_embedQuery_throws cfg svc m w e Hm Hne Hq) in *.
    eapply (K _ [CallEmbedQuery m]); [ | cbn; lia | reflexivity]; cbn; tauto.
Qed.

(** X5: The chat route only reads the store: on every request it answers
    (with status 200, 400 or 500: an error of an outside service is caught
    and answered 500), it leaves the index and its saved copy as they
    were, and it makes at most two outside calls. *)
Theorem chat_reads_only (cfg : Config) (svc : Services)
    (message : jsval) (w : World) :
  let result := chat cfg svc message w in
  (exists r, fst result = Return r
             /\ (status r = 200 \/ status r = 400 \/ status r = 500))
  /\ INDEX (snd result) = INDEX w
  /\ saved (snd result) = saved w
  /\ exists new, calls (snd result) = new ++ calls w /\ (length new <= 2)%nat.
Proof.
  intros result. subst result.
  destruct (chat_reads_only_eq cfg svc message w) as [r [c [E1 [E2 [Hs Hn]]]]].
  rewrite E1, E2. cbn [INDEX saved calls].
  split; [now exists r|]. repeat split. exact Hn.
Qed.

Local Open Scope Z_scope.

(** With a token configured, the header that carries it lets the request
    through: the route is its handler. *)
Theorem admin_route_authorized (cfg : Config) (handler : M Response) (w : World) :
  ADMIN_TOKEN cfg <> [] ->
  requireAdmin cfg (Some (str "Bearer " ++ ADMIN_TOKEN cfg)) = Next
  /\ admin_route cfg (Some (str "Bearer " ++ ADMIN_TOKEN cfg)) handler w
     = handler w.
Proof.
  intros Htok. pose proof (requireAdmin_authorized cfg Htok) as E.
  split; [exact E|]. unfold admin_route. now rewrite E.
Qed.

Lemma admin_route_authorized_witness :
  requireAdmin sample_config (Some (str "Bearer " ++ ADMIN_TOKEN sample_config))
  = Next
  /\ admin_route sample_config
       (Some (str "Bearer " ++ ADMIN_TOKEN sample_config))
       (fun w => (Throw (str "reached"), w)) sample_world
     = (Throw (str "reached"), sample_world).
Proof.
  apply (admin_route_authorized sample_config
           (fun w => (Throw (str "reached"), w)) sample_world).
  discriminate.
Defined.

(** With no token configured (the default), every request to an
    administration route is answered 500, the right-looking header
    included, and the handler is not run. *)
Theorem admin_route_token_not_set (cfg : Config)
    (authorization : option jsstring) (handler : M Response) (w : World) :
  ADMIN_TOKEN cfg = [] ->
  admin_route cfg authorization handler w
  = (Return (status_json 500 (Error (str "ADMIN_TOKEN not set on server"))), w).
Proof.
  intros Htok. unfold admin_route, requireAdmin. now rewrite Htok.
Qed.

Lemma admin_route_token_not_set_witness :
  admin_route default_config (Some (str "Bearer "))
    (fun w => (Throw (str "reached"), w)) sample_world
  = (Return (status_json 500 (Error (str "ADMIN_TOKEN not set on server"))),
     sample_world).
Proof.
  apply (admin_route_token_not_set default_config (Some (str "Bearer "))).
  reflexivity.
Defined.

(** * Deleting a source *)

(** [l1] is [l2] with some elements left out, the others in their order. *)
Inductive subseq {A : Type} : list A -> list A -> Prop :=
| subseq_nil : subseq [] []
| subseq_keep x l1 l2 : subseq l1 l2 -> subseq (x :: l1) (x :: l2)
| subseq_drop x l1 l2 : subseq l1 l2 -> subseq l1 (x :: l2).

Lemma subseq_filter {A} (f : A -> bool) (l : list A) : subseq (filter f l) l.
Proof.
  induction l as [|x l IH]; simpl; [constructor|].
  destruct (f x); now constructor.
Qed.

(** The number of records of a source. *)
Definition count_source (src : jsstring) (its : list IndexRecord) : nat :=
  length (filter (fun it => streq (source it) src) its).

Lemma length_without_source src its :
  (length (without_source src its) + count_source src its = length its)%nat.
Proof.
  unfold without_source, count_source.
  induction its as [|it its IH]; simpl; [reflexivity|].
  destruct (streq (source it) src); simpl; lia.
Qed.

Lemma in_without_source src its it :
  In it (without_source src its) <-> In it its /\ source it <> src.
Proof.
  unfold without_source. rewrite filter_In, negb_true_iff, streq_false_iff.
  reflexivity.
Qed.

Lemma delete_source_eq (c : code_unit) (s : jsstring) (w : World) :
  delete_source (Some (c :: s)) w
  = (Return (json (Removed (len (items (INDEX w))
                            - len (without_source (c :: s) (items (INDEX w)))))),
     {| INDEX := {| items := without_source (c :: s) (items (INDEX w)) |};
        saved := {| items := without_source (c :: s) (items (INDEX w)) |};
        calls := calls w |}).
Proof. reflexivity. Qed.

(** X6: The delete route, for a source that is named: it answers 200 with the
    number of records of that source; the records left are the other
    ones, all of them and in the order they had; the index is saved; no
    outside call is made. *)
Theorem delete_source_removes (src : jsstring) (w : World) :
  src <> [] ->
  let result := delete_source (Some src) w in
  let its := items (INDEX w) in
  let its' := items (INDEX (snd result)) in
  fst result = Return (json (Removed (Z.of_nat (count_source src its))))
  /\ (forall it, In it its' <-> In it its /\ source it <> src)
  /\ subseq its' its
  /\ (length its' + count_source src its = length its)%nat
  /\ saved (snd result) = INDEX (snd result)
  /\ calls (snd result) = calls w.
Proof.
  intros Hsrc result its its'. subst result its its'.
  destruct src as [|c s]; [congruence|].
  rewrite delete_source_eq. cbn [fst snd INDEX saved calls items].
  pose proof (length_without_source (c :: s) (items (INDEX w))) as Hlen.
  split; [|split; [|split; [|split; [|split]]]].
  - do 3 f_equal. unfold len. lia.
  - intros it. apply in_without_source.
  - apply subseq_filter.
  - exact Hlen.
  - reflexivity.
  - reflexivity.
Qed.

Lemma delete_source_removes_witness :
  let src := str "a.txt" in
  let w := sample_store in
  let result := delete_source (Some src) w in
  let its := items (INDEX w) in
  let its' := items (INDEX (snd result)) in
  fst result = Return (json (Removed (Z.of_nat (count_source src its))))
  /\ (forall it, In it its' <-> In it its /\ source it <> src)
  /\ subseq its' its
  /\ (length its' + count_source src its = length its)%nat
  /\ saved (snd result) = INDEX (snd result)
  /\ calls (snd result) = calls w.
Proof.
  apply (delete_source_removes (str "a.txt") sample_store). discriminate.
Defined.

(** Without a source (the parameter is missing or empty) the delete route
    answers 400 and removes nothing, not even records whose source is the
    empty string. *)
Theorem delete_source_required (source : option jsstring) (w : World) :
  source = None \/ source = Some [] ->
  delete_source source w
  = (Return (status_json 400 (Error (str "source query required"))), w).
Proof. intros [-> | ->]; reflexivity. Qed.

Lemma delete_source_required_witness :
  delete_source (Some []) sample_store
  = (Return (status_json 400 (Error (str "source query required"))),
     sample_store).
Proof. apply (delete_source_required (Some []) sample_store). now right. Defined.

Lemma without_source_idem src its :
  without_source src (without_source src its) = without_source src its.
Proof.
  unfold without_source. induction its as [|it its IH]; simpl; [reflexivity|].
  destruct (streq (source it) src) eqn:E; simpl; [assumption|].
  rewrite E. simpl. now rewrite IH.
Qed.

Lemma count_source_without src its :
  count_source src (without_source src its) = O.
Proof.
  unfold count_source, without_source.
  induction its as [|it its IH]; simpl; [reflexivity|].
  destruct (streq (source it) src) eqn:E; simpl; [assumption|].
  now rewrite E.
Qed.

(** Deleting the same source a second time removes nothing: the second
    answer counts 0 and the index is the one the first deletion left. *)
Theorem delete_source_twice (src : jsstring) (w : World) :
  src <> [] ->
  let w1 := snd (delete_source (Some src) w) in
  delete_source (Some src) w1 = (Return (json (Removed 0)), w1).
Proof.
  intros Hsrc w1. subst w1. destruct src as [|c s]; [congruence|].
  rewrite !delete_source_eq. cbn [snd INDEX items calls].
  rewrite without_source_idem. rewrite Z.sub_diag. reflexivity.
Qed.

Lemma delete_source_twice_witness :
  let w1 := snd (delete_source (Some (str "a.txt")) sample_store) in
  delete_source (Some (str "a.txt")) w1 = (Return (json (Removed 0)), w1).
Proof. apply (delete_source_twice (str "a.txt") sample_store). discriminate. Defined.

Local Open Scope nat_scope.

(** * Record identifiers *)

(** The number a little-endian list of decimal digits stands for. *)
Fixpoint value_of_digits_rev (ds : jsstring) : nat :=
  match ds with
  | [] => 0
  | d :: ds' => (N.to_nat d - 48) + 10 * value_of_digits_rev ds'
  end.

Definition is_digit (c : code_unit) : Prop := (48 <= c <= 57)%N.

Lemma digits_rev_value fuel : forall n,
  n < fuel -> value_of_digits_rev (digits_rev fuel n) = n.
Proof.
  induction fuel as [|fuel IH]; intros n Hn; [lia|].
  cbn [digits_rev]. destruct (Nat.ltb_spec n 10) as [Hlt|Hge].
  - cbn [value_of_digits_rev]. unfold digit_unit. lia.
  - cbn [value_of_digits_rev].
    pose proof (Nat.div_mod_eq n 10) as E.
    pose proof (Nat.mod_upper_bound n 10 ltac:(lia)) as B.
    rewrite IH by lia. unfold digit_unit. lia.
Qed.

Lemma digits_rev_digits fuel : forall n, Forall is_digit (digits_rev fuel n).
Proof.
  induction fuel as [|fuel IH]; intros n; cbn [digits_rev]; [constructor|].
  destruct (Nat.ltb_spec n 10) as [Hlt|Hge].
  - repeat constructor; unfold digit_unit; lia.
  - constructor; [|apply IH].
    pose proof (Nat.mod_upper_bound n 10 ltac:(lia)).
    unfold is_digit, digit_unit. lia.
Qed.

Lemma string_of_nat_inj n m : string_of_nat n = string_of_nat m -> n = m.
Proof.
  unfold string_of_nat. intros E.
  apply (f_equal (@rev _)) in E. rewrite !rev_involutive in E.
  apply (f_equal value_of_digits_rev) in E.
  rewrite !digits_rev_value in E by lia. exact E.
Qed.

Lemma string_of_nat_digits n : Forall is_digit (string_of_nat n).
Proof.
  unfold string_of_nat. apply Forall_rev, digits_rev_digits.
Qed.

Lemma string_of_nat_nonempty n : string_of_nat n <> [].
Proof.
  unfold string_of_nat. cbn [digits_rev].
  destruct (n <? 10); cbn [rev]; intros E;
    apply (f_equal (@length _)) in E; rewrite length_app in E; cbn in E; lia.
Qed.

(** Two lists that agree up to the first occurrence of [x] in each. *)
Lemma app_cons_inv_first {A} (x : A) (l1 l2 r1 r2 : list A) :
  ~ In x l1 -> ~ In x l2 ->
  l1 ++ x :: r1 = l2 ++ x :: r2 -> l1 = l2 /\ r1 = r2.
Proof.
  revert l2. induction l1 as [|a l1 IH]; intros [|b l2] H1 H2 E; cbn in *.
  - inversion E. tauto.
  - inversion E. subst. tauto.
  - inversion E. subst. tauto.
  - inversion E. subst. destruct (IH l2) as [-> ->]; tauto.
Qed.

Lemma colon_not_digit (ds : jsstring) : Forall is_digit ds -> ~ In 58%N ds.
Proof.
  intros H Hin. rewrite Forall_forall in H. specialize (H _ Hin).
  unfold is_digit in H. lia.
Qed.

(** The identifier of a record tells its prefix and its chunk index. *)
Lemma record_id_inj p1 p2 i1 i2 :
  record_id p1 i1 = record_id p2 i2 -> p1 = p2 /\ i1 = i2.
Proof.
  unfold record_id. intros E.
  change (str "::") with [58%N; 58%N] in E.
  apply (f_equal (@rev _)) in E.
  rewrite !rev_app_distr in E. cbn [rev app] in E.
  rewrite <- !app_assoc in E. cbn [app] in E.
  apply app_cons_inv_first in E as [Ed Er].
  - inversion Er as [Ep]. apply (f_equal (@rev _)) in Ep, Ed.
    rewrite !rev_involutive in Ep, Ed.
    split; [assumption|]. now apply string_of_nat_inj.
  - rewrite <- in_rev. apply colon_not_digit, string_of_nat_digits.
  - rewrite <- in_rev. apply colon_not_digit, string_of_nat_digits.
Qed.

Lemma map_id_new_records prefix src k chunks embs :
  map id (new_records prefix src k chunks embs)
  = map (record_id prefix) (seq 0 (length chunks)).
Proof. unfold new_records. rewrite map_map. reflexivity. Qed.

Lemma NoDup_map_inj {A B} (f : A -> B) (l : list A) :
  (forall x y, f x = f y -> x = y) -> NoDup l -> NoDup (map f l).
Proof.
  intros Hinj H. induction H as [|x l Hx Hl IH]; cbn; constructor.
  - rewrite in_map_iff. intros [y [E Hy]]. apply Hinj in E. now subst.
  - assumption.
Qed.

Lemma NoDup_ids_new_records prefix src k chunks embs :
  NoDup (map id (new_records prefix src k chunks embs)).
Proof.
  rewrite map_id_new_records. apply NoDup_map_inj; [|apply seq_NoDup].
  intros x y E. now apply record_id_inj in E.
Qed.

Local Open Scope Z_scope.

(** * Appending to the store *)

(** The world after [embed(texts)] was called. *)
Definition after_embed (texts : list jsstring) (w : World) : World :=
  {| INDEX := INDEX w; saved := saved w; calls := CallEmbed texts :: calls w |}.

(** The world after records were pushed and the index was saved. *)
Definition after_append (texts : list jsstring) (new : list IndexRecord)
    (w : World) : World :=
  {| INDEX := {| items := items (INDEX w) ++ new |};
     saved := {| items := items (INDEX w) ++ new |};
     calls := CallEmbed texts :: calls w |}.

Lemma embedAndAppend_eq svc chunks meta w :
  chunks <> [] ->
  embedAndAppend svc chunks meta w
  = match embed_service svc (calls w) chunks with
    | Return embs =>
      (Return (len chunks),
       after_append chunks
         (new_records (idPrefix meta) (meta_source meta) (meta_type meta)
            chunks embs) w)
    | Throw e => (Throw e, after_embed chunks w)
    end.
Proof.
  intros Hne. destruct chunks as [|c cs]; [congruence|].
  unfold embedAndAppend, bind, embed, call.
  destruct (embed_service svc (calls w) (c :: cs)); reflexivity.
Qed.

(** With no chunk, [embedAndAppend] returns 0 at once: the embedding
    service is not called and nothing is saved. *)
Theorem embedAndAppend_nothing (svc : Services) (meta : Meta) (w : World) :
  embedAndAppend svc [] meta w = (Return 0, w).
Proof. reflexivity. Qed.

(** X7: When the embedding service answers with one vector per chunk,
    [embedAndAppend] pushes one record per chunk behind the records that
    were there, which stay as they were; the [i]-th new record has the
    [i]-th chunk as text, the [i]-th vector as embedding, the source and
    the type of [meta] and the identifier [prefix::i]; the index is saved
    and the number of chunks is returned. *)
Theorem embedAndAppend_appends (svc : Services) (chunks : list jsstring)
    (meta : Meta) (w : World) (embs : list vector) :
  chunks <> [] ->
  embed_service svc (calls w) chunks = Return embs ->
  length embs = length chunks ->
  let result := embedAndAppend svc chunks meta w in
  let its' := items (INDEX (snd result)) in
  fst result = Return (len chunks)
  /\ firstn (length (items (INDEX w))) its' = items (INDEX w)
  /\ length its' = (length (items (INDEX w)) + length chunks)%nat
  /\ (forall i chunk,
        nth_error chunks i = Some chunk ->
        exists it,
          nth_error its' (length (items (INDEX w)) + i) = Some it
          /\ text it = chunk
          /\ source it = meta_source meta
          /\ type it = meta_type meta
          /\ id it = idPrefix meta ++ str "::" ++ string_of_nat i
          /\ nth_error embs i = Some (embedding it))
  /\ saved (snd result) = INDEX (snd result)
  /\ calls (snd result) = CallEmbed chunks :: calls w.
Proof.
  intros Hne Hembs Hlen result its'. subst result its'.
  rewrite embedAndAppend_eq by assumption. rewrite Hembs.
  cbn [fst snd after_append INDEX saved calls items].
  split; [reflexivity|]. split; [|split; [|split; [|split]]].
  - rewrite firstn_app, Nat.sub_diag, firstn_all. cbn [firstn].
    apply app_nil_r.
  - rewrite length_app. unfold new_records. now rewrite length_map, length_seq.
  - intros i chunk Hi.
    assert (i < length chunks)%nat as Hlt by (apply nth_error_Some; congruence).
    eexists. split.
    + rewrite nth_error_app2 by lia.
      replace (length (items (INDEX w)) + i - length (items (INDEX w)))%nat
        with i by lia.
      unfold new_records. rewrite nth_error_map, nth_error_seq.
      destruct (Nat.ltb_spec i (length chunks)); [|lia]. reflexivity.
    + cbn [text source type id embedding].
      split; [now apply nth_error_nth|]. repeat split.
      apply nth_error_nth'. lia.
  - reflexivity.
  - reflexivity.
Qed.

Definition sample_meta : Meta :=
  {| idPrefix := str "url:https://example.org/a";
     meta_source := str "https://example.org/a";
     meta_type := url |}.

Lemma embedAndAppend_appends_witness :
  let svc := sample_services in
  let chunks := [str "one"; str "two"] in
  let meta := sample_meta in
  let w := sample_store in
  let embs := [[1; 0]; [1; 0]]%float in
  let result := embedAndAppend svc chunks meta w in
  let its' := items (INDEX (snd result)) in
  fst result = Return (len chunks)
  /\ firstn (length (items (INDEX w))) its' = items (INDEX w)
  /\ length its' = (length (items (INDEX w)) + length chunks)%nat
  /\ (forall i chunk,
        nth_error chunks i = Some chunk ->
        exists it,
          nth_error its' (length (items (INDEX w)) + i) = Some it
          /\ text it = chunk
          /\ source it = meta_source meta
          /\ type it = meta_type meta
          /\ id it = idPrefix meta ++ str "::" ++ string_of_nat i
          /\ nth_error embs i = Some (embedding it))
  /\ saved (snd result) = INDEX (snd result)
  /\ calls (snd result) = CallEmbed chunks :: calls w.
Proof.
  apply (embedAndAppend_appends sample_services [str "one"; str "two"]
           sample_meta sample_store [[1; 0]; [1; 0]]%float).
  - discriminate.
  - reflexivity.
  - reflexivity.
Defined.

(** X8: When the embedding service throws, [embedAndAppend] throws the same
    error and the index is as it was, in memory and as saved. *)
Theorem embedAndAppend_embed_fails (svc : Services) (chunks : list jsstring)
    (meta : Meta) (w : World) (e : jsstring) :
  chunks <> [] ->
  embed_service svc (calls w) chunks = Throw e ->
  let result := embedAndAppend svc chunks meta w in
  fst result = Throw e
  /\ INDEX (snd result) = INDEX w
  /\ saved (snd result) = saved w.
Proof.
  intros Hne He result. subst result.
  rewrite embedAndAppend_eq by assumption. rewrite He. repeat split.
Qed.

Lemma embedAndAppend_embed_fails_witness :
  let result := embedAndAppend failing_services [str "one"] sample_meta
                  sample_store in
  fst result = Throw (str "quota")
  /\ INDEX (snd result) = INDEX sample_store
  /\ saved (snd result) = saved sample_store.
Proof.
  apply (embedAndAppend_embed_fails failing_services [str "one"] sample_meta
           sample_store (str "quota")).
  - discriminate.
  - reflexivity.
Defined.

Local Open Scope Z_scope.

(** * A program logic for the routes *)

(** [triple P m Q E]: from a world that satisfies [P], [m] returns a value
    and a world that satisfy [Q], or throws in a world that satisfies [E]. *)
Definition triple {A} (P : World -> Prop) (m : M A)
    (Q : A -> World -> Prop) (E : World -> Prop) : Prop :=
  forall w, P w ->
    match m w with
    | (Return a, w') => Q a w'
    | (Throw _, w') => E w'
    end.

Lemma triple_ret {A} (P : World -> Prop) (a : A) (Q : A -> World -> Prop) E :
  (forall w, P w -> Q a w) -> triple P (ret a) Q E.
Proof. intros H w Hw. now apply H. Qed.

Lemma triple_bind {A B} P (m : M A) (k : A -> M B) R Q E :
  triple P m R E ->
  (forall a, triple (R a) (k a) Q E) ->
  triple P (bind m k) Q E.
Proof.
  intros Hm Hk w Hw. unfold bind. specialize (Hm w Hw).
  destruct (m w) as [[a|e] w']; [|assumption].
  now apply Hk.
Qed.

Lemma triple_try_catch {A} P (m : M A) (h : jsstring -> M A) Q E R :
  triple P m Q R ->
  (forall e, triple R (h e) Q E) ->
  triple P (try_catch m h) Q E.
Proof.
  intros Hm Hh w Hw. unfold try_catch. specialize (Hm w Hw).
  destruct (m w) as [[a|e] w']; [assumption|].
  now apply Hh.
Qed.

Lemma triple_weaken {A} (P P' : World -> Prop) (m : M A)
    (Q Q' : A -> World -> Prop) (E E' : World -> Prop) :
  triple P' m Q' E' ->
  (forall w, P w -> P' w) ->
  (forall a w, Q' a w -> Q a w) ->
  (forall w, E' w -> E w) ->
  triple P m Q E.
Proof.
  intros H HP HQ HE w Hw. specialize (H w (HP w Hw)).
  destruct (m w) as [[a|e] w']; auto.
Qed.

Lemma triple_for_each {A B} (I : B -> World -> Prop) (E : World -> Prop)
    (step : B -> A -> M B) (l : list A) :
  (forall acc x, In x l -> triple (I acc) (step acc x) I E) ->
  forall acc, triple (I acc) (for_each step l acc) I E.
Proof.
  induction l as [|x l IH]; intros Hstep acc; cbn [for_each].
  - now apply triple_ret.
  - eapply triple_bind.
    + apply Hstep. now left.
    + intros acc'. apply IH. intros acc'' y Hy. apply Hstep. now right.
Qed.

(** An invariant that does not read the history of calls. *)
Definition ignores_calls (I : World -> Prop) : Prop :=
  forall w c, I w -> I {| INDEX := INDEX w; saved := saved w; calls := c |}.

Lemma triple_call {A} (I : World -> Prop) (c : Call)
    (answer : list Call -> outcome A) :
  ignores_calls I -> triple I (call c answer) (fun _ => I) I.
Proof.
  intros HI w Hw. unfold call.
  destruct (answer (calls w)); now apply HI.
Qed.

Lemma triple_get_items (I : World -> Prop) E :
  triple I get_items (fun _ => I) E.
Proof. intros w Hw. exact Hw. Qed.

(** Replacing the items and saving, as one step. *)
Definition store_items (its : list IndexRecord) (w : World) : World :=
  {| INDEX := {| items := its |}; saved := {| items := its |}; calls := calls w |}.

Lemma set_items_saveIndex {A} (its : list IndexRecord) (k : M A) (w : World) :
  bind (set_items its) (fun _ => bind saveIndex (fun _ => k)) w
  = k (store_items its w).
Proof. reflexivity. Qed.

Local Open Scope Z_scope.

(** * Invariants of the routes *)

(** The prefix that the routes give to the identifiers of a kind. *)
Definition kind_prefix (k : SourceKind) : jsstring :=
  match k with
  | file => str "file:"
  | url => str "url:"
  end.

Section Invariants.

Variable cfg : Config.
Variable svc : Services.

(** [I] is kept by the three ways the routes change the store: pushing
    the records of one source and saving, filtering a source out and
    saving, and replacing the items by a list built from nothing by such
    pushes ([G] holds of the lists so built). *)
Variable I : World -> Prop.
Variable G : list IndexRecord -> Prop.

Hypothesis I_calls : ignores_calls I.
Hypothesis I_append : forall w src k chunks embs,
  I w ->
  I (store_items (items (INDEX w)
                  ++ new_records (kind_prefix k ++ src) src k chunks embs) w).
Hypothesis I_delete : forall w src,
  I w -> I (store_items (without_source src (items (INDEX w))) w).
Hypothesis G_nil : G [].
Hypothesis G_append : forall its src k chunks embs,
  G its -> G (its ++ new_records (kind_prefix k ++ src) src k chunks embs).
Hypothesis I_replace : forall w its, G its -> I w -> I (store_items its w).

Lemma embedAndAppend_triple chunks src k :
  triple I
    (embedAndAppend svc chunks
       {| idPrefix := kind_prefix k ++ src; meta_source := src; meta_type := k |})
    (fun _ => I) I.
Proof.
  intros w Hw. destruct chunks as [|c cs]; [exact Hw|].
  rewrite embedAndAppend_eq by discriminate.
  pose proof (I_calls w (CallEmbed (c :: cs) :: calls w) Hw) as Hw1.
  destruct (embed_service svc (calls w) (c :: cs)) as [embs|e]; [|exact Hw1].
  apply (I_append _ src k (c :: cs) embs) in Hw1. exact Hw1.
Qed.

Lemma fetchText_triple u : triple I (fetchText svc u) (fun _ => I) I.
Proof.
  unfold fetchText. destruct (endsWith _ _); now apply triple_call.
Qed.

Lemma upload_one_triple total f :
  triple I (upload_one svc total f) (fun _ => I) I.
Proof.
  unfold upload_one.
  eapply triple_bind; [now apply triple_call|]. intros t.
  eapply triple_bind; [now apply triple_call|]. intros text.
  eapply triple_bind; [apply (embedAndAppend_triple _ _ file)|].
  intros added. now apply triple_ret.
Qed.

Lemma upload_triple files :
  triple I (upload svc files) (fun _ => I) (fun _ => False).
Proof.
  unfold upload. eapply triple_try_catch with (R := I).
  - destruct files as [|f files]; [now apply triple_ret|].
    eapply triple_bind.
    + apply (triple_for_each (fun _ => I)). intros acc x _.
      apply upload_one_triple.
    + intros total. now apply triple_ret.
  - intros e. now apply triple_ret.
Qed.

Lemma add_url_triple u :
  triple I (add_url svc u) (fun _ => I) (fun _ => False).
Proof.
  unfold add_url. eapply triple_try_catch with (R := I).
  - eapply triple_bind with (R := fun _ => I).
    + destruct u; try (now apply triple_ret);
        (destruct (truthy _); [intros w Hw; exact Hw|now apply triple_ret]).
    + intros [|c u']; [now apply triple_ret|].
      eapply triple_bind; [apply fetchText_triple|]. intros text.
      eapply triple_bind; [apply (embedAndAppend_triple _ _ url)|].
      intros added. now apply triple_ret.
  - intros e. now apply triple_ret.
Qed.

Lemma delete_source_triple source :
  triple I (delete_source source) (fun _ => I) (fun _ => False).
Proof.
  intros w Hw. destruct source as [[|c s]|]; try exact Hw.
  rewrite delete_source_eq. now apply I_delete.
Qed.

Lemma rebuild_url_triple its u :
  triple (fun w => I w /\ G its) (rebuild_url svc its u)
    (fun its' w => I w /\ G its') (fun _ => False).
Proof.
  unfold rebuild_url.
  eapply triple_try_catch with (R := fun w => I w /\ G its).
  - eapply triple_bind with (R := fun _ w => I w /\ G its).
    + intros w [Hw Hg]. pose proof (fetchText_triple u w Hw) as H.
      destruct (fetchText svc u w) as [[t|e] w']; now split.
    + intros text. eapply triple_bind with (R := fun _ w => I w /\ G its).
      * intros w [Hw Hg].
        pose proof (triple_call I (CallEmbed (chunkText text))
                      (fun h => embed_service svc h (chunkText text))
                      I_calls w Hw) as H.
        unfold embed.
        destruct (call _ _ w) as [[t|e] w']; now split.
      * intros embs. apply triple_ret. intros w [Hw Hg]. split; [assumption|].
        now apply (G_append its u url).
  - intros e. now apply triple_ret.
Qed.

Lemma rebuild_file_triple its f :
  triple (fun w => I w /\ G its) (rebuild_file svc its f)
    (fun its' w => I w /\ G its') (fun _ => False).
Proof.
  destruct f as [name buf]. unfold rebuild_file.
  eapply triple_try_catch with (R := fun w => I w /\ G its).
  - eapply triple_bind with (R := fun _ w => I w /\ G its).
    + intros w [Hw Hg].
      pose proof (triple_call I (CallReadTextFromBuffer buf name)
                    (fun h => readTextFromBuffer_service svc h buf name)
                    I_calls w Hw) as H.
      unfold readTextFromBuffer.
      destruct (call _ _ w) as [[t|e] w']; now split.
    + intros text. eapply triple_bind with (R := fun _ w => I w /\ G its).
      * intros w [Hw Hg].
        pose proof (triple_call I (CallEmbed (chunkText text))
                      (fun h => embed_service svc h (chunkText text))
                      I_calls w Hw) as H.
        unfold embed.
        destruct (call _ _ w) as [[t|e] w']; now split.
      * intros embs. apply triple_ret. intros w [Hw Hg]. split; [assumption|].
        now apply (G_append its name file).
  - intros e. now apply triple_ret.
Qed.

Lemma rebuildFromDisk_triple lines files :
  triple I (rebuildFromDisk svc lines files) (fun _ => I) (fun _ => False).
Proof.
  unfold rebuildFromDisk.
  eapply triple_bind with (R := fun its w => I w /\ G its).
  - eapply triple_weaken.
    + apply (triple_for_each (fun its w => I w /\ G its) (fun _ => False)).
      intros acc x _. apply rebuild_url_triple.
    + intros w Hw. split; [exact Hw|exact G_nil].
    + intros a w H. exact H.
    + intros w H. exact H.
  - intros its. eapply triple_bind with (R := fun its w => I w /\ G its).
    + apply (triple_for_each (fun its w => I w /\ G its) (fun _ => False)).
      intros acc x _. apply rebuild_file_triple.
    + intros its' w [Hw Hg]. rewrite set_items_saveIndex. cbn [ret].
      now apply I_replace.
Qed.

Lemma rebuild_triple lines files :
  triple I (rebuild svc lines files) (fun _ => I) (fun _ => False).
Proof.
  unfold rebuild. eapply triple_try_catch with (R := fun _ => False).
  - eapply triple_bind; [apply rebuildFromDisk_triple|].
    intros n. now apply triple_ret.
  - intros e w [].
Qed.

Lemma chat_triple message :
  triple I (chat cfg svc message) (fun _ => I) (fun _ => False).
Proof.
  intros w Hw.
  pose proof (chat_reads_only_eq cfg svc message w) as [r [c [E1 [E2 _]]]].
  rewrite (surjective_pairing (chat cfg svc message w)), E1, E2.
  now apply I_calls.
Qed.

Lemma admin_route_triple a (handler : M Response) :
  triple I handler (fun _ => I) (fun _ => False) ->
  triple I (admin_route cfg a handler) (fun _ => I) (fun _ => False).
Proof.
  intros H. unfold admin_route. destruct (requireAdmin cfg a); [exact H|].
  now apply triple_ret.
Qed.

Lemma handle_triple r :
  triple I (handle cfg svc r) (fun _ => I) (fun _ => False).
Proof.
  destruct r; cbn [handle].
  - apply chat_triple.
  - apply admin_route_triple, delete_source_triple.
  - apply admin_route_triple, upload_triple.
  - apply admin_route_triple, add_url_triple.
  - apply admin_route_triple, rebuild_triple.
Qed.

Lemma serve_invariant rs : forall w, I w -> I (serve cfg svc rs w).
Proof.
  induction rs as [|r rs IH]; intros w Hw; cbn [serve]; [exact Hw|].
  apply IH. pose proof (handle_triple r w Hw) as H.
  destruct (handle cfg svc r w) as [[a|e] w']; [exact H|destruct H].
Qed.

End Invariants.

Local Open Scope Z_scope.

(** X9: Every request to the chat, upload, add-url and rebuild routes is
    answered: the handlers of these routes run in a [try] whose [catch]
    answers 500, so that no error of an outside service escapes them.
    (The handler of the delete route has no [try].) *)
Theorem handle_answers (cfg : Config) (svc : Services) (r : Request) (w : World) :
  (forall a source, r <> DeleteSource a source) ->
  exists response, fst (handle cfg svc r w) = Return response.
Proof.
  intros _.
  pose proof (handle_triple cfg svc (fun _ => True) (fun _ => True)) as H.
  specialize (H ltac:(easy) ltac:(easy) ltac:(easy) ltac:(easy) ltac:(easy)
                ltac:(easy) r w I).
  destruct (handle cfg svc r w) as [[a|e] w']; [now exists a|destruct H].
Qed.

Lemma handle_answers_witness :
  exists response,
    fst (handle default_config failing_services (PostChat (VString (str "q")))
           sample_store)
    = Return response.
Proof.
  apply (handle_answers default_config failing_services
           (PostChat (VString (str "q"))) sample_store).
  intros a source. discriminate.
Defined.

(** X10: A request that is answered 200 leaves the saved index in step with
    the index in memory, if they were in step before it: every route that
    changes the index saves it before it answers. *)
Theorem handle_saves (cfg : Config) (svc : Services) (r : Request)
    (w : World) (response : Response) :
  saved w = INDEX w ->
  fst (handle cfg svc r w) = Return response ->
  status response = 200 ->
  saved (snd (handle cfg svc r w)) = INDEX (snd (handle cfg svc r w)).
Proof.
  intros Hw _ _.
  apply (serve_invariant cfg svc (fun w => saved w = INDEX w) (fun _ => True))
    with (rs := [r]); easy.
Qed.

Lemma handle_saves_witness :
  let result := handle sample_config sample_services
                  (DeleteSource (Some (str "Bearer s3cret")) (Some (str "a.txt")))
                  sample_store in
  fst result = Return (json (Removed 2))
  /\ saved (snd result) = INDEX (snd result).
Proof.
  split; [vm_compute; reflexivity|].
  apply (handle_saves sample_config sample_services
           (DeleteSource (Some (str "Bearer s3cret")) (Some (str "a.txt")))
           sample_store (json (Removed 2))).
  - reflexivity.
  - vm_compute. reflexivity.
  - reflexivity.
Defined.

(** * The form of the identifiers *)

(** The identifier of a record is made of its kind, its source and a
    chunk index. *)
Definition id_well_formed (it : IndexRecord) : Prop :=
  exists i, id it = record_id (kind_prefix (type it) ++ source it) i.

Lemma Forall_new_records_wf src k chunks embs :
  Forall id_well_formed (new_records (kind_prefix k ++ src) src k chunks embs).
Proof.
  unfold new_records. apply Forall_forall. intros it Hin.
  apply in_map_iff in Hin as [i [<- _]]. now exists i.
Qed.

Lemma kind_prefix_inj k1 k2 s1 s2 :
  kind_prefix k1 ++ s1 = kind_prefix k2 ++ s2 -> k1 = k2 /\ s1 = s2.
Proof.
  destruct k1, k2; intros E.
  - split; [reflexivity|]. now apply app_inv_head in E.
  - change (kind_prefix file) with (102%N :: skipn 1 (kind_prefix file)) in E.
    change (kind_prefix url) with (117%N :: skipn 1 (kind_prefix url)) in E.
    cbn [app] in E. inversion E.
  - change (kind_prefix file) with (102%N :: skipn 1 (kind_prefix file)) in E.
    change (kind_prefix url) with (117%N :: skipn 1 (kind_prefix url)) in E.
    cbn [app] in E. inversion E.
  - split; [reflexivity|]. now apply app_inv_head in E.
Qed.

Lemma serve_ids_well_formed cfg svc rs w :
  Forall id_well_formed (items (INDEX w)) ->
  Forall id_well_formed (items (INDEX (serve cfg svc rs w))).
Proof.
  apply (serve_invariant cfg svc
           (fun w => Forall id_well_formed (items (INDEX w)))
           (Forall id_well_formed)).
  - intros w0 c H. exact H.
  - intros w0 src k chunks embs H. cbn [store_items INDEX items].
    apply Forall_app. split; [exact H|apply Forall_new_records_wf].
  - intros w0 src H. cbn [store_items INDEX items]. unfold without_source.
    rewrite Forall_forall in *. intros it Hin. apply filter_In in Hin as [Hin _].
    now apply H.
  - constructor.
  - intros its src k chunks embs H.
    apply Forall_app. split; [exact H|apply Forall_new_records_wf].
  - intros w0 its H _. exact H.
Qed.

(** X11: In a store that the routes have built (from an empty index, or from
    one whose identifiers have the form [kind:source::index]), whichever
    requests were served, every identifier has that form, and it tells the
    record's kind and source: two records with the same identifier are
    chunks of the same source. *)
Theorem serve_id_determines_source (cfg : Config) (svc : Services)
    (rs : list Request) (w : World) :
  Forall id_well_formed (items (INDEX w)) ->
  let its := items (INDEX (serve cfg svc rs w)) in
  Forall id_well_formed its
  /\ forall a b, In a its -> In b its -> id a = id b ->
       type a = type b /\ source a = source b.
Proof.
  intros Hwf its.
  pose proof (serve_ids_well_formed cfg svc rs w Hwf) as H. fold its in H.
  split; [exact H|]. intros a b Ha Hb E.
  rewrite Forall_forall in H.
  destruct (H a Ha) as [i Ei]. destruct (H b Hb) as [j Ej].
  rewrite Ei, Ej in E. apply record_id_inj in E as [E _].
  now apply kind_prefix_inj in E.
Qed.

Lemma serve_id_determines_source_witness :
  let its := items (INDEX (serve sample_config sample_services
               [PostAddUrl (Some (str "Bearer s3cret")) (VString (str "https://a/b"))]
               sample_store)) in
  Forall id_well_formed its
  /\ forall a b, In a its -> In b its -> id a = id b ->
       type a = type b /\ source a = source b.
Proof.
  apply (serve_id_determines_source sample_config sample_services).
  repeat constructor; [now exists 0%nat|now exists 1%nat].
Defined.

Local Open Scope Z_scope.

(** * Adding a URL *)

(** The outside call that [fetchText] makes for a URL, and its answer. *)
Definition fetch_call (svc : Services) (u : jsstring) : Call :=
  if endsWith (toLowerCase svc u) (str ".pdf")
  then CallFetchPdfText u else CallFetchHtmlText u.

Definition fetch_answer (svc : Services) (u : jsstring) (h : list Call)
  : outcome jsstring :=
  if endsWith (toLowerCase svc u) (str ".pdf")
  then fetchPdfText_service svc h u else fetchHtmlText_service svc h u.

Definition after_fetch (svc : Services) (u : jsstring) (w : World) : World :=
  {| INDEX := INDEX w; saved := saved w; calls := fetch_call svc u :: calls w |}.

Lemma fetchText_eq svc u w :
  fetchText svc u w = (fetch_answer svc u (calls w), after_fetch svc u w).
Proof.
  unfold fetchText, fetch_answer, after_fetch, fetch_call.
  destruct (endsWith _ _); reflexivity.
Qed.

(** The [meta] that the add-url route passes to [embedAndAppend]. *)
Definition url_meta (u : jsstring) : Meta :=
  {| idPrefix := str "url:" ++ u; meta_source := u; meta_type := url |}.

Lemma add_url_eq svc s w :
  trim s <> [] ->
  add_url svc (VString s) w
  = match fetch_answer svc (trim s) (calls w) with
    | Throw e => (Return (status_json 500 (Error e)), after_fetch svc (trim s) w)
    | Return text =>
      match embedAndAppend svc (chunkText text) (url_meta (trim s))
              (after_fetch svc (trim s) w) with
      | (Return added, w2) => (Return (json (Indexed added)), w2)
      | (Throw e, w2) => (Return (status_json 500 (Error e)), w2)
      end
    end.
Proof.
  intros Hu. unfold add_url. unfold try_catch at 1. unfold bind at 1.
  cbn [ret]. destruct (trim s) as [|c u] eqn:Eu; [congruence|].
  unfold bind at 1. rewrite fetchText_eq.
  destruct (fetch_answer svc (c :: u) (calls w)) as [text|e]; [|reflexivity].
  unfold bind at 1. fold (url_meta (c :: u)).
  destruct (embedAndAppend svc (chunkText text) (url_meta (c :: u)) _)
    as [[added|e] w2]; reflexivity.
Qed.

Lemma add_url_eq_blank svc u w :
  match u with
  | VString s => trim s = []
  | _ => truthy u = false
  end ->
  add_url svc u w = (Return (status_json 400 (Error (str "url required"))), w).
Proof.
  intros H. unfold add_url, try_catch, bind.
  destruct u as [| |b|x|s|]; cbn [truthy] in *;
    try (rewrite H); try discriminate; try reflexivity.
Qed.

(** A request to add a URL that names none (the field is missing, null,
    or a string of white space only) is answered 400; nothing is fetched
    and the store is not touched. *)
Theorem add_url_required (svc : Services) (u : jsval) (w : World) :
  u = VUndefined \/ u = VNull \/ (exists s, u = VString s /\ trim s = []) ->
  add_url svc u w = (Return (status_json 400 (Error (str "url required"))), w).
Proof.
  intros [-> | [-> | [s [-> Hs]]]]; apply add_url_eq_blank;
    [reflexivity|reflexivity|assumption].
Qed.

Lemma add_url_required_witness :
  add_url sample_services (VString (str "  ")) sample_store
  = (Return (status_json 400 (Error (str "url required"))), sample_store).
Proof.
  apply (add_url_required sample_services (VString (str "  ")) sample_store).
  right. right. exists (str "  "). split; reflexivity.
Defined.

(** The chunks of [chunkText(text)]: none for the empty text only. *)
Lemma chunkText_nil_iff text : chunkText text = [] <-> text = [].
Proof.
  rewrite chunkText_default. split.
  - intros E. apply (f_equal (@length _)) in E.
    rewrite length_chunks in E. cbn [length] in E.
    pose proof (count_bounds text 800 200 ltac:(lia)) as [_ H].
    rewrite E in H. destruct text; [reflexivity|cbn in H; lia].
  - intros ->. reflexivity.
Qed.

(** With one vector per chunk, the embeddings of the new records are the
    vectors, in their order. *)
Lemma map_embedding_new_records prefix src k chunks embs :
  length embs = length chunks ->
  map embedding (new_records prefix src k chunks embs) = embs.
Proof.
  intros Hlen. unfold new_records. rewrite map_map. cbn [embedding].
  rewrite <- Hlen. clear Hlen.
  induction embs as [|e embs IH]; cbn [length seq map nth]; [reflexivity|].
  f_equal. rewrite <- seq_shift, map_map. exact IH.
Qed.

(** X12: Adding a URL whose page gives a text, when the embedding service
    answers with one vector per chunk: the route fetches the trimmed URL,
    pushes one record per chunk of the text behind the records that were
    there, with the URL as source, [url] as type, the identifiers
    [url:<URL>::<i>] and the vectors as embeddings, saves, and answers
    with the number of chunks.  For a page with no text it answers
    [indexed: 0] and the embedding service is not called. *)
Theorem add_url_indexes (svc : Services) (s text : jsstring) (w : World)
    (embs : list vector) :
  let u := trim s in
  let chunks := chunkText text in
  let w1 := after_fetch svc u w in
  u <> [] ->
  fetch_answer svc u (calls w) = Return text ->
  (text <> [] -> embed_service svc (calls w1) chunks = Return embs) ->
  length embs = length chunks ->
  let result := add_url svc (VString s) w in
  fst result = Return (json (Indexed (len chunks)))
  /\ items (INDEX (snd result))
     = items (INDEX w) ++ new_records (str "url:" ++ u) u url chunks embs
  /\ map embedding (skipn (length (items (INDEX w)))
                          (items (INDEX (snd result)))) = embs
  /\ (text = [] -> snd result = w1)
  /\ saved (snd result) = (if len chunks =? 0 then saved w else INDEX (snd result)).
Proof.
  intros u chunks w1 Hu Hfetch Hembed Hlen result. subst result.
  assert (forall its,
            map embedding
              (skipn (length its)
                 (its ++ new_records (str "url:" ++ u) u url chunks embs))
            = embs) as Hmap.
  { intros its. rewrite skipn_app, Nat.sub_diag, skipn_all. cbn [app skipn].
    now apply map_embedding_new_records. }
  rewrite add_url_eq by assumption. fold u. rewrite Hfetch. fold chunks w1.
  fold chunks in Hmap. revert Hmap.
  destruct chunks as [|c cs] eqn:Ec; intros Hmap.
  - assert (text = []) as Ht by (apply chunkText_nil_iff; exact Ec).
    specialize (Hmap (items (INDEX w))).
    cbn [embedAndAppend ret fst snd new_records length seq map] in Hmap |- *.
    rewrite app_nil_r in Hmap |- *.
    split; [reflexivity|]. split; [reflexivity|]. split; [exact Hmap|].
    repeat split.
  - assert (text <> []) as Ht.
    { intros E. apply chunkText_nil_iff in E. fold chunks in E. congruence. }
    rewrite embedAndAppend_eq by discriminate.
    rewrite (Hembed Ht). cbn [fst snd after_append INDEX saved items url_meta
                                idPrefix meta_source meta_type].
    split; [reflexivity|]. split; [reflexivity|]. split; [apply Hmap|].
    split; [congruence|]. reflexivity.
Qed.

Local Open Scope Z_scope.

Lemma add_url_indexes_witness :
  let svc := sample_services in
  let s := str " https://a/b " in
  let text := str "page" in
  let w := sample_store in
  let embs := [[1; 0]]%float in
  let u := trim s in
  let chunks := chunkText text in
  let w1 := after_fetch svc u w in
  let result := add_url svc (VString s) w in
  fst result = Return (json (Indexed (len chunks)))
  /\ items (INDEX (snd result))
     = items (INDEX w) ++ new_records (str "url:" ++ u) u url chunks embs
  /\ map embedding (skipn (length (items (INDEX w)))
                          (items (INDEX (snd result)))) = embs
  /\ (text = [] -> snd result = w1)
  /\ saved (snd result) = (if len chunks =? 0 then saved w else INDEX (snd result)).
Proof.
  apply (add_url_indexes sample_services (str " https://a/b ") (str "page")
           sample_store [[1; 0]]%float).
  - vm_compute. discriminate.
  - vm_compute. reflexivity.
  - intros _. vm_compute. reflexivity.
  - vm_compute. reflexivity.
Defined.

(** The status of a response that was returned, and what it counts. *)
Definition status_of (o : outcome Response) : Z :=
  match o with Return r => status r | Throw _ => 0 end.

Definition indexed_of (o : outcome Response) : Z :=
  match o with
  | Return {| body := Indexed n |} => n
  | _ => 0
  end.

(** X13: When the fetch of the URL fails, the add-url route answers 500 with
    the message of the error and the store is as it was. *)
Theorem add_url_fetch_fails (svc : Services) (s e : jsstring) (w : World) :
  trim s <> [] ->
  fetch_answer svc (trim s) (calls w) = Throw e ->
  let result := add_url svc (VString s) w in
  fst result = Return (status_json 500 (Error e))
  /\ INDEX (snd result) = INDEX w
  /\ saved (snd result) = saved w.
Proof.
  intros Hu Hf result. subst result. rewrite add_url_eq by assumption.
  rewrite Hf. repeat split.
Qed.

Lemma add_url_fetch_fails_witness :
  let result := add_url failing_services (VString (str "https://a/b"))
                  sample_store in
  fst result = Return (status_json 500 (Error (str "Fetch failed")))
  /\ INDEX (snd result) = INDEX sample_store
  /\ saved (snd result) = saved sample_store.
Proof.
  apply (add_url_fetch_fails failing_services (str "https://a/b")
           (str "Fetch failed") sample_store).
  - vm_compute. discriminate.
  - vm_compute. reflexivity.
Defined.

(** An answer [indexed: n] with [n > 0] means that records of the URL
    were pushed. *)
Lemma add_url_indexed_inv svc s w n :
  fst (add_url svc (VString s) w) = Return (json (Indexed n)) ->
  0 < n ->
  exists it new,
    items (INDEX (snd (add_url svc (VString s) w)))
    = items (INDEX w) ++ it :: new
    /\ id it = record_id (str "url:" ++ trim s) 0.
Proof.
  intros E Hn.
  destruct (trim s) as [|c u] eqn:Eu.
  { rewrite add_url_eq_blank in E by exact Eu.
    apply (f_equal status_of) in E. discriminate. }
  assert (trim s <> []) as Hu by (rewrite Eu; discriminate).
  rewrite add_url_eq in * by assumption. rewrite Eu in *.
  destruct (fetch_answer svc (c :: u) (calls w)) as [text|e].
  2:{ apply (f_equal status_of) in E. discriminate. }
  destruct (chunkText text) as [|ch chs] eqn:Ec.
  { cbn [embedAndAppend ret fst] in E.
    apply (f_equal indexed_of) in E. cbn in E. lia. }
  rewrite embedAndAppend_eq in * by discriminate.
  destruct (embed_service svc _ _) as [embs|e].
  2:{ apply (f_equal status_of) in E. discriminate. }
  cbn [fst snd after_append INDEX items url_meta idPrefix meta_source
         meta_type after_fetch].
  unfold new_records. cbn [length seq map]. eexists. eexists.
  split; reflexivity.
Qed.

(** X14: Adding the same URL a second time gives the new records the
    identifiers of the first ones: once both requests have indexed
    something, the identifiers of the store are not pairwise distinct. *)
Theorem add_url_again_duplicates_ids (svc : Services) (s : jsstring)
    (w : World) (n1 n2 : Z) :
  let first := add_url svc (VString s) w in
  let second := add_url svc (VString s) (snd first) in
  fst first = Return (json (Indexed n1)) -> 0 < n1 ->
  fst second = Return (json (Indexed n2)) -> 0 < n2 ->
  ~ NoDup (map id (items (INDEX (snd second)))).
Proof.
  intros first second E1 H1 E2 H2 Hnd. subst first second.
  destruct (add_url_indexed_inv svc s w n1 E1 H1) as [a [l1 [Ea Ia]]].
  destruct (add_url_indexed_inv svc s _ n2 E2 H2) as [b [l2 [Eb Ib]]].
  rewrite Eb, Ea in Hnd. rewrite !map_app in Hnd. cbn [map] in Hnd.
  apply NoDup_remove_2 in Hnd. apply Hnd.
  rewrite Ib, <- Ia. apply in_or_app. left. apply in_or_app. right. now left.
Qed.

Lemma add_url_again_duplicates_ids_witness :
  let first := add_url sample_services (VString (str "https://a/b"))
                 sample_store in
  let second := add_url sample_services (VString (str "https://a/b"))
                  (snd first) in
  ~ NoDup (map id (items (INDEX (snd second)))).
Proof.
  apply (add_url_again_duplicates_ids sample_services (str "https://a/b")
           sample_store 1 1).
  - vm_compute. reflexivity.
  - lia.
  - vm_compute. reflexivity.
  - lia.
Defined.

Local Open Scope Z_scope.

(** * Uploading files *)

Lemma safe_char_sanitize name :
  Forall (fun c => safe_char c = true) (sanitize name).
Proof.
  unfold sanitize. apply Forall_forall. intros c Hin.
  apply in_map_iff in Hin as [d [<- _]].
  destruct (safe_char d) eqn:E; [exact E|reflexivity].
Qed.

Lemma sanitize_safe name :
  Forall (fun c => safe_char c = true) name -> sanitize name = name.
Proof.
  unfold sanitize. induction 1 as [|c l Hc Hl IH]; cbn [map]; [reflexivity|].
  rewrite Hc. now f_equal.
Qed.

Lemma is_digit_safe c : is_digit c -> safe_char c = true.
Proof.
  unfold is_digit, safe_char. intros [H1 H2].
  apply N.leb_le in H1, H2. rewrite H1, H2. reflexivity.
Qed.

(** X15: The stored name of an uploaded file is made of allowed code units
    only (ASCII letters and digits, [_], [.], [-] and the Arabic block):
    it holds no [/] and no [\], is as long as the time stamp, a hyphen and
    the original name, and a name that was clean already is kept as it
    is behind the time stamp. *)
Theorem safeName_clean (t : nat) (name : jsstring) :
  Forall (fun c => safe_char c = true) (safeName t name)
  /\ ~ In 47%N (safeName t name)
  /\ ~ In 92%N (safeName t name)
  /\ length (safeName t name)
     = (length (string_of_nat t) + 1 + length name)%nat
  /\ sanitize (sanitize name) = sanitize name
  /\ (Forall (fun c => safe_char c = true) name ->
      safeName t name = string_of_nat t ++ str "-" ++ name).
Proof.
  assert (Forall (fun c => safe_char c = true) (safeName t name)) as Hall.
  { unfold safeName. apply Forall_app. split.
    - eapply Forall_impl; [|apply string_of_nat_digits].
      intros c. apply is_digit_safe.
    - apply Forall_app. split; [repeat constructor|apply safe_char_sanitize]. }
  split; [exact Hall|]. rewrite Forall_forall in Hall.
  split; [|split; [|split; [|split]]].
  - intros Hin. apply Hall in Hin. discriminate.
  - intros Hin. apply Hall in Hin. discriminate.
  - unfold safeName, sanitize. rewrite !length_app, length_map.
    change (length (str "-")) with 1%nat. lia.
  - apply sanitize_safe, safe_char_sanitize.
  - intros H. unfold safeName. now rewrite sanitize_safe.
Qed.

(** The [meta] that the upload route passes to [embedAndAppend]. *)
Definition file_meta (name : jsstring) : Meta :=
  {| idPrefix := str "file:" ++ name; meta_source := name; meta_type := file |}.

Definition after_now (w : World) : World :=
  {| INDEX := INDEX w; saved := saved w; calls := CallNow :: calls w |}.

Definition after_read (f : Upload) (w : World) : World :=
  {| INDEX := INDEX w; saved := saved w;
     calls := CallReadTextFromBuffer (buffer f) (originalname f) :: calls w |}.

Lemma upload_one_eq svc total f w :
  upload_one svc total f w
  = let name := safeName (now_service svc (calls w)) (originalname f) in
    let w1 := after_now w in
    match readTextFromBuffer_service svc (calls w1) (buffer f) (originalname f) with
    | Throw e => (Throw e, after_read f w1)
    | Return text =>
      match embedAndAppend svc (chunkText text) (file_meta name)
              (after_read f w1) with
      | (Return added, w2) => (Return (total + added), w2)
      | (Throw e, w2) => (Throw e, w2)
      end
    end.
Proof.
  unfold upload_one. unfold bind at 1. unfold now, call at 1.
  cbv zeta. fold (after_now w). unfold bind at 1.
  unfold readTextFromBuffer, call at 1. fold (after_read f (after_now w)).
  destruct (readTextFromBuffer_service svc _ _ _) as [text|e]; [|reflexivity].
  unfold bind at 1.
  fold (safeName (now_service svc (calls w)) (originalname f)).
  fold (file_meta (safeName (now_service svc (calls w)) (originalname f))).
  destruct (embedAndAppend svc _ _ _) as [[added|e] w2]; reflexivity.
Qed.

Local Open Scope Z_scope.

Lemma for_each_app {A B} (step : B -> A -> M B) (l1 l2 : list A) :
  forall acc w,
    for_each step (l1 ++ l2) acc w
    = match for_each step l1 acc w with
      | (Return acc', w') => for_each step l2 acc' w'
      | (Throw e, w') => (Throw e, w')
      end.
Proof.
  induction l1 as [|x l1 IH]; intros acc w; cbn [app for_each]; [reflexivity|].
  unfold bind. destruct (step acc x w) as [[acc'|e] w']; [|reflexivity].
  apply IH.
Qed.

(** The items of [w] are still there, in front, in [w']. *)
Definition extends (w w' : World) : Prop :=
  exists new, items (INDEX w') = items (INDEX w) ++ new.

Lemma extends_refl w : extends w w.
Proof. exists []. now rewrite app_nil_r. Qed.

Lemma extends_calls w0 : ignores_calls (extends w0).
Proof. intros w c H. exact H. Qed.

Lemma extends_append w0 w src k chunks embs :
  extends w0 w ->
  extends w0 (store_items (items (INDEX w)
                ++ new_records (kind_prefix k ++ src) src k chunks embs) w).
Proof.
  intros [new E]. eexists. cbn [store_items INDEX items].
  rewrite E, <- app_assoc. reflexivity.
Qed.

(** X16: The chat, upload and add-url routes only ever push records: whatever
    the request and the answers of the outside services, the records that
    were in the index are still there, in front and in their order. *)
Theorem handle_pushes_only (cfg : Config) (svc : Services) (r : Request)
    (w : World) :
  (forall a source, r <> DeleteSource a source) ->
  (forall a lines files, r <> PostRebuild a lines files) ->
  exists new,
    items (INDEX (snd (handle cfg svc r w))) = items (INDEX w) ++ new.
Proof.
  intros Hd Hr.
  assert (triple (extends w) (handle cfg svc r) (fun _ => extends w)
            (fun _ => False)) as H.
  { destruct r as [m|a s|a fs|a u|a ls fs]; cbn [handle].
    - intros w1 Hw1.
      pose proof (chat_reads_only_eq cfg svc m w1) as [r [c [E1 [E2 _]]]].
      rewrite (surjective_pairing (chat cfg svc m w1)), E1, E2. exact Hw1.
    - now specialize (Hd a s).
    - unfold admin_route. destruct (requireAdmin cfg a);
        [|now apply triple_ret].
      apply upload_triple; [apply extends_calls|]. intros; now apply extends_append.
    - unfold admin_route. destruct (requireAdmin cfg a);
        [|now apply triple_ret].
      apply add_url_triple; [apply extends_calls|]. intros; now apply extends_append.
    - now specialize (Hr a ls fs). }
  specialize (H w (extends_refl w)).
  destruct (handle cfg svc r w) as [[resp|e] w']; [exact H|destruct H].
Qed.

Lemma handle_pushes_only_witness :
  exists new,
    items (INDEX (snd (handle sample_config sample_services
        (PostAddUrl (Some (str "Bearer s3cret")) (VString (str "https://a/b")))
        sample_store)))
    = items (INDEX sample_store) ++ new.
Proof.
  apply (handle_pushes_only sample_config sample_services
           (PostAddUrl (Some (str "Bearer s3cret")) (VString (str "https://a/b")))
           sample_store).
  - discriminate.
  - discriminate.
Defined.

Lemma upload_eq svc f fs w :
  upload svc (f :: fs) w
  = match for_each (upload_one svc) (f :: fs) 0 w with
    | (Return total, w') => (Return (json (Indexed total)), w')
    | (Throw e, w') => (Return (status_json 500 (Error e)), w')
    end.
Proof.
  unfold upload, try_catch. unfold bind at 1.
  destruct (for_each (upload_one svc) (f :: fs) 0 w) as [[t|e] w'];
    reflexivity.
Qed.

(** X17: An upload is not all or nothing.  When the files [done] went through
    and the next file [f] fails (its text cannot be read, or the embedding
    service throws), the route answers 500 with the message of that error
    and stops: the files after [f] are not looked at, and the records
    pushed for [done] stay in the index, in memory and as saved. *)
Theorem upload_stops_at_failure (svc : Services) (done rest : list Upload)
    (f : Upload) (w w1 w2 : World) (n : Z) (e : jsstring) :
  for_each (upload_one svc) done 0 w = (Return n, w1) ->
  upload_one svc n f w1 = (Throw e, w2) ->
  upload svc (done ++ f :: rest) w
  = (Return (status_json 500 (Error e)), w2)
  /\ (exists new, items (INDEX w1) = items (INDEX w) ++ new)
  /\ (exists new, items (INDEX w2) = items (INDEX w1) ++ new)
  /\ (saved w = INDEX w -> saved w2 = INDEX w2).
Proof.
  intros Hdone Hf.
  assert (forall (I : World -> Prop) l acc w0,
            ignores_calls I ->
            (forall w src k chunks embs, I w ->
               I (store_items (items (INDEX w)
                    ++ new_records (kind_prefix k ++ src) src k chunks embs) w)) ->
            I w0 -> I (snd (for_each (upload_one svc) l acc w0))) as Hinv.
  { intros I l acc w0 Hc Ha Hw0.
    pose proof (triple_for_each (fun _ => I) I (upload_one svc) l
                  (fun acc x _ => upload_one_triple svc I Hc Ha acc x)
                  acc w0 Hw0) as H.
    destruct (for_each (upload_one svc) l acc w0) as [[a|e'] w']; exact H. }
  split; [|split; [|split]].
  - destruct done as [|d ds].
    + cbn [app]. rewrite upload_eq. cbn [for_each]. unfold bind at 1.
      cbn [for_each ret] in Hdone. inversion Hdone; subst.
      now rewrite Hf.
    + cbn [app]. rewrite upload_eq.
      change (d :: ds ++ f :: rest) with ((d :: ds) ++ f :: rest).
      rewrite for_each_app, Hdone. cbn [for_each]. unfold bind at 1.
      now rewrite Hf.
  - pose proof (Hinv (extends w) done 0 w (extends_calls w)
                  (fun w' => extends_append w w') (extends_refl w)) as H.
    now rewrite Hdone in H.
  - pose proof (upload_one_triple svc (extends w1) (extends_calls w1)
                  (fun w' => extends_append w1 w') n f w1 (extends_refl w1)) as H.
    now rewrite Hf in H.
  - intros Hs.
    pose proof (Hinv (fun w => saved w = INDEX w) done 0 w
                  ltac:(easy) ltac:(easy) Hs) as H1.
    rewrite Hdone in H1. cbn [snd] in H1.
    pose proof (upload_one_triple svc (fun w => saved w = INDEX w)
                  ltac:(easy) ltac:(easy) n f w1 H1) as H.
    now rewrite Hf in H.
Qed.

Definition second_read_fails : Services :=
  {| embed_service := fun _ texts => Return (map (fun _ => [1; 0]%float) texts);
     embedQuery_service := fun _ _ => Return [1; 0]%float;
     completion_service := fun _ _ _ => Return (str "ok");
     fetchHtmlText_service := fun _ _ => Return (str "page");
     fetchPdfText_service := fun _ _ => Return (str "pdf");
     readTextFromBuffer_service :=
       fun h _ _ => match h with
                    | [CallNow] => Return (str "text")
                    | _ => Throw (str "bad file")
                    end;
     now_service := fun h => length h;
     toLowerCase := fun s => s;
     toFixed3 := fun x => x;
     typeError := str "not a function" |}.

Definition sample_upload : Upload :=
  {| originalname := str "notes.txt"; buffer := [116; 101; 120; 116]%N |}.

Lemma upload_stops_at_failure_witness :
  let svc := second_read_fails in
  let w := sample_store in
  let w1 := snd (upload_one svc 0 sample_upload w) in
  let w2 := snd (upload_one svc 1 sample_upload w1) in
  upload svc ([sample_upload] ++ sample_upload :: [sample_upload]) w
  = (Return (status_json 500 (Error (str "bad file"))), w2)
  /\ (exists new, items (INDEX w1) = items (INDEX w) ++ new)
  /\ (exists new, items (INDEX w2) = items (INDEX w1) ++ new)
  /\ (saved w = INDEX w -> saved w2 = INDEX w2).
Proof.
  apply (upload_stops_at_failure second_read_fails [sample_upload]
           [sample_upload] sample_upload sample_store _ _ 1 (str "bad file")).
  - vm_compute. reflexivity.
  - vm_compute. reflexivity.
Defined.

Local Open Scope Z_scope.

(** * Rebuilding the index *)

(** A step of the rebuild loops reads the world through its history of
    calls only, and leaves the index alone. *)
Definition reads_calls_only {A} (m : M A) : Prop :=
  forall w,
    INDEX (snd (m w)) = INDEX w /\ saved (snd (m w)) = saved w
    /\ forall w', calls w' = calls w ->
         fst (m w') = fst (m w) /\ calls (snd (m w')) = calls (snd (m w)).

Lemma reads_calls_only_ret {A} (a : A) : reads_calls_only (ret a).
Proof.
  intros w. split; [reflexivity|]. split; [reflexivity|].
  intros w' E. now split.
Qed.

Lemma reads_calls_only_call {A} c (answer : list Call -> outcome A) :
  reads_calls_only (call c answer).
Proof.
  intros w. unfold call. cbn [fst snd INDEX saved calls].
  split; [reflexivity|]. split; [reflexivity|].
  intros w' E. now rewrite E.
Qed.

Lemma reads_calls_only_bind {A B} (m : M A) (k : A -> M B) :
  reads_calls_only m -> (forall a, reads_calls_only (k a)) ->
  reads_calls_only (bind m k).
Proof.
  intros Hm Hk w. unfold bind.
  destruct (Hm w) as [Hi [Hs Hc]].
  assert (forall w', calls w' = calls w ->
            match m w' with
            | (Return a, w1') =>
              match m w with
              | (Return b, w1) => a = b /\ calls w1' = calls w1
              | _ => False
              end
            | (Throw e, w1') =>
              match m w with
              | (Throw e', w1) => e = e' /\ calls w1' = calls w1
              | _ => False
              end
            end) as Hrel.
  { intros w' E. specialize (Hc w' E).
    destruct (m w') as [[a|e] w1'], (m w) as [[b|e'] w1]; cbn in Hc;
      destruct Hc as [Hc1 Hc2]; try discriminate; inversion Hc1; now split. }
  destruct (m w) as [[b|e'] w1] eqn:Em; cbn [snd] in *.
  - destruct (Hk b w1) as [Hi' [Hs' Hc']].
    split; [congruence|]. split; [congruence|].
    intros w' E. specialize (Hrel w' E).
    destruct (m w') as [[a|e] w1']; [|destruct Hrel].
    destruct Hrel as [-> Ec]. now apply Hc'.
  - split; [assumption|]. split; [assumption|].
    intros w' E. specialize (Hrel w' E).
    destruct (m w') as [[a|e] w1']; [destruct Hrel|].
    destruct Hrel as [-> Ec]. now split.
Qed.

Lemma reads_calls_only_try_catch {A} (m : M A) (h : jsstring -> M A) :
  reads_calls_only m -> (forall e, reads_calls_only (h e)) ->
  reads_calls_only (try_catch m h).
Proof.
  intros Hm Hh w. unfold try_catch.
  destruct (Hm w) as [Hi [Hs Hc]].
  destruct (m w) as [[b|e'] w1] eqn:Em; cbn [snd fst] in *.
  - split; [assumption|]. split; [assumption|].
    intros w' E. specialize (Hc w' E).
    destruct (m w') as [[a|e] w1']; cbn [fst snd] in *;
      destruct Hc as [Hc1 Hc2]; [|discriminate]. now split.
  - destruct (Hh e' w1) as [Hi' [Hs' Hc']].
    split; [congruence|]. split; [congruence|].
    intros w' E. specialize (Hc w' E).
    destruct (m w') as [[a|e] w1']; cbn [fst snd] in *;
      destruct Hc as [Hc1 Hc2]; [discriminate|].
    inversion Hc1; subst. now apply Hc'.
Qed.

Lemma reads_calls_only_for_each {A B} (step : B -> A -> M B) (l : list A) :
  (forall acc x, reads_calls_only (step acc x)) ->
  forall acc, reads_calls_only (for_each step l acc).
Proof.
  intros Hstep. induction l as [|x l IH]; intros acc; cbn [for_each].
  - apply reads_calls_only_ret.
  - apply reads_calls_only_bind; [apply Hstep|]. intros a. apply IH.
Qed.

Lemma reads_calls_only_fetchText svc u : reads_calls_only (fetchText svc u).
Proof.
  unfold fetchText. destruct (endsWith _ _); apply reads_calls_only_call.
Qed.

Lemma reads_calls_only_rebuild_url svc its u :
  reads_calls_only (rebuild_url svc its u).
Proof.
  unfold rebuild_url. apply reads_calls_only_try_catch.
  - apply reads_calls_only_bind; [apply reads_calls_only_fetchText|].
    intros text. apply reads_calls_only_bind; [apply reads_calls_only_call|].
    intros embs. apply reads_calls_only_ret.
  - intros e. apply reads_calls_only_ret.
Qed.

Lemma reads_calls_only_rebuild_file svc its f :
  reads_calls_only (rebuild_file svc its f).
Proof.
  destruct f as [name buf]. unfold rebuild_file.
  apply reads_calls_only_try_catch.
  - apply reads_calls_only_bind; [apply reads_calls_only_call|].
    intros text. apply reads_calls_only_bind; [apply reads_calls_only_call|].
    intros embs. apply reads_calls_only_ret.
  - intros e. apply reads_calls_only_ret.
Qed.

(** The items that the two loops of [rebuildFromDisk] collect. *)
Definition rebuild_loops (svc : Services) (lines : list jsstring)
    (files : list (jsstring * list N)) : M (list IndexRecord) :=
  bind (for_each (rebuild_url svc) lines [])
       (fun its => for_each (rebuild_file svc) files its).

Lemma reads_calls_only_rebuild_loops svc lines files :
  reads_calls_only (rebuild_loops svc lines files).
Proof.
  unfold rebuild_loops. apply reads_calls_only_bind.
  - apply reads_calls_only_for_each. intros. apply reads_calls_only_rebuild_url.
  - intros its. apply reads_calls_only_for_each. intros.
    apply reads_calls_only_rebuild_file.
Qed.

Lemma rebuild_loops_returns svc lines files w :
  exists its, fst (rebuild_loops svc lines files w) = Return its.
Proof.
  pose proof (triple_for_each (fun _ _ => True) (fun _ => False)
                (rebuild_url svc) lines) as H1.
  pose proof (triple_for_each (fun _ _ => True) (fun _ => False)
                (rebuild_file svc) files) as H2.
  assert (forall its u, triple (fun _ => True) (rebuild_url svc its u)
                          (fun _ _ => True) (fun _ => False)) as S1.
  { intros its u w0 _. unfold rebuild_url, try_catch.
    destruct (bind _ _ w0) as [[a|e] w']; exact I. }
  assert (forall its f, triple (fun _ => True) (rebuild_file svc its f)
                          (fun _ _ => True) (fun _ => False)) as S2.
  { intros its [name buf] w0 _. unfold rebuild_file, try_catch.
    destruct (bind _ _ w0) as [[a|e] w']; exact I. }
  unfold rebuild_loops, bind.
  specialize (H1 (fun acc x _ => S1 acc x) [] w I).
  destruct (for_each (rebuild_url svc) lines [] w) as [[its|e] w1];
    [|destruct H1].
  specialize (H2 (fun acc x _ => S2 acc x) its w1 I).
  destruct (for_each (rebuild_file svc) files its w1) as [[its'|e] w2];
    [|destruct H2].
  now exists its'.
Qed.

Lemma rebuild_eq svc lines files w :
  rebuild svc lines files w
  = match rebuild_loops svc lines files w with
    | (Return its, w') => (Return (json (Rebuilt (len its))), store_items its w')
    | (Throw e, w') => (Return (status_json 500 (Error e)), w')
    end.
Proof.
  unfold rebuild, try_catch, rebuildFromDisk. unfold bind at 1 2.
  fold (bind (for_each (rebuild_url svc) lines [])
          (fun its => for_each (rebuild_file svc) files its)).
  unfold rebuild_loops, bind.
  destruct (for_each (rebuild_url svc) lines [] w) as [[its|e] w1];
    [|reflexivity].
  destruct (for_each (rebuild_file svc) files its w1) as [[its'|e] w2];
    reflexivity.
Qed.

Local Open Scope Z_scope.

(** The number of items that an answer to a rebuild gives. *)
Definition rebuilt_of (o : outcome Response) : Z :=
  match o with
  | Return {| body := Rebuilt n |} => n
  | _ => 0
  end.

(** X18: A rebuild replaces the index.  When the route answers [ok], the
    number it gives is the number of items of the new index, and the new
    index is saved; and what the new index holds does not depend on the
    index that was there: two rebuilds that answer [ok] from worlds with
    the same history of outside calls end with the same index and give
    the same number. *)
Theorem rebuild_replaces (svc : Services) (lines : list jsstring)
    (files : list (jsstring * list N)) (w w' : World) (n n' : Z) :
  calls w' = calls w ->
  let result := rebuild svc lines files w in
  let result' := rebuild svc lines files w' in
  fst result = Return (json (Rebuilt n)) ->
  fst result' = Return (json (Rebuilt n')) ->
  n = len (items (INDEX (snd result)))
  /\ saved (snd result) = INDEX (snd result)
  /\ n' = n
  /\ INDEX (snd result') = INDEX (snd result).
Proof.
  intros E result result'. subst result result'. rewrite !rebuild_eq.
  destruct (reads_calls_only_rebuild_loops svc lines files w) as [_ [_ Hc]].
  destruct (Hc w' E) as [Hf _].
  destruct (rebuild_loops_returns svc lines files w) as [its Hits].
  rewrite Hits in Hf.
  destruct (rebuild_loops svc lines files w) as [[a|e] w1]; cbn [fst] in Hits;
    [|discriminate].
  destruct (rebuild_loops svc lines files w') as [[a'|e'] w1']; cbn [fst] in Hf;
    [|discriminate].
  inversion Hits; inversion Hf; subst.
  cbn [fst snd store_items INDEX saved items].
  intros Hn Hn'.
  apply (f_equal rebuilt_of) in Hn, Hn'. cbn in Hn, Hn'.
  subst n n'. repeat split.
Qed.

Lemma rebuild_replaces_witness :
  let w := sample_store in
  let w' := sample_world in
  let lines := [str "https://a/b"] in
  let files := [(str "notes.txt", [116; 101; 120; 116]%N)] in
  let result := rebuild sample_services lines files w in
  let result' := rebuild sample_services lines files w' in
  2 = len (items (INDEX (snd result)))
  /\ saved (snd result) = INDEX (snd result)
  /\ 2 = 2
  /\ INDEX (snd result') = INDEX (snd result).
Proof.
  apply (rebuild_replaces sample_services [str "https://a/b"]
           [(str "notes.txt", [116; 101; 120; 116]%N)] sample_store sample_world
           2 2).
  - reflexivity.
  - vm_compute. reflexivity.
  - vm_compute. reflexivity.
Defined.

(** The source of a rebuilt record is one of the URL lines, with type
    [url], or one of the files, with type [file]. *)
Definition from_disk (lines : list jsstring)
    (files : list (jsstring * list N)) (it : IndexRecord) : Prop :=
  (type it = url /\ In (source it) lines)
  \/ (type it = file /\ In (source it) (map fst files)).

Lemma Forall_new_records_source (P : IndexRecord -> Prop) prefix src k chunks embs :
  (forall it, source it = src -> type it = k -> P it) ->
  Forall P (new_records prefix src k chunks embs).
Proof.
  intros H. unfold new_records. apply Forall_forall. intros it Hin.
  apply in_map_iff in Hin as [i [<- _]]. now apply H.
Qed.

Lemma rebuild_loops_from_disk svc lines files w :
  match rebuild_loops svc lines files w with
  | (Return its, _) => Forall (from_disk lines files) its
  | (Throw _, _) => False
  end.
Proof.
  set (P := fun (its : list IndexRecord) (_ : World) =>
              Forall (from_disk lines files) its).
  assert (forall acc u, In u lines ->
            triple (P acc) (rebuild_url svc acc u) P (fun _ => False)) as S1.
  { intros acc u Hu w0 Hacc. unfold rebuild_url, try_catch, bind.
    destruct (fetchText svc u w0) as [[text|e] w1]; [|exact Hacc].
    destruct (embed svc (chunkText text) w1) as [[embs|e] w2]; [|exact Hacc].
    cbn [ret]. apply Forall_app. split; [exact Hacc|].
    apply Forall_new_records_source. intros it Hs Ht. left.
    rewrite Hs, Ht. now split. }
  assert (forall acc f, In f files ->
            triple (P acc) (rebuild_file svc acc f) P (fun _ => False)) as S2.
  { intros acc [name buf] Hf w0 Hacc. unfold rebuild_file, try_catch, bind.
    destruct (readTextFromBuffer svc buf name w0) as [[text|e] w1];
      [|exact Hacc].
    destruct (embed svc (chunkText text) w1) as [[embs|e] w2]; [|exact Hacc].
    cbn [ret]. apply Forall_app. split; [exact Hacc|].
    apply Forall_new_records_source. intros it Hs Ht. right.
    rewrite Hs, Ht. split; [reflexivity|].
    apply in_map_iff. now exists (name, buf). }
  pose proof (triple_for_each P (fun _ => False) (rebuild_url svc) lines S1 [] w
                (Forall_nil _)) as H1.
  unfold rebuild_loops, bind.
  destruct (for_each (rebuild_url svc) lines [] w) as [[its|e] w1];
    [|destruct H1].
  exact (triple_for_each P (fun _ => False) (rebuild_file svc) files S2 its w1 H1).
Qed.

(** X19: After a rebuild the index holds records of the sources on the disk
    only: each has type [url] and one of the URL lines as source, or type
    [file] and the name of one of the files as source.  In particular a
    rebuild with no URL line and no file, or one on which every source
    fails, leaves an empty index. *)
Theorem rebuild_from_disk (svc : Services) (lines : list jsstring)
    (files : list (jsstring * list N)) (w : World) :
  let its := items (INDEX (snd (rebuild svc lines files w))) in
  Forall (from_disk lines files) its
  /\ (lines = [] -> files = [] -> its = [])
  /\ ((forall h u, exists e, fetch_answer svc u h = Throw e) ->
      (forall h buf name,
          exists e, readTextFromBuffer_service svc h buf name = Throw e) ->
      its = []).
Proof.
  intros its. subst its. rewrite rebuild_eq.
  pose proof (rebuild_loops_from_disk svc lines files w) as H.
  split; [|split].
  - destruct (rebuild_loops svc lines files w) as [[its|e] w1]; [|destruct H].
    exact H.
  - intros -> ->. reflexivity.
  - intros Hfetch Hread.
    set (P := fun (its : list IndexRecord) (_ : World) => its = []).
    assert (forall acc u, In u lines ->
              triple (P acc) (rebuild_url svc acc u) P (fun _ => False)) as S1.
    { intros acc u _ w0 Hacc. unfold rebuild_url, try_catch, bind.
      rewrite fetchText_eq. destruct (Hfetch (calls w0) u) as [e ->].
      exact Hacc. }
    assert (forall acc f, In f files ->
              triple (P acc) (rebuild_file svc acc f) P (fun _ => False)) as S2.
    { intros acc [name buf] _ w0 Hacc. unfold rebuild_file, try_catch, bind.
      unfold readTextFromBuffer, call.
      destruct (Hread (calls w0) buf name) as [e ->]. exact Hacc. }
    pose proof (triple_for_each P (fun _ => False) (rebuild_url svc) lines S1 [] w
                  eq_refl) as H1.
    unfold rebuild_loops, bind in *.
    destruct (for_each (rebuild_url svc) lines [] w) as [[its|e] w1];
      [|destruct H1].
    pose proof (triple_for_each P (fun _ => False) (rebuild_file svc) files S2
                  its w1 H1) as H2.
    destruct (for_each (rebuild_file svc) files its w1) as [[its'|e] w2];
      [|destruct H2].
    exact H2.
Qed.

Local Open Scope float_scope.

(** * Floating-point facts *)

(** [NaN] is absorbing. *)
Lemma Prim2SF_nan : Prim2SF nan = S754_nan.
Proof. reflexivity. Qed.

Lemma add_nan_l x : nan + x = nan.
Proof.
  apply Prim2SF_inj. rewrite add_spec, Prim2SF_nan. reflexivity.
Qed.

Lemma add_nan_r x : x + nan = nan.
Proof.
  apply Prim2SF_inj. rewrite add_spec, Prim2SF_nan.
  now destruct (Prim2SF x).
Qed.

Lemma mul_nan_r x : x * nan = nan.
Proof.
  apply Prim2SF_inj. rewrite mul_spec, Prim2SF_nan.
  now destruct (Prim2SF x).
Qed.

Lemma div_nan_l x : nan / x = nan.
Proof.
  apply Prim2SF_inj. rewrite div_spec, Prim2SF_nan. reflexivity.
Qed.

(** Multiplication commutes. *)
Lemma SFmul_comm x y : SF64mul x y = SF64mul y x.
Proof.
  unfold SF64mul.
  destruct x as [sx|sx| |sx mx ex], y as [sy|sy| |sy my ey]; cbn [SFmul];
    try reflexivity; try (now rewrite xorb_comm).
  now rewrite xorb_comm, Pos.mul_comm, Z.add_comm.
Qed.

Lemma mul_comm x y : x * y = y * x.
Proof.
  apply Prim2SF_inj. rewrite !mul_spec. apply SFmul_comm.
Qed.

Local Open Scope float_scope.

(** * Properties of [cosine] *)

(** The sum of the squares of a vector, accumulated from the left. *)
Definition sum_squares (a : vector) : float :=
  fold_left (fun s x => s + x * x) a 0.

Lemma cosine_loop_self a : forall d,
  cosine_loop a a d d d
  = (fold_left (fun s x => s + x * x) a d,
     fold_left (fun s x => s + x * x) a d,
     fold_left (fun s x => s + x * x) a d).
Proof.
  induction a as [|x a IH]; intros d; cbn [cosine_loop fold_left tl];
    [reflexivity|]. apply IH.
Qed.

(** For a vector and itself the three accumulators of [cosine] hold the
    same sum [n] of squares, so the result is [n / (sqrt n * sqrt n + 1e-9)]:
    the quotient that the [1e-9] keeps below 1 for vectors of unit length. *)
Theorem cosine_self (a : vector) :
  cosine a a
  = sum_squares a
    / (PrimFloat.sqrt (sum_squares a) * PrimFloat.sqrt (sum_squares a) + 1e-9).
Proof.
  unfold cosine. rewrite cosine_loop_self. reflexivity.
Qed.

Lemma cosine_loop_dot_nan a : forall b na nb,
  fst (fst (cosine_loop a b nan na nb)) = nan.
Proof.
  induction a as [|x a IH]; intros b na nb; cbn [cosine_loop]; [reflexivity|].
  rewrite add_nan_l. apply IH.
Qed.

Lemma cosine_loop_short a : forall b dot na nb,
  (length b < length a)%nat ->
  fst (fst (cosine_loop a b dot na nb)) = nan.
Proof.
  induction a as [|x a IH]; intros b dot na nb Hlen; cbn [length] in Hlen;
    [lia|].
  cbn [cosine_loop]. destruct b as [|y b].
  - rewrite mul_nan_r, add_nan_r. apply cosine_loop_dot_nan.
  - cbn [tl]. apply IH. cbn [length] in Hlen. lia.
Qed.

Lemma cosine_nan_of_shorter (a b : vector) :
  (length b < length a)%nat -> cosine a b = nan.
Proof.
  intros Hlen. unfold cosine.
  pose proof (cosine_loop_short a b 0 0 0 Hlen) as H.
  destruct (cosine_loop a b 0 0 0) as [[dot na] nb]. cbn [fst] in H.
  rewrite H. apply div_nan_l.
Qed.

(** X20: When the second vector is shorter than the first, the missing
    components read as [undefined] and the similarity is [NaN]: such a
    record passes no threshold test, and no comparison orders it. *)
Theorem cosine_shorter_is_nan (a b : vector) :
  (length b < length a)%nat ->
  cosine a b = nan
  /\ forall x, (cosine a b <? x) = false /\ (x <? cosine a b) = false.
Proof.
  intros Hlen.
  pose proof (cosine_nan_of_shorter a b Hlen) as E.
  split; [exact E|]. intros x. rewrite E, !ltb_spec, Prim2SF_nan.
  split; [reflexivity|]. now destruct (Prim2SF x).
Qed.

Lemma cosine_shorter_is_nan_witness :
  cosine [1; 2] [1] = nan
  /\ forall x, (cosine [1; 2] [1] <? x) = false
               /\ (x <? cosine [1; 2] [1]) = false.
Proof. apply (cosine_shorter_is_nan [1; 2] [1]). cbn. lia. Defined.

Lemma cosine_loop_swap a : forall b dot na nb,
  length a = length b ->
  cosine_loop b a dot nb na
  = (let '(d, x, y) := cosine_loop a b dot na nb in (d, y, x)).
Proof.
  induction a as [|x a IH]; intros [|y b] dot na nb Hlen;
    cbn [length] in Hlen; try discriminate; [reflexivity|].
  cbn [cosine_loop tl]. rewrite (mul_comm y x). apply IH. congruence.
Qed.

(** X21: For two vectors of the same length, [cosine] is symmetric. *)
Theorem cosine_symmetric (a b : vector) :
  length a = length b -> cosine a b = cosine b a.
Proof.
  intros Hlen. unfold cosine.
  rewrite (cosine_loop_swap a b 0 0 0 Hlen).
  destruct (cosine_loop a b 0 0 0) as [[d x] y].
  now rewrite (mul_comm (PrimFloat.sqrt y)).
Qed.

Lemma cosine_symmetric_witness :
  cosine [1; 2; 3] [0.5; 0.25; 4] = cosine [0.5; 0.25; 4] [1; 2; 3].
Proof. apply (cosine_symmetric [1; 2; 3] [0.5; 0.25; 4]). reflexivity. Defined.

(** A number that compares equal to zero is a zero. *)
Lemma eqb_zero_inv x : (x =? 0) = true -> exists s, Prim2SF x = S754_zero s.
Proof.
  rewrite eqb_spec. change (Prim2SF 0) with (S754_zero false).
  destruct (Prim2SF x) as [s|s| |s m e]; cbn; try discriminate.
  - intros _. now exists s.
  - destruct s; discriminate.
  - destruct s; discriminate.
Qed.

Local Open Scope Z_scope.

(** * The order of binary64 numbers *)

(** ** Digits and shifts *)

Lemma digits2_pos_bounds (m : positive) :
  2 ^ (Zpos (digits2_pos m) - 1) <= Zpos m < 2 ^ Zpos (digits2_pos m).
Proof.
  induction m as [m IH|m IH|]; cbn [digits2_pos].
  - rewrite Pos2Z.inj_succ.
    replace (Z.succ (Zpos (digits2_pos m)) - 1) with (Z.succ (Zpos (digits2_pos m) - 1)) by lia.
    rewrite !Z.pow_succ_r by lia. lia.
  - rewrite Pos2Z.inj_succ.
    replace (Z.succ (Zpos (digits2_pos m)) - 1) with (Z.succ (Zpos (digits2_pos m) - 1)) by lia.
    rewrite !Z.pow_succ_r by lia. lia.
  - cbn. lia.
Qed.

Lemma iter_xO (m : positive) (d : positive) :
  Zpos (Pos.iter xO m d) = Zpos m * 2 ^ Zpos d.
Proof.
  revert m. induction d as [|d IH] using Pos.peano_ind; intros m.
  - cbn. lia.
  - rewrite Pos.iter_succ, Pos2Z.inj_succ, Z.pow_succ_r by lia.
    rewrite Pos2Z.inj_xO, IH. lia.
Qed.

Lemma shr_1_m (mrs : shr_record) :
  0 <= shr_m mrs -> shr_m (shr_1 mrs) = shr_m mrs / 2.
Proof.
  destruct mrs as [m r s]. cbn [shr_m]. intros Hm.
  destruct m as [|p|p]; [reflexivity| |lia].
  destruct p as [p|p|]; cbn [shr_1 shr_m].
  - rewrite Pos2Z.inj_xI. apply Z.div_unique with 1; lia.
  - rewrite Pos2Z.inj_xO. apply Z.div_unique with 0; lia.
  - reflexivity.
Qed.

Lemma iter_pos_nat {A} (f : A -> A) (p : positive) (x : A) :
  iter_pos f p x = Nat.iter (Pos.to_nat p) f x.
Proof.
  revert x. induction p as [p IH|p IH|]; intros x; cbn [iter_pos].
  - rewrite !IH, Pos2Nat.inj_xI.
    replace (S (2 * Pos.to_nat p))
      with (Pos.to_nat p + (Pos.to_nat p + 1))%nat by lia.
    now rewrite !Nat.iter_add.
  - rewrite !IH, Pos2Nat.inj_xO.
    replace (2 * Pos.to_nat p)%nat with (Pos.to_nat p + Pos.to_nat p)%nat by lia.
    now rewrite Nat.iter_add.
  - reflexivity.
Qed.

Lemma iter_shr_1_m (n : nat) (mrs : shr_record) :
  0 <= shr_m mrs ->
  shr_m (Nat.iter n shr_1 mrs) = shr_m mrs / 2 ^ Z.of_nat n.
Proof.
  intros Hm. induction n as [|n IH].
  - cbn. now rewrite Z.div_1_r.
  - rewrite Nat.iter_succ, shr_1_m.
    + rewrite IH, Nat2Z.inj_succ, Z.pow_succ_r by lia.
      rewrite Z.div_div by lia. f_equal. lia.
    + rewrite IH. apply Z.div_pos; lia.
Qed.

Local Open Scope Z_scope.

(** ** Rounding keeps the sign *)

Lemma shr_m_of_loc m l : shr_m (shr_record_of_loc m l) = m.
Proof. destruct l as [|[| |]]; reflexivity. Qed.

Lemma shr_fexp_pos m e l :
  0 < m -> -1074 <= e ->
  0 < shr_m (fst (shr_fexp prec emax m e l))
  /\ -1074 <= snd (shr_fexp prec emax m e l).
Proof.
  intros Hm He. unfold shr_fexp, shr.
  destruct m as [|p|p]; try lia. cbn [Zdigits2].
  pose proof (digits2_pos_bounds p) as [Hlo Hhi].
  set (d := Zpos (digits2_pos p)) in *.
  assert (0 < d) as Hd by (subst d; lia).
  unfold fexp, SpecFloat.emin, prec, emax.
  destruct (Z.max (d + e - 53) (3 - 1024 - 53) - e) as [|q|q] eqn:En;
    cbn [fst snd]; try (rewrite shr_m_of_loc; lia).
  rewrite iter_pos_nat, iter_shr_1_m by (rewrite shr_m_of_loc; lia).
  rewrite shr_m_of_loc, positive_nat_Z.
  split; [|lia].
  apply Z.div_str_pos. split; [apply Z.pow_pos_nonneg; lia|].
  apply Z.le_trans with (2 ^ (d - 1)); [|assumption].
  apply Z.pow_le_mono_r; lia.
Qed.

Lemma round_nearest_even_pos m l : 0 < m -> 0 < round_nearest_even m l.
Proof.
  intros Hm. unfold round_nearest_even.
  destruct l as [|[| |]]; try lia. destruct (Z.even m); lia.
Qed.

Lemma binary_round_aux_sign sx m e l :
  0 < m -> -1074 <= e ->
  binary_round_aux prec emax sx m e l = S754_infinity sx
  \/ exists m' e', binary_round_aux prec emax sx m e l = S754_finite sx m' e'.
Proof.
  intros Hm He. unfold binary_round_aux.
  pose proof (shr_fexp_pos m e l Hm He) as [H1 H1'].
  destruct (shr_fexp prec emax m e l) as [mrs' e1]. cbn [fst snd] in H1, H1'.
  pose proof (round_nearest_even_pos (shr_m mrs') (loc_of_shr_record mrs') H1)
    as H2.
  pose proof (shr_fexp_pos _ e1 loc_Exact H2 H1') as [H3 _].
  destruct (shr_fexp prec emax _ e1 loc_Exact) as [mrs'' e2]. cbn [fst] in H3.
  destruct (shr_m mrs'') as [|p|p]; try lia.
  destruct (e2 <=? emax - prec); [right; now eexists _, _|now left].
Qed.

Lemma binary_round_sign sx m e :
  -1074 <= e ->
  binary_round prec emax sx m e = S754_infinity sx
  \/ exists m' e', binary_round prec emax sx m e = S754_finite sx m' e'.
Proof.
  intros He. unfold binary_round, shl_align.
  set (e' := fexp prec emax (Zpos (digits2_pos m) + e)).
  assert (-1074 <= e') as He'.
  { subst e'. unfold fexp, SpecFloat.emin, prec, emax. lia. }
  destruct (e' - e) as [|d|d]; apply binary_round_aux_sign; lia.
Qed.

(** The result of [binary_normalize] is above zero exactly when the
    integer that is rounded is. *)
Lemma binary_normalize_pos m e :
  -1074 <= e ->
  SFltb (S754_zero false) (binary_normalize prec emax m e false) = (0 <? m).
Proof.
  intros He. destruct m as [|p|p]; cbn [binary_normalize]; [reflexivity| |].
  - destruct (binary_round_sign false p e He) as [-> | [m' [e' ->]]]; reflexivity.
  - destruct (binary_round_sign true p e He) as [-> | [m' [e' ->]]]; reflexivity.
Qed.

Local Open Scope Z_scope.

(** ** Canonical representations compare as their values *)

Lemma bounded_bounds m e :
  bounded prec emax m e = true ->
  -1074 <= e /\ Zpos m < 2 ^ 53 /\ (-1074 < e -> 2 ^ 52 <= Zpos m).
Proof.
  unfold bounded, canonical_mantissa, fexp, SpecFloat.emin, prec, emax.
  intros H. apply andb_true_iff in H as [H _]. apply Z.eqb_eq in H.
  pose proof (digits2_pos_bounds m) as [Hlo Hhi].
  set (d := Zpos (digits2_pos m)) in *.
  assert (0 < d) as Hd by (subst d; lia).
  split; [lia|]. split.
  - apply Z.lt_le_trans with (2 ^ d); [assumption|].
    apply Z.pow_le_mono_r; lia.
  - intros He. assert (d = 53) as E by lia. rewrite E in Hlo. exact Hlo.
Qed.

Lemma shl_align_value m e ez :
  ez <= e -> Zpos (fst (shl_align m e ez)) = Zpos m * 2 ^ (e - ez).
Proof.
  intros Hle. unfold shl_align.
  destruct (ez - e) as [|d|d] eqn:E; cbn [fst].
  - replace (e - ez) with 0 by lia. lia.
  - lia.
  - rewrite iter_xO. f_equal. f_equal. lia.
Qed.

Lemma aligned_compare mx ex my ey :
  bounded prec emax mx ex = true ->
  bounded prec emax my ey = true ->
  (Zpos mx * 2 ^ (ex - Z.min ex ey) ?= Zpos my * 2 ^ (ey - Z.min ex ey))
  = match ex ?= ey with
    | Eq => (mx ?= my)%positive
    | c => c
    end.
Proof.
  intros Hx Hy.
  apply bounded_bounds in Hx as [Hex [Hmx Hnx]].
  apply bounded_bounds in Hy as [Hey [Hmy Hny]].
  destruct (Z.compare_spec ex ey) as [E|E|E].
  - subst ey. rewrite Z.min_id, Z.sub_diag. cbn [Z.pow].
    rewrite !Z.mul_1_r. reflexivity.
  - rewrite Z.min_l, Z.sub_diag by lia. cbn [Z.pow]. rewrite Z.mul_1_r.
    apply Z.compare_lt_iff.
    assert (2 ^ 1 <= 2 ^ (ey - ex)) by (apply Z.pow_le_mono_r; lia).
    specialize (Hny ltac:(lia)).
    change (2 ^ 53) with (2 ^ 52 * 2 ^ 1) in Hmx. nia.
  - rewrite Z.min_r, Z.sub_diag by lia. cbn [Z.pow]. rewrite Z.mul_1_r.
    apply Z.compare_gt_iff.
    assert (2 ^ 1 <= 2 ^ (ex - ey)) by (apply Z.pow_le_mono_r; lia).
    specialize (Hnx ltac:(lia)).
    change (2 ^ 53) with (2 ^ 52 * 2 ^ 1) in Hmy. nia.
Qed.

(** ** The sign of a difference *)

Lemma SFsub_pos (x y : spec_float) :
  valid_binary x = true -> valid_binary y = true ->
  SFltb (S754_zero false) (SF64sub y x) = SFltb x y.
Proof.
  intros Hx Hy. unfold SF64sub.
  destruct x as [sx|sx| |sx mx ex], y as [sy|sy| |sy my ey];
    try reflexivity;
    try (destruct sx; reflexivity);
    try (destruct sy; reflexivity);
    try (destruct sx, sy; reflexivity).
  cbn [valid_binary] in Hx, Hy. cbn [SFsub].
  pose proof (bounded_bounds _ _ Hx) as [Hex _].
  pose proof (bounded_bounds _ _ Hy) as [Hey _].
  rewrite binary_normalize_pos by lia.
  rewrite !shl_align_value by lia.
  pose proof (aligned_compare mx ex my ey Hx Hy) as Hcmp.
  rewrite (Z.min_comm ey ex).
  set (X := Zpos mx * 2 ^ (ex - Z.min ex ey)) in *.
  set (Y := Zpos my * 2 ^ (ey - Z.min ex ey)) in *.
  assert (0 < X) as HX.
  { subst X. apply Z.mul_pos_pos; [lia|]. apply Z.pow_pos_nonneg; lia. }
  assert (0 < Y) as HY.
  { subst Y. apply Z.mul_pos_pos; [lia|]. apply Z.pow_pos_nonneg; lia. }
  unfold SFltb, SFcompare. rewrite Pos.compare_cont_spec.
  destruct sx, sy; cbn [cond_Zopp];
    try (apply Z.ltb_ge; lia); try (apply Z.ltb_lt; lia);
    (destruct (ex ?= ey) eqn:Ec;
     [destruct (mx ?= my)%positive eqn:Em|..];
     cbn [CompOpp Pos.switch_Eq];
     destruct (Z.compare_spec X Y) as [H|H|H]; try discriminate Hcmp;
     first [apply Z.ltb_lt; lia | apply Z.ltb_ge; lia]).
Qed.

(** [comparefn(a, b) = b.score - a.score] is positive exactly when the
    score of [a] is below that of [b]: no difference of two distinct
    numbers rounds to zero, and [NaN] and [Infinity - Infinity] compare
    as nothing does. *)
Lemma sub_pos_ltb (x y : float) : (0 <? y - x)%float = (x <? y)%float.
Proof.
  rewrite !ltb_spec, sub_spec. change (Prim2SF 0) with (S754_zero false).
  apply SFsub_pos; apply Prim2SF_valid.
Qed.

Local Open Scope Z_scope.

(** ** The order is total and transitive on numbers *)

(** A key that orders the numbers as [SFcompare] does. *)
Definition key (x : spec_float) : Z * Z * Z :=
  match x with
  | S754_infinity true => (-2, 0, 0)
  | S754_finite true m e => (-1, - e, - Zpos m)
  | S754_zero _ => (0, 0, 0)
  | S754_finite false m e => (1, e, Zpos m)
  | S754_infinity false => (2, 0, 0)
  | S754_nan => (3, 0, 0)
  end.

Definition key_lt (k1 k2 : Z * Z * Z) : Prop :=
  let '(a1, b1, c1) := k1 in
  let '(a2, b2, c2) := k2 in
  a1 < a2 \/ (a1 = a2 /\ (b1 < b2 \/ (b1 = b2 /\ c1 < c2))).

Lemma SFltb_key x y :
  x <> S754_nan -> y <> S754_nan ->
  (SFltb x y = true <-> key_lt (key x) (key y)).
Proof.
  intros Hx Hy. unfold SFltb, SFcompare, key_lt.
  destruct x as [sx|sx| |sx mx ex], y as [sy|sy| |sy my ey]; try congruence;
    cbn [key];
    try (destruct sx; cbn; split; intros; try discriminate; lia);
    try (destruct sy; cbn; split; intros; try discriminate; lia);
    try (destruct sx, sy; cbn; split; intros; try discriminate; lia).
  rewrite Pos.compare_cont_spec.
  destruct sx, sy; cbn [key];
    try (split; intros; try discriminate; lia);
    (destruct (Z.compare_spec ex ey) as [E|E|E];
     [destruct (Pos.compare_spec mx my) as [E'|E'|E']|..];
     cbn [CompOpp Pos.switch_Eq]; split; intros; try discriminate;
     try reflexivity; try lia).
Qed.

Lemma SFleb_key x y :
  x <> S754_nan -> y <> S754_nan ->
  (SFleb x y = true <-> ~ key_lt (key y) (key x)).
Proof.
  intros Hx Hy. unfold SFleb, SFcompare, key_lt.
  destruct x as [sx|sx| |sx mx ex], y as [sy|sy| |sy my ey]; try congruence;
    cbn [key];
    try (destruct sx; cbn; split; intros; try discriminate; lia);
    try (destruct sy; cbn; split; intros; try discriminate; lia);
    try (destruct sx, sy; cbn; split; intros; try discriminate; lia).
  rewrite Pos.compare_cont_spec.
  destruct sx, sy; cbn [key];
    try (split; intros; try discriminate; lia);
    (destruct (Z.compare_spec ex ey) as [E|E|E];
     [destruct (Pos.compare_spec mx my) as [E'|E'|E']|..];
     cbn [CompOpp Pos.switch_Eq]; split; intros; try discriminate;
     try reflexivity; try lia).
Qed.

Lemma SFleb_not_nan x y :
  SFleb x y = true -> x <> S754_nan /\ y <> S754_nan.
Proof.
  unfold SFleb, SFcompare.
  destruct x as [sx|sx| |sx mx ex], y as [sy|sy| |sy my ey];
    try discriminate; intros _; split; discriminate.
Qed.

Lemma Prim2SF_not_nan (x : float) :
  PrimFloat.is_nan x = false -> Prim2SF x <> S754_nan.
Proof.
  intros H. unfold Prim2SF. rewrite H.
  destruct (PrimFloat.is_zero x); [discriminate|].
  destruct (PrimFloat.is_infinity x); [discriminate|].
  destruct (Z.frexp x) as [r ex].
  destruct (shr_fexp _ _ _ _ _) as [shr e'].
  destruct (shr_m shr); discriminate.
Qed.

Local Open Scope float_scope.

Lemma leb_trans (x y z : float) :
  (x <=? y) = true -> (y <=? z) = true -> (x <=? z) = true.
Proof.
  rewrite !leb_spec. intros Hxy Hyz.
  destruct (SFleb_not_nan _ _ Hxy) as [Hx Hy].
  destruct (SFleb_not_nan _ _ Hyz) as [_ Hz].
  rewrite SFleb_key in * by assumption.
  unfold key_lt in *.
  destruct (key (Prim2SF x)) as [[a1 b1] c1], (key (Prim2SF y)) as [[a2 b2] c2],
    (key (Prim2SF z)) as [[a3 b3] c3].
  lia.
Qed.

Lemma ltb_false_leb (x y : float) :
  PrimFloat.is_nan x = false -> PrimFloat.is_nan y = false ->
  (x <? y) = false -> (y <=? x) = true.
Proof.
  intros Hx Hy. apply Prim2SF_not_nan in Hx, Hy.
  rewrite ltb_spec, leb_spec. intros H.
  apply SFleb_key; [assumption|assumption|].
  rewrite <- SFltb_key by assumption. congruence.
Qed.

Lemma ltb_leb (x y : float) : (x <? y) = true -> (x <=? y) = true.
Proof.
  rewrite ltb_spec, leb_spec. unfold SFltb, SFleb.
  destruct (SFcompare _ _) as [[| |]|]; congruence.
Qed.

Lemma ltb_asym (x y : float) : (x <? y) = true -> (y <? x) = false.
Proof.
  rewrite !ltb_spec. intros H.
  assert (Prim2SF x <> S754_nan /\ Prim2SF y <> S754_nan) as [Hx Hy].
  { unfold SFltb, SFcompare in H.
    destruct (Prim2SF x), (Prim2SF y); try discriminate; split; discriminate. }
  destruct (SFltb (Prim2SF y) (Prim2SF x)) eqn:E; [|reflexivity].
  apply SFltb_key in H, E; try assumption. unfold key_lt in *.
  destruct (key (Prim2SF x)) as [[a1 b1] c1], (key (Prim2SF y)) as [[a2 b2] c2].
  lia.
Qed.

Local Open Scope Z_scope.

(** * Orthogonal vectors *)

(** ** Numbers that are not negative *)

(** [+0], a positive number or [+infinity]. *)
Definition SFnonneg (x : spec_float) : Prop :=
  match x with
  | S754_zero false | S754_infinity false | S754_finite false _ _ => True
  | _ => False
  end.

Definition nonneg (x : float) : Prop := SFnonneg (Prim2SF x).

(** [Number.isFinite(x)] *)
Definition finite_number (x : float) : Prop :=
  (abs x <? infinity)%float = true.

Lemma finite_number_inv x :
  finite_number x ->
  (exists s, Prim2SF x = S754_zero s)
  \/ exists s m e, Prim2SF x = S754_finite s m e.
Proof.
  unfold finite_number. rewrite ltb_spec, abs_spec.
  change (Prim2SF infinity) with (S754_infinity false).
  destruct (Prim2SF x) as [s|s| |s m e]; cbn; try discriminate; intros _.
  - left. now exists s.
  - right. now exists s, m, e.
Qed.

Lemma shr_fexp_nonneg m e l :
  0 <= m -> 0 <= shr_m (fst (shr_fexp prec emax m e l)).
Proof.
  intros Hm. unfold shr_fexp, shr.
  destruct (fexp prec emax (Zdigits2 m + e) - e) as [|p|p]; cbn [fst];
    rewrite ?shr_m_of_loc; try assumption.
  rewrite iter_pos_nat, iter_shr_1_m by (rewrite shr_m_of_loc; assumption).
  rewrite shr_m_of_loc. apply Z.div_pos; lia.
Qed.

Lemma round_nearest_even_nonneg m l : 0 <= m -> 0 <= round_nearest_even m l.
Proof.
  intros Hm. unfold round_nearest_even.
  destruct l as [|[| |]]; try lia. destruct (Z.even m); lia.
Qed.

Lemma binary_round_aux_nonneg m e l :
  0 <= m -> SFnonneg (binary_round_aux prec emax false m e l).
Proof.
  intros Hm. unfold binary_round_aux.
  pose proof (shr_fexp_nonneg m e l Hm) as H1.
  destruct (shr_fexp prec emax m e l) as [mrs' e1]. cbn [fst] in H1.
  pose proof (round_nearest_even_nonneg (shr_m mrs') (loc_of_shr_record mrs') H1)
    as H2.
  pose proof (shr_fexp_nonneg _ e1 loc_Exact H2) as H3.
  destruct (shr_fexp prec emax _ e1 loc_Exact) as [mrs'' e2]. cbn [fst] in H3.
  destruct (shr_m mrs'') as [|p|p]; [exact I| |lia].
  destruct (e2 <=? emax - prec); exact I.
Qed.

Lemma SFmul_nonneg x y :
  SFnonneg x -> SFnonneg y ->
  SF64mul x y = S754_nan \/ SFnonneg (SF64mul x y).
Proof.
  unfold SF64mul.
  destruct x as [[|]|[|]| |[|] mx ex], y as [[|]|[|]| |[|] my ey];
    cbn [SFnonneg SFmul xorb]; try tauto.
  intros _ _. right. apply binary_round_aux_nonneg. lia.
Qed.

Lemma square_nonneg x : finite_number x -> nonneg (x * x)%float.
Proof.
  intros H. unfold nonneg. rewrite mul_spec. unfold SF64mul.
  destruct (finite_number_inv x H) as [[s ->]|[s [m [e ->]]]]; cbn [SFmul].
  - now destruct s.
  - rewrite xorb_nilpotent. apply binary_round_aux_nonneg. lia.
Qed.

Lemma valid_exponent s m e :
  valid_binary (S754_finite s m e) = true -> -1074 <= e.
Proof.
  cbn [valid_binary]. intros H. apply bounded_bounds in H. exact (proj1 H).
Qed.

Lemma SFadd_nonneg x y :
  valid_binary x = true -> valid_binary y = true ->
  SFnonneg x -> SFnonneg y -> SFnonneg (SF64add x y).
Proof.
  unfold SF64add. intros Vx Vy.
  destruct x as [[|]|[|]| |[|] mx ex], y as [[|]|[|]| |[|] my ey];
    cbn [SFnonneg SFadd]; try tauto.
  intros _ _. apply valid_exponent in Vx, Vy. cbn [cond_Zopp].
  set (ez := Z.min ex ey).
  set (m := Zpos (fst (shl_align mx ex ez)) + Zpos (fst (shl_align my ey ez))).
  assert (0 < m) as Hm by (subst m; lia).
  destruct m as [|p|p]; try lia. cbn [binary_normalize].
  destruct (binary_round_sign false p ez ltac:(subst ez; lia))
    as [-> | [m' [e' ->]]]; exact I.
Qed.

Lemma add_nonneg x y : nonneg x -> nonneg y -> nonneg (x + y)%float.
Proof.
  unfold nonneg. rewrite add_spec. apply SFadd_nonneg; apply Prim2SF_valid.
Qed.

Lemma sum_squares_nonneg a : forall d,
  Forall finite_number a -> nonneg d ->
  nonneg (fold_left (fun s x => s + x * x)%float a d).
Proof.
  induction a as [|x a IH]; intros d Ha Hd; cbn [fold_left]; [exact Hd|].
  inversion Ha; subst. apply IH; [assumption|].
  apply add_nonneg; [assumption|]. now apply square_nonneg.
Qed.

Lemma sqrt_nonneg x : nonneg x -> nonneg (PrimFloat.sqrt x).
Proof.
  unfold nonneg. rewrite sqrt_spec. unfold SF64sqrt.
  destruct (Prim2SF x) as [[|]|[|]| |[|] m e]; cbn [SFnonneg SFsqrt]; try tauto.
  intros _. unfold SFsqrt_core_binary.
  set (m' := match _ - _ with 0 => _ | Zpos _ => _ | Zneg _ => _ end).
  pose proof (Z.sqrtrem_sqrt m') as Hq.
  change IntDef.Z.sqrtrem with Z.sqrtrem.
  destruct (Z.sqrtrem m') as [q r]. cbn [fst] in Hq. subst q.
  apply binary_round_aux_nonneg. apply Z.sqrt_nonneg.
Qed.

(** ** The similarity of vectors with disjoint supports *)

Lemma Prim2SF_zero x : Prim2SF x = S754_zero false -> x = 0%float.
Proof. intros H. apply Prim2SF_inj. now rewrite H. Qed.

Lemma Prim2SF_infinity x : Prim2SF x = S754_infinity false -> x = infinity.
Proof. intros H. apply Prim2SF_inj. now rewrite H. Qed.

(** The product of a zero and a finite number is a zero, which leaves an
    accumulator that holds [+0] as it is. *)
Lemma add_zero_product x y :
  finite_number x -> finite_number y ->
  (x =? 0)%float = true \/ (y =? 0)%float = true ->
  (0 + x * y = 0)%float.
Proof.
  intros Hx Hy Hz. apply Prim2SF_zero. rewrite add_spec, mul_spec.
  change (Prim2SF 0) with (S754_zero false). unfold SF64add, SF64mul.
  destruct Hz as [Hz|Hz]; apply eqb_zero_inv in Hz as [s Hs]; rewrite Hs.
  - destruct (finite_number_inv y Hy) as [[s' ->]|[s' [m [e ->]]]];
      cbn [SFmul SFadd]; now destruct (xorb s s').
  - destruct (finite_number_inv x Hx) as [[s' ->]|[s' [m [e ->]]]];
      cbn [SFmul SFadd]; now destruct (xorb s' s).
Qed.

(** At each index one of the two components is zero, and both are
    finite: the vectors are orthogonal, and so are they in binary64. *)
Definition disjoint_supports (a b : vector) : Prop :=
  Forall2 (fun x y => finite_number x /\ finite_number y
                      /\ ((x =? 0)%float = true \/ (y =? 0)%float = true)) a b.

Lemma cosine_loop_disjoint a b :
  disjoint_supports a b ->
  forall na nb,
    cosine_loop a b 0 na nb
    = (0%float, fold_left (fun s x => s + x * x)%float a na,
       fold_left (fun s x => s + x * x)%float b nb).
Proof.
  induction 1 as [|x y a b [Hx [Hy Hz]] _ IH]; intros na nb;
    cbn [cosine_loop fold_left tl]; [reflexivity|].
  rewrite add_zero_product by assumption. apply IH.
Qed.

Lemma disjoint_supports_finite a b :
  disjoint_supports a b -> Forall finite_number a /\ Forall finite_number b.
Proof.
  induction 1 as [|x y a b [Hx [Hy Hz]] _ [IHa IHb]]; split; constructor;
    assumption.
Qed.

(** The norm of a vector, as [cosine] computes it. *)
Definition norm (a : vector) : float := PrimFloat.sqrt (sum_squares a).

(** One norm has overflowed and the other is zero: their product is
    [NaN]. *)
Definition norms_clash (a b : vector) : Prop :=
  (norm a = infinity /\ norm b = 0%float)
  \/ (norm a = 0%float /\ norm b = infinity).

Lemma mul_nonneg x y :
  nonneg x -> nonneg y ->
  ((x = infinity /\ y = 0%float) \/ (x = 0%float /\ y = infinity) ->
   (x * y)%float = nan)
  /\ (~ ((x = infinity /\ y = 0%float) \/ (x = 0%float /\ y = infinity)) ->
      nonneg (x * y)%float).
Proof.
  unfold nonneg. intros Hx Hy. split.
  - intros [[-> ->]|[-> ->]]; reflexivity.
  - intros Hn. rewrite mul_spec. unfold SF64mul.
    destruct (Prim2SF x) as [[|]|[|]| |[|] mx ex] eqn:Ex; try destruct Hx;
      destruct (Prim2SF y) as [[|]|[|]| |[|] my ey] eqn:Ey; try destruct Hy;
      cbn [SFmul SFnonneg xorb]; try exact I.
    + apply Hn. right. split; [now apply Prim2SF_zero|now apply Prim2SF_infinity].
    + apply Hn. left. split; [now apply Prim2SF_infinity|now apply Prim2SF_zero].
    + apply binary_round_aux_nonneg. lia.
Qed.

(** A number that is above zero. *)
Definition SFpositive (x : spec_float) : Prop :=
  match x with
  | S754_infinity false | S754_finite false _ _ => True
  | _ => False
  end.

Lemma add_epsilon_positive p :
  nonneg p -> SFpositive (Prim2SF (p + 1e-9)%float).
Proof.
  unfold nonneg. intros Hp. rewrite add_spec. unfold SF64add.
  pose proof (Prim2SF_valid p) as Vp.
  assert (exists m e, Prim2SF 1e-9%float = S754_finite false m e /\ -1074 <= e)
    as [mc [ec [-> Hec]]].
  { vm_compute. do 2 eexists. split; [reflexivity|]. discriminate. }
  destruct (Prim2SF p) as [[|]|[|]| |[|] mp ep]; try destruct Hp;
    cbn [SFadd SFpositive]; try exact I.
  apply valid_exponent in Vp. cbn [cond_Zopp].
  set (ez := Z.min ep ec).
  set (m := Zpos (fst (shl_align mp ep ez)) + Zpos (fst (shl_align mc ec ez))).
  assert (0 < m) as Hm by (subst m; lia).
  destruct m as [|q|q]; try lia. cbn [binary_normalize].
  destruct (binary_round_sign false q ez ltac:(subst ez; lia))
    as [-> | [m' [e' ->]]]; exact I.
Qed.

Lemma zero_div_positive d : SFpositive (Prim2SF d) -> (0 / d = 0)%float.
Proof.
  intros Hd. apply Prim2SF_zero. rewrite div_spec.
  change (Prim2SF 0) with (S754_zero false). unfold SF64div.
  destruct (Prim2SF d) as [[|]|[|]| |[|] m e]; try destruct Hd; reflexivity.
Qed.

Lemma cosine_of_disjoint a b :
  disjoint_supports a b ->
  cosine a b = (0 / (norm a * norm b + 1e-9))%float.
Proof.
  intros H. unfold cosine. now rewrite cosine_loop_disjoint.
Qed.

(** X22: orthogonal vectors have similarity zero.  For two vectors of the
    same length, with finite components, of which at each index one is
    zero, [cosine] returns [+0]; the one exception is that of a norm that
    has overflowed to [Infinity] beside a norm that is zero, where the
    denominator and the result are [NaN]. *)
Theorem cosine_orthogonal (a b : vector) :
  disjoint_supports a b ->
  (norms_clash a b -> cosine a b = nan)
  /\ (~ norms_clash a b -> cosine a b = 0%float).
Proof.
  intros H. rewrite (cosine_of_disjoint a b H).
  destruct (disjoint_supports_finite a b H) as [Ha Hb].
  assert (nonneg (norm a)) as Na.
  { apply sqrt_nonneg, sum_squares_nonneg; [assumption|exact I]. }
  assert (nonneg (norm b)) as Nb.
  { apply sqrt_nonneg, sum_squares_nonneg; [assumption|exact I]. }
  destruct (mul_nonneg (norm a) (norm b) Na Nb) as [Hclash Hfine].
  split; intros Hc.
  - unfold norms_clash in Hc. rewrite (Hclash Hc). reflexivity.
  - apply zero_div_positive, add_epsilon_positive, Hfine. exact Hc.
Qed.

Lemma cosine_orthogonal_witness :
  disjoint_supports [3; 0; 0]%float [0; 0.5; -2]%float
  /\ ~ norms_clash [3; 0; 0]%float [0; 0.5; -2]%float
  /\ cosine [3; 0; 0]%float [0; 0.5; -2]%float = 0%float.
Proof.
  assert (disjoint_supports [3; 0; 0]%float [0; 0.5; -2]%float) as H.
  { constructor; [|constructor; [|constructor; [|constructor]]];
      (split; [reflexivity|]; split; [reflexivity|]).
    - right. reflexivity.
    - left. reflexivity.
    - left. reflexivity. }
  assert (~ norms_clash [3; 0; 0]%float [0; 0.5; -2]%float) as Hn.
  { intros [[E _]|[E _]]; apply (f_equal Prim2SF) in E; vm_compute in E;
      discriminate. }
  split; [exact H|]. split; [exact Hn|].
  exact (proj2 (cosine_orthogonal _ _ H) Hn).
Defined.

(** * The order of the results *)

(** [a] may stand before [b]: the score of [b] is at most that of [a]. *)
Definition not_below (a b : Scored) : Prop :=
  (score b <=? score a)%float = true.

(** The comparator that [topKByCosine] hands to [sort]. *)
Definition by_score_desc (a b : Scored) : float := (score b - score a)%float.

Lemma insert_by_score_sorted x l :
  is_number (score x) ->
  Forall (fun y => is_number (score y)) l ->
  StronglySorted not_below l ->
  StronglySorted not_below (insert by_score_desc x l).
Proof.
  intros Hx Hl Hs. induction Hs as [|y l Hs IH Hy]; cbn [insert].
  - repeat constructor.
  - inversion Hl as [|? ? Hny Hnl]; subst.
    unfold by_score_desc at 1. rewrite sub_pos_ltb.
    destruct (score x <? score y)%float eqn:E.
    + constructor; [now apply IH|].
      apply (Permutation_Forall (insert_perm by_score_desc x l)).
      constructor; [|assumption]. now apply ltb_leb.
    + assert (not_below x y) as Hxy by now apply ltb_false_leb.
      constructor; [now constructor|].
      constructor; [assumption|].
      eapply Forall_impl; [|exact Hy]. intros z Hz.
      unfold not_below in *. now apply leb_trans with (score y).
Qed.

Lemma sort_by_score_sorted l :
  Forall (fun y => is_number (score y)) l ->
  StronglySorted not_below (sort by_score_desc l).
Proof.
  induction 1 as [|x l Hx Hl IH]; cbn [sort fold_right]; [constructor|].
  apply insert_by_score_sorted; [assumption| |assumption].
  apply (Permutation_Forall (sort_perm by_score_desc l)). assumption.
Qed.

Lemma StronglySorted_app_inv {A} (R : A -> A -> Prop) (l1 l2 : list A) :
  StronglySorted R (l1 ++ l2) ->
  StronglySorted R l1 /\ StronglySorted R l2
  /\ forall a b, In a l1 -> In b l2 -> R a b.
Proof.
  induction l1 as [|x l1 IH]; cbn [app]; intros H.
  - repeat split; [constructor|assumption|intros a b []].
  - inversion H as [|? ? Hs Hx]; subst. destruct (IH Hs) as [H1 [H2 H3]].
    apply Forall_app in Hx as [Hx1 Hx2].
    split; [now constructor|]. split; [assumption|].
    intros a b [<-|Ha] Hb; [|now apply H3].
    rewrite Forall_forall in Hx2. now apply Hx2.
Qed.

Lemma In_firstn {A} (n : nat) (l : list A) (x : A) :
  In x (firstn n l) -> In x l.
Proof.
  intros H. rewrite <- (firstn_skipn n l). apply in_or_app. now left.
Qed.

(** X23: [topKByCosine] returns [min k n] of the [n] records of the index,
    each with its similarity to the query, and leaves the others out: the
    results followed by the records left out are the records of the
    index in some order.  So a [k] of [n] or more returns every record. *)
Theorem topKByCosine_selects (its : list IndexRecord) (qEmb : vector) (k : Z) :
  0 <= k ->
  let top := topKByCosine its qEmb k in
  length top = Nat.min (Z.to_nat k) (length its)
  /\ (forall t, In t top ->
        In (item t) its /\ score t = cosine qEmb (embedding (item t)))
  /\ (exists rest, Permutation (map item (top ++ rest)) its)
  /\ (len its <= k -> Permutation (map item top) its).
Proof.
  intros Hk top. subst top.
  split; [now apply length_topKByCosine|].
  rewrite topKByCosine_firstn by assumption.
  set (sorted := sort _ (scored_items its qEmb)).
  assert (Permutation sorted (scored_items its qEmb)) as Hperm.
  { subst sorted. symmetry. apply sort_perm. }
  assert (map item (scored_items its qEmb) = its) as Hitems.
  { unfold scored_items. rewrite map_map. cbn [item]. apply map_id. }
  split; [|split].
  - intros t Ht. apply In_firstn in Ht.
    apply (Permutation_in _ Hperm) in Ht. unfold scored_items in Ht.
    apply in_map_iff in Ht as [it [<- Hit]]. now split.
  - exists (skipn (Z.to_nat k) sorted). rewrite firstn_skipn.
    rewrite <- Hitems. now apply Permutation_map.
  - intros Hlen. rewrite firstn_all2.
    + rewrite <- Hitems. now apply Permutation_map.
    + rewrite (Permutation_length Hperm). unfold scored_items.
      rewrite length_map. unfold len in Hlen. lia.
Qed.

Lemma topKByCosine_selects_witness :
  let its := sample_items in
  let qEmb := [1; 0]%float in
  let top := topKByCosine its qEmb 5 in
  length top = Nat.min (Z.to_nat 5) (length its)
  /\ (forall t, In t top ->
        In (item t) its /\ score t = cosine qEmb (embedding (item t)))
  /\ (exists rest, Permutation (map item (top ++ rest)) its)
  /\ (len its <= 5 -> Permutation (map item top) its).
Proof. apply (topKByCosine_selects sample_items [1; 0]%float 5). lia. Defined.

(** X24: When every similarity is a number (none is [NaN]), the results come
    in descending order of score (ties allowed), and they are the best:
    no record that was left out scores higher than a record that was
    returned.  In particular the first result has the highest similarity
    of the index. *)
Theorem topKByCosine_descending (its : list IndexRecord) (qEmb : vector) (k : Z) :
  0 <= k ->
  (forall it, In it its -> is_number (cosine qEmb (embedding it))) ->
  let top := topKByCosine its qEmb k in
  StronglySorted not_below top
  /\ (exists rest,
        Permutation (map item (top ++ rest)) its
        /\ forall a b, In a top -> In b rest -> not_below a b)
  /\ (forall t rest it,
        top = t :: rest -> In it its ->
        (cosine qEmb (embedding it) <=? score t)%float = true).
Proof.
  intros Hk Hnum top. subst top.
  rewrite topKByCosine_firstn by assumption.
  fold by_score_desc.
  set (sorted := sort by_score_desc (scored_items its qEmb)).
  assert (Permutation sorted (scored_items its qEmb)) as Hperm.
  { subst sorted. symmetry. apply sort_perm. }
  assert (map item (scored_items its qEmb) = its) as Hitems.
  { unfold scored_items. rewrite map_map. cbn [item]. apply map_id. }
  assert (StronglySorted not_below sorted) as Hsorted.
  { subst sorted. apply sort_by_score_sorted. unfold scored_items.
    apply Forall_forall. intros s Hs. apply in_map_iff in Hs as [it [<- Hit]].
    cbn [score]. now apply Hnum. }
  rewrite <- (firstn_skipn (Z.to_nat k) sorted) in Hsorted.
  apply StronglySorted_app_inv in Hsorted as [H1 [H2 H3]].
  split; [exact H1|]. split.
  - exists (skipn (Z.to_nat k) sorted). rewrite firstn_skipn.
    split; [|exact H3]. rewrite <- Hitems. now apply Permutation_map.
  - intros t rest it Etop Hit.
    assert (In {| item := it; score := cosine qEmb (embedding it) |} sorted)
      as Hin.
    { apply (Permutation_in _ (Permutation_sym Hperm)). unfold scored_items.
      apply in_map_iff. now exists it. }
    rewrite <- (firstn_skipn (Z.to_nat k) sorted) in Hin.
    rewrite Etop in *. apply in_app_or in Hin as [[E|Hin]|Hin].
    + rewrite E. cbn [score]. apply ltb_false_leb; try now apply Hnum.
      destruct (_ <? _)%float eqn:El; [|reflexivity].
      now rewrite (ltb_asym _ _ El) in El.
    + inversion H1 as [|? ? _ Hall]; subst. rewrite Forall_forall in Hall.
      exact (Hall _ Hin).
    + exact (H3 t _ (or_introl eq_refl) Hin).
Qed.

Lemma topKByCosine_descending_witness :
  let its := sample_items in
  let qEmb := [1; 0]%float in
  let top := topKByCosine its qEmb 5 in
  StronglySorted not_below top
  /\ (exists rest,
        Permutation (map item (top ++ rest)) its
        /\ forall a b, In a top -> In b rest -> not_below a b)
  /\ (forall t rest it,
        top = t :: rest -> In it its ->
        (cosine qEmb (embedding it) <=? score t)%float = true).
Proof.
  apply (topKByCosine_descending sample_items [1; 0]%float 5).
  - lia.
  - intros it [<-|[<-|[]]]; reflexivity.
Defined.

Local Open Scope Z_scope.

(** Without [NaN] the first result has the highest similarity. *)
Lemma topKByCosine_head_max (its : list IndexRecord) (qEmb : vector) (k : Z) :
  0 <= k ->
  (forall it, In it its -> is_number (cosine qEmb (embedding it))) ->
  forall t rest it,
    topKByCosine its qEmb k = t :: rest -> In it its ->
    (cosine qEmb (embedding it) <=? score t)%float = true.
Proof.
  intros Hk Hnum t rest it. rewrite topKByCosine_firstn by assumption.
  fold by_score_desc.
  set (sorted := sort by_score_desc (scored_items its qEmb)).
  intros Etop Hit.
  assert (Permutation sorted (scored_items its qEmb)) as Hperm.
  { subst sorted. symmetry. apply sort_perm. }
  assert (StronglySorted not_below sorted) as Hsorted.
  { subst sorted. apply sort_by_score_sorted. unfold scored_items.
    apply Forall_forall. intros s Hs. apply in_map_iff in Hs as [x [<- Hx]].
    cbn [score]. now apply Hnum. }
  assert (In {| item := it; score := cosine qEmb (embedding it) |} sorted)
    as Hin.
  { apply (Permutation_in _ (Permutation_sym Hperm)). unfold scored_items.
    apply in_map_iff. now exists it. }
  rewrite <- (firstn_skipn (Z.to_nat k) sorted) in Hin, Hsorted.
  rewrite Etop in Hin, Hsorted. cbn [app] in Hin, Hsorted.
  destruct Hin as [E|Hin].
  - rewrite E. cbn [score]. apply ltb_false_leb; try now apply Hnum.
    destruct (_ <? _)%float eqn:El; [|reflexivity].
    now rewrite (ltb_asym _ _ El) in El.
  - inversion Hsorted as [|? ? _ Hall]; subst. rewrite Forall_forall in Hall.
    exact (Hall _ Hin).
Qed.

(** X3: for a query whose retrieval yields scored results (a valid
    message, an index that is not empty, an embedding of the query) none
    of which is [NaN], the gate takes [topSim] as the score of the first
    result, which is the highest similarity of the index, and [avgTop3]
    as the mean of the scores of the first [min 3 k] results; the route
    answers with the fixed refusal and no sources exactly when
    [topSim < MIN_TOP_SIM] or [avgTop3 < MIN_AVG_TOP3], having called the
    embedding service only; otherwise it goes on to the completion
    service with the formatted context.  The thresholds default to 0.78
    and 0.72, with which the scores 0.9, 0.8, 0.75 pass and the scores 0.5,
    0.4, 0.3 are refused. *)
Theorem chat_confidence_gate :
  (forall (cfg : Config) (svc : Services) (message : jsstring) (w : World)
          (qEmb : vector),
      message <> [] ->
      items (INDEX w) <> [] ->
      embedQuery_service svc (calls w) message = Return qEmb ->
      (forall it, In it (items (INDEX w)) ->
         is_number (cosine qEmb (embedding it))) ->
      let top := topKByCosine (items (INDEX w)) qEmb 5 in
      let result := chat cfg svc (VString message) w in
      (exists t rest, top = t :: rest /\ gate_topSim top = score t)
      /\ (forall it, In it (items (INDEX w)) ->
            (cosine qEmb (embedding it) <=? gate_topSim top)%float = true)
      /\ gate_avgTop3 top
         = mean (map score (firstn (Nat.min 3 (length top)) top))
      /\ (fst result = Return (json refusalMessage)
          <-> (gate_topSim top <? MIN_TOP_SIM cfg)%float = true
              \/ (gate_avgTop3 top <? MIN_AVG_TOP3 cfg)%float = true)
      /\ (fst result = Return (json refusalMessage) ->
          snd result = after_embedQuery message w)
      /\ (fst result <> Return (json refusalMessage) ->
          calls (snd result)
          = CallCompletion buildSystemPrompt (user_message message top)
              :: CallEmbedQuery message :: calls w))
  /\ refusalMessage
     = Answer (str "برای این موضوع آموزش ندیده‌ام و نمی‌توانم پاسخ بدهم.") []
  /\ MIN_TOP_SIM default_config = 0.78%float
  /\ MIN_AVG_TOP3 default_config = 0.72%float
  /\ gate_refuses default_config (with_scores [0.9; 0.8; 0.75]%float) = false
  /\ gate_refuses default_config (with_scores [0.5; 0.4; 0.3]%float) = true.
Proof.
  split; [|repeat split; vm_compute; reflexivity].
  intros cfg svc message w qEmb Hm Hi Hq Hnum top result.
  assert (top <> []) as Htop.
  { intros E. apply (f_equal (@length _)) in E. subst top.
    rewrite length_topKByCosine in E by lia.
    destruct (items (INDEX w)) as [|i l]; [congruence|]. cbn [length] in E. lia. }
  pose proof (chat_after_embedQuery cfg svc message w qEmb Hm Hi Hq) as Hchat.
  cbv zeta in Hchat. fold top in Hchat. fold result in Hchat.
  assert (fst result = Return (json refusalMessage)
          <-> gate_refuses cfg top = true) as Hiff.
  { rewrite Hchat. destruct (gate_refuses cfg top); [tauto|].
    split; [|discriminate].
    destruct (completion_service svc _ _ _); cbn [fst]; [|discriminate].
    unfold refusalMessage. intros E.
    apply (f_equal (fun o => match o with
                             | Return r => match body r with
                                           | Answer _ l => length l
                                           | _ => O
                                           end
                             | Throw _ => O
                             end)) in E.
    cbn [json status_json body] in E.
    rewrite length_map, length_combine, length_seq, Nat.min_id in E.
    destruct top as [|t top']; [congruence|]. discriminate. }
  split; [|split; [|split; [|split; [|split]]]].
  - destruct top as [|t rest]; [congruence|]. now exists t, rest.
  - intros it Hit. destruct top as [|t rest] eqn:Etop; [congruence|].
    cbn [gate_topSim]. subst top.
    apply (topKByCosine_head_max _ _ 5 ltac:(lia) Hnum _ _ _ Etop Hit).
  - now apply gate_avgTop3_mean.
  - rewrite Hiff. apply gate_refuses_iff.
  - intros E. apply Hiff in E. rewrite Hchat, E. reflexivity.
  - intros E. rewrite Hiff in E. apply not_true_is_false in E.
    rewrite Hchat, E.
    destruct (completion_service svc _ _ _); reflexivity.
Qed.

Lemma chat_confidence_gate_witness :
  let cfg := default_config in
  let top := topKByCosine sample_items [1; 0]%float 5 in
  let result := chat cfg sample_services (VString (str "q")) sample_store in
  (exists t rest, top = t :: rest /\ gate_topSim top = score t)
  /\ (forall it, In it (items (INDEX sample_store)) ->
        (cosine [1; 0]%float (embedding it) <=? gate_topSim top)%float = true)
  /\ gate_avgTop3 top
     = mean (map score (firstn (Nat.min 3 (length top)) top))
  /\ (fst result = Return (json refusalMessage)
      <-> (gate_topSim top <? MIN_TOP_SIM cfg)%float = true
          \/ (gate_avgTop3 top <? MIN_AVG_TOP3 cfg)%float = true)
  /\ (fst result = Return (json refusalMessage) ->
      snd result = after_embedQuery (str "q") sample_store)
  /\ (fst result <> Return (json refusalMessage) ->
      calls (snd result)
      = CallCompletion buildSystemPrompt (user_message (str "q") top)
          :: CallEmbedQuery (str "q") :: calls sample_store).
Proof.
  apply (proj1 chat_confidence_gate default_config sample_services (str "q")
           sample_store [1; 0]%float).
  - discriminate.
  - discriminate.
  - reflexivity.
  - intros it [<-|[<-|[]]]; vm_compute; reflexivity.
Defined.

(** X25: [requireAdmin], case by case: with no token configured every request
    is answered 500; with one, the request goes on to the handler exactly
    when the header is [Bearer ] followed by the token. *)
Theorem admin_route_decides (cfg : Config) (authorization : option jsstring)
    (handler : M Response) (w : World) :
  (ADMIN_TOKEN cfg = [] ->
   admin_route cfg authorization handler w
   = (Return (status_json 500 (Error (str "ADMIN_TOKEN not set on server"))), w))
  /\ (requireAdmin cfg authorization = Next
      <-> ADMIN_TOKEN cfg <> [] /\ carries_token cfg authorization)
  /\ (requireAdmin cfg authorization = Next ->
      admin_route cfg authorization handler w = handler w).
Proof.
  split; [|split].
  - intros Htok. unfold admin_route, requireAdmin. now rewrite Htok.
  - split.
    + intros H.
      assert (ADMIN_TOKEN cfg <> []) as Htok.
      { intros E. unfold requireAdmin in H. rewrite E in H. discriminate. }
      split; [exact Htok|]. now apply requireAdmin_next.
    + intros [Htok Hc]. unfold carries_token in Hc. rewrite Hc.
      now apply requireAdmin_authorized.
  - intros H. unfold admin_route. now rewrite H.
Qed.

(** * The gate and [NaN] *)

Lemma fold_left_scores_nan (l : list Scored) :
  fold_left (fun s x => (s + score x)%float) l nan = nan.
Proof.
  induction l as [|x l IH]; cbn [fold_left]; [reflexivity|].
  now rewrite add_nan_l.
Qed.

Lemma ltb_nan_l (x : float) : (nan <? x)%float = false.
Proof. rewrite ltb_spec, Prim2SF_nan. reflexivity. Qed.

Lemma gate_refuses_nan cfg t rest :
  score t = nan -> gate_refuses cfg (t :: rest) = false.
Proof.
  intros Hnan. unfold gate_refuses, gate_topSim, gate_avgTop3.
  rewrite Hnan, ltb_nan_l. cbn [orb].
  rewrite slice_0 by lia. change (Z.to_nat 3) with 3%nat.
  cbn [firstn fold_left]. rewrite Hnan, add_nan_r, fold_left_scores_nan.
  now rewrite div_nan_l, ltb_nan_l.
Qed.

Lemma topKByCosine_In its qEmb k t :
  0 <= k -> In t (topKByCosine its qEmb k) ->
  In (item t) its /\ score t = cosine qEmb (embedding (item t)).
Proof.
  intros Hk Ht. rewrite topKByCosine_firstn in Ht by assumption.
  apply In_firstn in Ht.
  apply (Permutation_in _ (Permutation_sym (sort_perm _ _))) in Ht.
  unfold scored_items in Ht. apply in_map_iff in Ht as [it [<- Hit]].
  now split.
Qed.

(** X26: The gate does not hold back what it cannot compare.  When every
    stored embedding is shorter than the embedding of the query (an index
    built with a model of fewer dimensions), every similarity is [NaN],
    both threshold tests are false, and the route goes on to the
    completion service instead of refusing. *)
Theorem chat_gate_open_on_shorter_embeddings (cfg : Config) (svc : Services)
    (message : jsstring) (w : World) (qEmb : vector) :
  message <> [] ->
  items (INDEX w) <> [] ->
  embedQuery_service svc (calls w) message = Return qEmb ->
  (forall it, In it (items (INDEX w)) ->
     (length (embedding it) < length qEmb)%nat) ->
  let top := topKByCosine (items (INDEX w)) qEmb 5 in
  let result := chat cfg svc (VString message) w in
  (forall t, In t top -> score t = nan)
  /\ gate_refuses cfg top = false
  /\ fst result <> Return (json refusalMessage)
  /\ calls (snd result)
     = CallCompletion buildSystemPrompt (user_message message top)
         :: CallEmbedQuery message :: calls w.
Proof.
  intros Hm Hi Hq Hshort top result.
  assert (forall t, In t top -> score t = nan) as Hnan.
  { intros t Ht. apply topKByCosine_In in Ht as [Hin ->]; [|lia].
    now apply cosine_nan_of_shorter, Hshort. }
  assert (top <> []) as Htop.
  { intros E. apply (f_equal (@length _)) in E. subst top.
    rewrite length_topKByCosine in E by lia.
    destruct (items (INDEX w)) as [|i l]; [congruence|].
    cbn [length] in E. lia. }
  assert (gate_refuses cfg top = false) as Hgate.
  { destruct top as [|t rest]; [congruence|].
    apply gate_refuses_nan. apply Hnan. now left. }
  split; [exact Hnan|]. split; [exact Hgate|].
  subst result.
  rewrite (chat_after_embedQuery cfg svc message w qEmb Hm Hi Hq).
  cbv zeta. fold top. rewrite Hgate.
  destruct (completion_service svc _ _ _);
    cbn [fst snd calls after_embedQuery]; (split; [|reflexivity]);
    unfold refusalMessage; intros E.
  - apply (f_equal (fun o => match o with
                             | Return r => match body r with
                                           | Answer _ l => length l
                                           | _ => O
                                           end
                             | Throw _ => O
                             end)) in E.
    cbn [json status_json body] in E.
    rewrite length_map, length_combine, length_seq, Nat.min_id in E.
    destruct top as [|t top']; [congruence|]. discriminate.
  - apply (f_equal status_of) in E. discriminate.
Qed.

Definition short_items : list IndexRecord :=
  [ {| id := str "file:a.txt::0"; source := str "a.txt"; type := file;
       text := str "first"; embedding := [1]%float |} ].

Definition short_store : World :=
  {| INDEX := {| items := short_items |};
     saved := {| items := short_items |};
     calls := [] |}.

Lemma chat_gate_open_on_shorter_embeddings_witness :
  let cfg := default_config in
  let svc := sample_services in
  let message := str "q" in
  let w := short_store in
  let top := topKByCosine (items (INDEX w)) [1; 0]%float 5 in
  let result := chat cfg svc (VString message) w in
  (forall t, In t top -> score t = nan)
  /\ gate_refuses cfg top = false
  /\ fst result <> Return (json refusalMessage)
  /\ calls (snd result)
     = CallCompletion buildSystemPrompt (user_message message top)
         :: CallEmbedQuery message :: calls w.
Proof.
  apply (chat_gate_open_on_shorter_embeddings default_config sample_services
           (str "q") short_store [1; 0]%float).
  - discriminate.
  - discriminate.
  - reflexivity.
  - intros it [<-|[]]. cbn. lia.
Defined.

(** * Appending and deleting *)

Lemma without_source_new_records src prefix k chunks embs :
  without_source src (new_records prefix src k chunks embs) = [].
Proof.
  unfold without_source, new_records.
  induction (seq 0 (length chunks)) as [|i l IH]; cbn [map filter source];
    [reflexivity|].
  assert (streq src src = true) as -> by now apply streq_true_iff.
  exact IH.
Qed.

Lemma without_source_absent src its :
  (forall it, In it its -> source it <> src) -> without_source src its = its.
Proof.
  unfold without_source. induction its as [|it its IH]; intros H;
    cbn [filter]; [reflexivity|].
  assert (streq (source it) src = false) as ->.
  { apply streq_false_iff, H. now left. }
  cbn [negb]. f_equal. apply IH. intros it' Hin. apply H. now right.
Qed.

(** X27: Deleting a source undoes its ingestion.  After [embedAndAppend] has
    pushed the records of a source of which the index had none, the
    delete route for that source removes exactly these records (it counts
    as many as there were chunks) and the index is what it was. *)
Theorem append_then_delete (svc : Services) (chunks : list jsstring)
    (meta : Meta) (w : World) (embs : list vector) :
  chunks <> [] ->
  meta_source meta <> [] ->
  embed_service svc (calls w) chunks = Return embs ->
  (forall it, In it (items (INDEX w)) -> source it <> meta_source meta) ->
  let w1 := snd (embedAndAppend svc chunks meta w) in
  let result := delete_source (Some (meta_source meta)) w1 in
  fst result = Return (json (Removed (len chunks)))
  /\ INDEX (snd result) = {| items := items (INDEX w) |}
  /\ saved (snd result) = INDEX (snd result).
Proof.
  intros Hc Hs He Habs w1 result. subst result w1.
  rewrite embedAndAppend_eq by assumption. rewrite He. cbn [snd].
  destruct (meta_source meta) as [|c s] eqn:Es; [congruence|].
  rewrite delete_source_eq.
  cbn [fst snd after_append INDEX saved calls items].
  unfold without_source. rewrite filter_app.
  fold (without_source (c :: s) (items (INDEX w))).
  fold (without_source (c :: s)
          (new_records (idPrefix meta) (c :: s) (meta_type meta) chunks embs)).
  rewrite without_source_new_records, app_nil_r.
  rewrite without_source_absent by assumption.
  split; [|split; reflexivity].
  do 3 f_equal. unfold len, new_records.
  rewrite length_app, length_map, length_seq. lia.
Qed.

Lemma append_then_delete_witness :
  let svc := sample_services in
  let chunks := [str "one"; str "two"] in
  let meta := sample_meta in
  let w := sample_store in
  let w1 := snd (embedAndAppend svc chunks meta w) in
  let result := delete_source (Some (meta_source meta)) w1 in
  fst result = Return (json (Removed (len chunks)))
  /\ INDEX (snd result) = {| items := items (INDEX w) |}
  /\ saved (snd result) = INDEX (snd result).
Proof.
  apply (append_then_delete sample_services [str "one"; str "two"] sample_meta
           sample_store [[1; 0]; [1; 0]]%float).
  - discriminate.
  - discriminate.
  - reflexivity.
  - intros it [<-|[<-|[]]]; vm_compute; discriminate.
Defined.

(** * The chunks of the default call *)

(** [chunkText(text)], as the routes call it: [ceil (L / 600)] chunks for a
    text of [L] code units, none of them empty and none longer than 800;
    no chunk for the empty text only; and the first chunk followed by the
    others without their first 200 code units is the text. *)
Theorem chunkText_chunks (text : jsstring) :
  len (chunkText text) = ceil_div (len text) 600
  /\ Forall (fun c => (0 < length c <= 800)%nat) (chunkText text)
  /\ (chunkText text = [] <-> text = [])
  /\ hd [] (chunkText text) ++ concat (map (skipn 200) (tl (chunkText text)))
     = text.
Proof.
  split; [|split; [|split]].
  - rewrite chunkText_default. unfold len. rewrite length_chunks.
    unfold count, chunk_count. change (Z.of_nat 800 - Z.of_nat 200) with 600.
    pose proof (ceil_div_bounds (len text) 600 ltac:(lia)) as B.
    unfold len in *. lia.
  - rewrite chunkText_default. unfold chunks. apply Forall_forall.
    intros c Hc. apply in_map_iff in Hc as [j [<- Hj]].
    apply in_seq in Hj as [_ Hj]. cbn [Nat.add] in Hj.
    pose proof (proj1 (count_bounds text 800 200 ltac:(lia)) j Hj) as Hlt.
    rewrite length_window_at. lia.
  - apply chunkText_nil_iff.
  - rewrite chunkText_default. apply chunks_reconstruct. lia.
Qed.

(** * The ingest script *)

Import Ingest.

Local Open Scope Z_scope.

(** [l.slice(a, b)] for indices that are not negative. *)
Lemma slice_nat {A} (l : list A) (a b : nat) :
  slice l (Z.of_nat a) (Z.of_nat b) = firstn (b - a) (skipn a l).
Proof.
  unfold slice, rel_index, len.
  replace (Z.of_nat a <? 0) with false by (symmetry; apply Z.ltb_ge; lia).
  replace (Z.of_nat b <? 0) with false by (symmetry; apply Z.ltb_ge; lia).
  destruct (Nat.le_gt_cases a (length l)) as [Ha|Ha].
  - replace (Z.to_nat (Z.min (Z.of_nat a) (Z.of_nat (length l)))) with a by lia.
    destruct (Nat.le_gt_cases b (length l)) as [Hb|Hb].
    + f_equal. lia.
    + rewrite !firstn_all2; [reflexivity| |]; rewrite length_skipn; lia.
  - rewrite !skipn_all2 by lia. now rewrite !firstn_nil.
Qed.

(** What a record is apart from its embedding. *)
Definition skeleton (it : IndexRecord) : jsstring * jsstring * SourceKind * jsstring :=
  (id it, source it, type it, text it).

Lemma skeleton_assign slice embeddings :
  map skeleton (assign slice embeddings) = map skeleton slice.
Proof.
  unfold assign. rewrite map_map.
  generalize 0%nat. induction slice as [|s l IH]; intros n; cbn; [reflexivity|].
  f_equal. apply IH.
Qed.

Lemma map_text_skeleton (l1 l2 : list IndexRecord) :
  map skeleton l1 = map skeleton l2 -> map text l1 = map text l2.
Proof.
  intros H. apply (f_equal (map (fun s : _ * _ * SourceKind * jsstring => snd s))) in H.
  now rewrite !map_map in H.
Qed.

(** The texts that an outside call sends to the embedding service. *)
Definition texts_of (c : Call) : list jsstring :=
  match c with CallEmbed texts => texts | _ => [] end.

(** A call that embeds a batch: between 1 and 64 texts. *)
Definition batch_call (c : Call) : Prop :=
  exists texts, c = CallEmbed texts /\ (0 < length texts <= 64)%nat.

Lemma batch_loop_spec svc fuel : forall items (i : nat) w,
  (length items - i <= fuel)%nat ->
  let result := batch_loop svc fuel items (Z.of_nat i) w in
  INDEX (snd result) = INDEX w
  /\ saved (snd result) = saved w
  /\ exists new,
       calls (snd result) = new ++ calls w
       /\ Forall batch_call new
       /\ forall items',
            fst result = Return items' ->
            map skeleton items' = map skeleton items
            /\ concat (map texts_of (rev new)) = map text (skipn i items).
Proof.
  induction fuel as [|fuel IH]; intros items i w Hfuel; cbv zeta.
  - cbn [batch_loop ret fst snd]. split; [reflexivity|]. split; [reflexivity|].
    exists []. split; [reflexivity|]. split; [constructor|].
    intros items' E. inversion E; subst. split; [reflexivity|].
    rewrite skipn_all2 by lia. reflexivity.
  - cbn [batch_loop]. unfold len.
    destruct (Z.ltb_spec (Z.of_nat i) (Z.of_nat (length items))) as [Hlt|Hge].
    2:{ cbn [ret fst snd]. split; [reflexivity|]. split; [reflexivity|].
        exists []. split; [reflexivity|]. split; [constructor|].
        intros items' E. inversion E; subst. split; [reflexivity|].
        rewrite skipn_all2 by lia. reflexivity. }
    unfold BATCH.
    replace (Z.of_nat i + 64) with (Z.of_nat (i + 64)) by lia.
    change 0 with (Z.of_nat 0). rewrite !slice_nat.
    replace (i + 64 - i)%nat with 64%nat by lia.
    rewrite Nat.sub_0_r. cbn [skipn].
    set (batch := firstn 64 (skipn i items)).
    assert (0 < length batch <= 64)%nat as Hbatch.
    { subst batch. rewrite length_firstn, length_skipn. lia. }
    unfold bind, embed, call. cbv beta iota.
    destruct (embed_service svc (calls w) (map text batch)) as [embs|e].
    + set (w1 := {| INDEX := INDEX w; saved := saved w;
                    calls := CallEmbed (map text batch) :: calls w |}).
      set (items1 := firstn i items ++ assign batch embs
                     ++ firstn (length items - (i + 64)) (skipn (i + 64) items)).
      assert (map skeleton items1 = map skeleton items) as Hskel.
      { subst items1. rewrite !map_app, skeleton_assign. subst batch.
        rewrite (firstn_all2 (n := length items - (i + 64)))
          by (rewrite length_skipn; lia).
        rewrite <- !map_app. f_equal.
        rewrite <- (firstn_skipn i items) at 4. f_equal.
        rewrite <- (firstn_skipn 64 (skipn i items)) at 2. f_equal.
        rewrite skipn_skipn. f_equal. lia. }
      assert (length items1 = length items) as Hlen.
      { apply (f_equal (@length _)) in Hskel. now rewrite !length_map in Hskel. }
      specialize (IH items1 (i + 64)%nat w1 ltac:(lia)). cbv zeta in IH.
      destruct IH as [Hi [Hs [new [Hc [Hall Hret]]]]].
      split; [exact Hi|]. split; [exact Hs|].
      exists (new ++ [CallEmbed (map text batch)]).
      split; [rewrite Hc; cbn [calls w1]; now rewrite <- app_assoc|].
      split.
      { apply Forall_app. split; [assumption|]. constructor; [|constructor].
        exists (map text batch). now rewrite length_map. }
      intros items' E. destruct (Hret items' E) as [Hsk Hcat].
      split; [congruence|].
      rewrite rev_app_distr. cbn [rev app map concat texts_of]. rewrite Hcat.
      rewrite <- map_app. apply map_text_skeleton.
      rewrite map_app.
      assert (map skeleton (skipn (i + 64) items1)
              = map skeleton (skipn (i + 64) items)) as ->.
      { rewrite <- !skipn_map. now rewrite Hskel. }
      rewrite <- map_app. f_equal. subst batch.
      transitivity (firstn 64 (skipn i items) ++ skipn 64 (skipn i items));
        [|apply firstn_skipn].
      f_equal. rewrite skipn_skipn. f_equal. lia.
    + cbn [fst snd INDEX saved calls].
      split; [reflexivity|]. split; [reflexivity|].
      exists [CallEmbed (map text batch)]. split; [reflexivity|].
      split.
      { constructor; [|constructor]. exists (map text batch).
        now rewrite length_map. }
      intros items' E. discriminate.
Qed.

Local Open Scope Z_scope.

(** A call that is not one to the embedding service. *)
Definition is_read (c : Call) : Prop :=
  match c with CallEmbed _ => False | _ => True end.

(** The world after some reading from the network and the disk: the index
    is as it was, and nothing was sent to the embedding service. *)
Definition only_read (w w' : World) : Prop :=
  INDEX w' = INDEX w /\ saved w' = saved w
  /\ exists new, calls w' = new ++ calls w
                 /\ Forall is_read new.

Lemma only_read_call {A} (w w0 : World) c (answer : list Call -> outcome A) :
  is_read c -> only_read w w0 -> only_read w (snd (call c answer w0)).
Proof.
  intros Hc [Hi [Hs [new [Hn Hall]]]]. unfold call. cbn [snd].
  split; [exact Hi|]. split; [exact Hs|].
  exists (c :: new). cbn [calls]. rewrite Hn. split; [reflexivity|].
  now constructor.
Qed.

Lemma ingest_url_only_read svc w its u :
  triple (only_read w) (ingest_url svc its u)
         (fun _ => only_read w) (fun _ => False).
Proof.
  intros w0 H0. unfold ingest_url, try_catch, bind, fetchText.
  destruct (endsWith _ _).
  - pose proof (only_read_call w w0 (CallFetchPdfText u)
                  (fun h => fetchPdfText_service svc h u) I H0) as H.
    unfold fetchPdfText. destruct (call _ _ w0) as [[t|e] w1]; exact H.
  - pose proof (only_read_call w w0 (CallFetchHtmlText u)
                  (fun h => fetchHtmlText_service svc h u) I H0) as H.
    unfold fetchHtmlText. destruct (call _ _ w0) as [[t|e] w1]; exact H.
Qed.

Lemma ingest_file_only_read svc w its f :
  triple (only_read w) (ingest_file svc its f)
         (fun _ => only_read w) (fun _ => False).
Proof.
  destruct f as [name buf]. intros w0 H0.
  unfold ingest_file, try_catch, bind, readTextFromBuffer.
  pose proof (only_read_call w w0 (CallReadTextFromBuffer buf name)
                (fun h => readTextFromBuffer_service svc h buf name)
                I H0) as H.
  destruct (call _ _ w0) as [[t|e] w1]; exact H.
Qed.

(** The two loops of [main] that collect the records. *)
Definition collect (svc : Services) (urls : list jsstring)
    (files : list (jsstring * list N)) : M (list IndexRecord) :=
  bind (for_each (ingest_url svc) urls [])
       (fun its => for_each (ingest_file svc) files its).

Lemma collect_only_read svc urls files w :
  exists its, fst (collect svc urls files w) = Return its
              /\ only_read w (snd (collect svc urls files w)).
Proof.
  assert (triple (only_read w) (collect svc urls files)
                 (fun _ => only_read w) (fun _ => False)) as T.
  { unfold collect. eapply triple_bind.
    - apply (triple_for_each (fun _ => only_read w)). intros acc x _.
      apply ingest_url_only_read.
    - intros its. apply (triple_for_each (fun _ => only_read w)).
      intros acc x _. apply ingest_file_only_read. }
  assert (only_read w w) as Hw.
  { split; [reflexivity|]. split; [reflexivity|]. exists []. now split. }
  specialize (T w Hw).
  destruct (collect svc urls files w) as [[its|e] w1]; [|destruct T].
  exists its. now split.
Qed.

Lemma concat_texts_of_read (l : list Call) :
  Forall is_read l -> concat (map texts_of l) = [].
Proof.
  induction 1 as [|c l Hc _ IH]; [reflexivity|].
  cbn [map concat]. rewrite IH. now destruct c.
Qed.

Lemma main_eq svc urls files w :
  main svc urls files w
  = match collect svc urls files w with
    | (Return [], w1) => (Return tt, w1)
    | (Return (it :: its), w1) =>
      match batch_loop svc (S (length (it :: its))) (it :: its) 0 w1 with
      | (Return items', w2) => writeIndex items' w2
      | (Throw e, w2) => (Throw e, w2)
      end
    | (Throw e, w1) => (Throw e, w1)
    end.
Proof.
  unfold main, collect, bind.
  destruct (for_each (ingest_url svc) urls [] w) as [[its|e] w1];
    [|reflexivity].
  destruct (for_each (ingest_file svc) files its w1) as [[[|it its']|e] w2];
    reflexivity.
Qed.

Lemma main_spec svc urls files w :
  let result := main svc urls files w in
  INDEX (snd result) = INDEX w
  /\ exists new,
       calls (snd result) = new ++ calls w
       /\ Forall (fun c => forall texts, c = CallEmbed texts ->
                            (0 < length texts <= 64)%nat) new
       /\ match fst result with
          | Return _ =>
            (saved (snd result) = saved w
             /\ concat (map texts_of (rev new)) = [])
            \/ (items (saved (snd result)) <> []
                /\ concat (map texts_of (rev new))
                   = map text (items (saved (snd result))))
          | Throw _ => saved (snd result) = saved w
          end.
Proof.
  cbv zeta. rewrite main_eq.
  destruct (collect_only_read svc urls files w)
    as [its [E [Hi [Hs [new1 [Hc Hall]]]]]].
  destruct (collect svc urls files w) as [o w1]. cbn [fst snd] in *. subst o.
  assert (Forall (fun c => forall texts, c = CallEmbed texts ->
                    (0 < length texts <= 64)%nat) new1) as Hall1.
  { eapply Forall_impl; [|exact Hall]. intros c Hc0 texts E0.
    rewrite E0 in Hc0. destruct Hc0. }
  destruct its as [|it its].
  - cbn [fst snd]. split; [exact Hi|]. exists new1. split; [exact Hc|].
    split; [exact Hall1|]. left. split; [exact Hs|].
    apply concat_texts_of_read. now apply Forall_rev.
  - pose proof (batch_loop_spec svc (S (length (it :: its))) (it :: its) 0 w1
                  ltac:(lia)) as H.
    cbv zeta in H. change (Z.of_nat 0) with 0 in H.
    destruct H as [Hi2 [Hs2 [new2 [Hc2 [Hall2 Hret]]]]].
    destruct (batch_loop svc _ _ 0 w1) as [[items'|e] w2];
      unfold writeIndex; cbn [fst snd INDEX saved calls items] in *.
    + split; [congruence|]. exists (new2 ++ new1).
      split; [rewrite Hc2, Hc; now rewrite app_assoc|].
      split.
      { apply Forall_app. split; [|exact Hall1].
        eapply Forall_impl; [|exact Hall2].
        intros c [texts [-> Hl]] texts' E'. inversion E'; subst. exact Hl. }
      right. destruct (Hret items' eq_refl) as [Hsk Hcat].
      cbn [skipn] in Hcat. split.
      * intros E'. rewrite E' in Hsk. discriminate.
      * rewrite rev_app_distr, map_app, concat_app, Hcat.
        rewrite concat_texts_of_read by now apply Forall_rev.
        cbn [app]. symmetry. now apply map_text_skeleton.
    + split; [congruence|]. exists (new2 ++ new1).
      split; [rewrite Hc2, Hc; now rewrite app_assoc|].
      split; [|congruence].
      apply Forall_app. split; [|exact Hall1].
      eapply Forall_impl; [|exact Hall2].
      intros c [texts [-> Hl]] texts' E'. inversion E'; subst. exact Hl.
Qed.


(** X29: every call that the ingest script makes to the embedding service
    sends at least one text and at most 64. *)
Theorem main_batches_bounded svc urls files w texts :
  In (CallEmbed texts) (calls (snd (main svc urls files w))) ->
  In (CallEmbed texts) (calls w) \/ (0 < length texts <= 64)%nat.
Proof.
  destruct (main_spec svc urls files w) as [_ [new [Hc [Hall _]]]].
  rewrite Hc. intros H. apply in_app_or in H. destruct H as [H|H].
  - right. rewrite Forall_forall in Hall. now apply (Hall _ H).
  - now left.
Qed.

Lemma main_batches_bounded_witness :
  let result := main sample_services [str "https://example.org/a"] []
                  sample_world in
  In (CallEmbed [str "page"]) (calls (snd result))
  /\ (In (CallEmbed [str "page"]) (calls sample_world)
      \/ (0 < length [str "page"] <= 64)%nat).
Proof.
  assert (In (CallEmbed [str "page"])
            (calls (snd (main sample_services [str "https://example.org/a"] []
                           sample_world)))) as H.
  { vm_compute. left. reflexivity. }
  split; [exact H|].
  exact (main_batches_bounded sample_services [str "https://example.org/a"] []
           sample_world [str "page"] H).
Defined.

Local Open Scope Z_scope.

(** * The list of the sources *)

Import Listing.

Lemma map_get_None key m :
  map_get key m = None <-> ~ In key (map fst m).
Proof.
  induction m as [|[k g] m IH]; cbn [map_get map fst In]; [tauto|].
  destruct (streq k key) eqn:E.
  - apply streq_true_iff in E. split; [discriminate|]. intros H. tauto.
  - apply streq_false_iff in E. rewrite IH. tauto.
Qed.

Lemma map_get_Some key m g :
  map_get key m = Some g ->
  exists m1 m2, m = m1 ++ (key, g) :: m2 /\ ~ In key (map fst m1)
                /\ forall g', map_set key g' m = m1 ++ (key, g') :: m2.
Proof.
  induction m as [|[k g0] m IH]; cbn [map_get map_set]; [discriminate|].
  destruct (streq k key) eqn:E.
  - apply streq_true_iff in E. subst k. intros [= ->].
    exists [], m. cbn. tauto.
  - apply streq_false_iff in E. intros H.
    destruct (IH H) as [m1 [m2 [-> [Hn Hs]]]].
    exists ((k, g0) :: m1), m2. cbn [app map fst In].
    split; [reflexivity|]. split; [tauto|]. intros g'. now rewrite Hs.
Qed.

Lemma map_set_absent key g m :
  ~ In key (map fst m) -> map_set key g m = m ++ [(key, g)].
Proof.
  induction m as [|[k g0] m IH]; cbn [map_set map fst In app]; [reflexivity|].
  intros H. destruct (streq k key) eqn:E.
  - apply streq_true_iff in E. tauto.
  - rewrite IH by tauto. reflexivity.
Qed.

(** The type of the first record of a source. *)
Definition first_type (src : jsstring) (its : list IndexRecord)
  : option SourceKind :=
  option_map type (find (fun it => streq (source it) src) its).

Lemma count_source_snoc src its it :
  count_source src (its ++ [it])
  = (count_source src its + if streq (source it) src then 1 else 0)%nat.
Proof.
  unfold count_source. rewrite filter_app, length_app. cbn [filter].
  now destruct (streq (source it) src).
Qed.

Lemma first_type_snoc src its it :
  first_type src (its ++ [it])
  = match first_type src its with
    | Some k => Some k
    | None => if streq (source it) src then Some (type it) else None
    end.
Proof.
  unfold first_type. induction its as [|x its IH]; cbn [app find].
  - now destruct (streq (source it) src).
  - destruct (streq (source x) src); [reflexivity|exact IH].
Qed.

Lemma count_source_pos src its :
  (0 < count_source src its)%nat <-> In src (map source its).
Proof.
  unfold count_source. induction its as [|x its IH]; cbn [filter map In length].
  - split; [lia|tauto].
  - destruct (streq (source x) src) eqn:E.
    + apply streq_true_iff in E. cbn [length]. split; [now left|lia].
    + apply streq_false_iff in E. rewrite IH. tauto.
Qed.

(** The sum of the counts of some groups. *)
Definition sum_counts (gs : list Group) : Z :=
  fold_right (fun g n => count g + n) 0 gs.

Lemma sum_counts_app gs gs' :
  sum_counts (gs ++ gs') = sum_counts gs + sum_counts gs'.
Proof.
  induction gs as [|g gs IH]; cbn [app sum_counts fold_right]; [reflexivity|].
  fold (sum_counts (gs ++ gs')). fold (sum_counts gs). lia.
Qed.

Lemma sum_counts_perm gs gs' :
  Permutation gs gs' -> sum_counts gs = sum_counts gs'.
Proof.
  induction 1; cbn [sum_counts fold_right]; fold sum_counts.
  - reflexivity.
  - fold (sum_counts l). fold (sum_counts l'). lia.
  - fold (sum_counts l). lia.
  - congruence.
Qed.

(** What a group says of the records of its source. *)
Definition group_of (its : list IndexRecord) (g : Group) : Prop :=
  count g = Z.of_nat (count_source (g_source g) its)
  /\ 0 < count g
  /\ first_type (g_source g) its = Some (g_type g).

(** What the loop keeps, turn after turn. *)
Definition groups_of (its : list IndexRecord) (m : GroupsMap) : Prop :=
  NoDup (map fst m)
  /\ Forall (fun e => g_source (snd e) = fst e /\ group_of its (snd e)) m
  /\ (forall s, In s (map fst m) <-> In s (map source its))
  /\ sum_counts (map snd m) = len its.

Lemma group_of_other its it g :
  source it <> g_source g -> group_of its g -> group_of (its ++ [it]) g.
Proof.
  intros Hne [Hc [Hp Ht]]. apply streq_false_iff in Hne.
  unfold group_of. rewrite count_source_snoc, first_type_snoc, Hne, Ht.
  split; [rewrite Hc; f_equal; lia|]. now split.
Qed.

Lemma groups_of_step its m it :
  groups_of its m -> groups_of (its ++ [it]) (group_step m it).
Proof.
  intros [Hnd [Hall [Hkeys Hsum]]]. unfold group_step. cbv zeta.
  destruct (map_get (source it) m) as [g|] eqn:E.
  - destruct (map_get_Some _ _ _ E) as [m1 [m2 [-> [Hn1 Hset]]]].
    rewrite Hset. clear Hset E. unfold groups_of.
    rewrite !map_app in Hnd, Hkeys, Hsum |- *. cbn [map fst snd] in *.
    apply Forall_app in Hall as [Hall1 Hall2].
    apply Forall_cons_iff in Hall2 as [[Hg [Hc [Hp Ht]]] Hall2].
    cbn [fst snd] in *.
    pose proof (NoDup_remove_2 _ _ _ Hnd) as Hn2.
    assert (forall e, In e (m1 ++ m2) -> source it <> g_source (snd e)
                      \/ g_source (snd e) <> fst e) as Hother.
    { intros e He. left. intros Heq.
      apply Hn2. rewrite <- map_app. apply in_map_iff.
      exists e. split; [|exact He].
      assert (g_source (snd e) = fst e) as <-; [|now symmetry].
      apply in_app_or in He. rewrite Forall_forall in Hall1, Hall2.
      destruct He as [He|He]; [apply (Hall1 _ He)|apply (Hall2 _ He)]. }
    split; [exact Hnd|]. split; [|split].
    + apply Forall_app. split; [|apply Forall_cons].
      * rewrite Forall_forall in Hall1 |- *. intros e He.
        destruct (Hall1 e He) as [H1 H2]. split; [exact H1|].
        apply group_of_other; [|exact H2].
        destruct (Hother e (in_or_app _ _ _ (or_introl He))); congruence.
      * cbn [fst snd g_source g_type count]. split; [exact Hg|].
        unfold group_of. cbn [g_source g_type count].
        rewrite Hg in Hc, Ht |- *.
        rewrite count_source_snoc, first_type_snoc, Ht.
        assert (streq (source it) (source it) = true) as ->
          by now apply streq_true_iff.
        split; [lia|]. split; [lia|reflexivity].
      * rewrite Forall_forall in Hall2 |- *. intros e He.
        destruct (Hall2 e He) as [H1 H2]. split; [exact H1|].
        apply group_of_other; [|exact H2].
        destruct (Hother e (in_or_app _ _ _ (or_intror He))); congruence.
    + intros s. rewrite Hkeys, map_app, !in_app_iff. cbn [map In].
      split; [tauto|]. intros [H|[H|[]]]; [exact H|].
      subst s. apply Hkeys. apply in_or_app. right. now left.
    + rewrite (map_app snd). cbn [map snd].
      rewrite sum_counts_app in Hsum |- *.
      cbn [sum_counts fold_right count] in Hsum |- *.
      unfold len in *. rewrite length_app. cbn [length]. lia.
  - apply map_get_None in E. rewrite map_set_absent by exact E.
    unfold groups_of. rewrite !map_app. cbn [map fst snd].
    split; [|split; [|split]].
    + apply (Permutation_NoDup (Permutation_cons_append (map fst m) (source it))).
      now constructor.
    + apply Forall_app. split.
      * rewrite Forall_forall in Hall |- *. intros e He.
        destruct (Hall e He) as [H1 H2]. split; [exact H1|].
        apply group_of_other; [|exact H2].
        intros Heq. apply E. apply in_map_iff. exists e.
        split; [congruence|exact He].
      * constructor; [|constructor]. cbn [fst snd g_source]. split; [reflexivity|].
        unfold group_of. cbn [g_source g_type count].
        rewrite count_source_snoc, first_type_snoc.
        assert (streq (source it) (source it) = true) as ->
          by now apply streq_true_iff.
        assert (count_source (source it) its = 0)%nat as Hz.
        { destruct (count_source (source it) its) eqn:Ec; [reflexivity|].
          exfalso. apply E, Hkeys, count_source_pos. lia. }
        rewrite Hz. split; [reflexivity|]. split; [lia|].
        unfold first_type.
        destruct (find _ its) as [x|] eqn:Ef; [|reflexivity].
        exfalso. apply find_some in Ef as [Hx Hs].
        apply streq_true_iff in Hs. apply E, Hkeys, in_map_iff.
        now exists x.
    + intros s. rewrite ?(map_app source), !in_app_iff, Hkeys.
      cbn [map In]. tauto.
    + rewrite ?(map_app snd), sum_counts_app. cbn [map snd sum_counts fold_right count].
      fold sum_counts. unfold len in *. rewrite length_app. cbn [length]. lia.
Qed.

Lemma groups_of_loop its : groups_of its (fold_left group_step its []).
Proof.
  induction its as [|it its IH] using rev_ind.
  - split; [constructor|]. split; [constructor|]. split; [|reflexivity].
    intros s. reflexivity.
  - rewrite fold_left_app. cbn [fold_left]. now apply groups_of_step.
Qed.

(** X30: the list of the sources counts every record once.  It has one
    group per source of the index; the count of a group is the number of
    records of its source (at least one), its type is the type of the
    first of them, and the counts add up to [total], the number of
    records; this whatever order [localeCompare] gives. *)
Theorem list_items_counts (localeCompare : jsstring -> jsstring -> float)
    (its : list IndexRecord) :
  let listing := list_items localeCompare its in
  total listing = len its
  /\ NoDup (map g_source (groups listing))
  /\ (forall s, In s (map g_source (groups listing)) <-> In s (map source its))
  /\ (forall g, In g (groups listing) ->
        count g = Z.of_nat (count_source (g_source g) its)
        /\ 0 < count g
        /\ first_type (g_source g) its = Some (g_type g))
  /\ sum_counts (groups listing) = total listing.
Proof.
  cbv zeta. unfold list_items. cbn [total groups].
  destruct (groups_of_loop its) as [Hnd [Hall [Hkeys Hsum]]].
  set (m := fold_left group_step its []) in *.
  set (cmp := fun a b : Group => localeCompare (g_source a) (g_source b)).
  pose proof (sort_perm cmp (map snd m)) as Hp.
  assert (map g_source (map snd m) = map fst m) as Hsrc.
  { rewrite map_map. apply map_ext_in. intros e He.
    rewrite Forall_forall in Hall. apply (Hall e He). }
  split; [reflexivity|]. split; [|split; [|split]].
  - apply (Permutation_NoDup (Permutation_map g_source Hp)). now rewrite Hsrc.
  - intros s. rewrite <- Hkeys, <- Hsrc. split; intros H.
    + apply (Permutation_in _ (Permutation_sym (Permutation_map g_source Hp)) H).
    + apply (Permutation_in _ (Permutation_map g_source Hp) H).
  - intros g Hg. apply (Permutation_in _ (Permutation_sym Hp)) in Hg.
    apply in_map_iff in Hg as [e [<- He]].
    rewrite Forall_forall in Hall. apply (Hall e He).
  - rewrite <- (sum_counts_perm _ _ Hp). exact Hsum.
Qed.
